(** * Action service of the bot runtime: a shallow embedding

    This development embeds the class [ScopedActionService] of
    [src/bp/core/services/action/action-service.ts] and proves properties
    of the action catalog, the trust classifier, the script cache, the
    recursive require check, the execution router, the remote delegate and
    the debounced cache invalidation.  The registry [ActionService], which
    only maps a bot to its [ScopedActionService], is left out.

    Conventions.
    - Asynchronous methods are run to completion: a method is a function
      from the service state to an outcome (value, thrown error, or
      exhaustion of the recursion budget), see [M].
    - Everything the file imports from elsewhere (the content store, the
      sandbox runner, axios, the token signer, the helpers of [./utils],
      ...) is a field of the record [Env]; theorems quantify over it.
    - Every call that leaves the service is appended to a trace of
      [Effect]s, so that statements such as "one audit task is created" or
      "no file is read" are statements about that trace. *)

From stdpp Require Import gmap strings list.
From Stdlib Require Import ZArith Ascii.
From Stdlib Require String.

Open Scope Z_scope.

(** ** JavaScript strings *)

Module Js.

(** [String.prototype.toLowerCase], on the ASCII range. *)
Definition toLowerCase_char (c : ascii) : ascii :=
  let n := nat_of_ascii c in
  if ((65 <=? n)%nat && (n <=? 90)%nat)%bool then ascii_of_nat (n + 32) else c.

Fixpoint toLowerCase (s : string) : string :=
  match s with
  | EmptyString => EmptyString
  | String c s' => String (toLowerCase_char c) (toLowerCase s')
  end.

(** [s.startsWith(p)]. *)
Definition startsWith (p s : string) : bool := String.prefix p s.

(** [s.includes(needle)], which is also [s.indexOf(needle) > -1]. *)
Fixpoint includes (needle s : string) : bool :=
  if startsWith needle s then true
  else match s with
       | EmptyString => false
       | String _ s' => includes needle s'
       end.

(** [s.split(sep)[0]]: the text before the first separator, the whole
    string when there is none. *)
Fixpoint split_head (sep : ascii) (s : string) : string :=
  match s with
  | EmptyString => EmptyString
  | String c s' =>
      if Ascii.eqb c sep then EmptyString else String c (split_head sep s')
  end.

Fixpoint drop (n : nat) (s : string) : string :=
  match n, s with
  | O, _ => s
  | S n', String _ s' => drop n' s'
  | S _, EmptyString => EmptyString
  end.

(** [file.replace(/\.js|\.http\.js$/i, '')]: the regular expression has
    no [g] flag, so only the leftmost match is removed.  At a position
    the first alternative [\.js] is tried before the second,
    [\.http\.js] anchored at the end of the string. *)
Fixpoint replace_ext (file : string) : string :=
  if startsWith ".js" (toLowerCase file) then drop 3 file
  else if String.eqb (toLowerCase file) ".http.js" then EmptyString
  else match file with
       | EmptyString => EmptyString
       | String c rest => String c (replace_ext rest)
       end.

(** Template-literal rendering of a boolean. *)
Definition of_bool (b : bool) : string := if b then "true" else "false".

End Js.

(** ** Data model *)

(** The metadata extracted from a script header ([common/typings]); its
    structure plays no role here and is kept as the extracted text. *)
Record ActionMetadata := { meta_text : string }.

Inductive ActionLocation := global | local.

Definition location_string (l : ActionLocation) : string :=
  match l with global => "global" | local => "local" end.

Record ActionDefinition := {
  name : string;
  isRemote : bool;
  location : ActionLocation;
  legacy : bool;
  metadata : option ActionMetadata
}.

Record ActionServer := { server_id : string; baseUrl : string }.

Inductive JsValue :=
| JsUndefined
| JsNull
| JsBool (b : bool)
| JsNumber (z : Z)
| JsString (s : string).

(** The fields of [IO.IncomingEvent] ([botpress/sdk]) that the service
    reads or writes. *)
Module IO.
Record EventState := {
  user : gmap string JsValue;
  temp : gmap string JsValue;
  session : gmap string JsValue
}.
Record IncomingEvent := { id : string; botId : string; state : EventState }.

Definition set_temp (k : string) (v : JsValue) (e : IncomingEvent) : IncomingEvent :=
  {| id := id e; botId := botId e;
     state := {| user := user (state e);
                 temp := <[k := v]> (temp (state e));
                 session := session (state e) |} |}.

Definition empty : IncomingEvent :=
  {| id := EmptyString; botId := EmptyString; state := {| user := ∅; temp := ∅; session := ∅ |} |}.
End IO.

#[global] Instance IncomingEvent_inhabited : Inhabited IO.IncomingEvent :=
  populate IO.empty.

(** Event objects live in a store and are passed by reference. *)
Definition EventRef := nat.

(** Modelled from the spec: the class [ActionExecutionError] of
    [../dialog/errors] is missing; section 4.6 gives its shape,
    [ActionExecutionError{message, actionName, stack}], and the source the
    order of the arguments of its constructor.  The other two constructors
    are the errors of the host: a plain [Error], and an error whose
    [isAxiosError] property is set, with its [code]. *)
Inductive Thrown :=
| JsError (message stack : string)
| AxiosErr (message stack code : string)
| ActionExecutionError (message actionName stack : string).

Definition err_message (e : Thrown) : string :=
  match e with
  | JsError m _ | AxiosErr m _ _ | ActionExecutionError m _ _ => m
  end.

Definition err_stack (e : Thrown) : string :=
  match e with
  | JsError _ s | AxiosErr _ s _ | ActionExecutionError _ _ s => s
  end.

Definition isAxiosError (e : Thrown) : bool :=
  match e with AxiosErr _ _ _ => true | _ => false end.

Definition err_code (e : Thrown) : string :=
  match e with AxiosErr _ _ c => c | _ => "undefined" end.

(** What a [throw] raises and a [catch] clause receives.  The host and the
    libraries throw [Error] objects, the values of [Thrown].  A script is
    free to throw any value: [null] and [undefined] are told apart from
    the rest, since reading a property off them is itself a [TypeError];
    any other value is wrapped like an [Error] object, with what its
    [message] and [stack] hold, and is not told apart from one.  What the
    code of a required file throws while [requireFromString] loads it is
    only handed to the logger, and is recorded as an [Error] object. *)
Inductive Nullish := js_null | js_undefined.

Definition nullish_string (v : Nullish) : string :=
  match v with js_null => "null" | js_undefined => "undefined" end.

Inductive Exception :=
| ErrorObject (e : Thrown)
| NullishValue (v : Nullish).

Coercion ErrorObject : Thrown >-> Exception.

(** The result of awaiting a promise of an external collaborator, which
    rejects with an [Error] object. *)
Inductive Settled (A : Type) :=
| Fulfilled (a : A)
| Rejected (e : Thrown).
Arguments Fulfilled {A} a.
Arguments Rejected {A} e.

Inductive TaskStatus := completed | failed.

(** The audit record handed to [tasksRepository.createTask]. *)
Record Task := {
  eventId : string;
  task_actionName : string;
  task_actionArgs : JsValue;
  actionServerId : string;
  startedAt : Z;
  endedAt : Z;
  status : TaskStatus;
  failureReason : option string
}.

Inductive GhostScope := ghost_global | ghost_forBot (bot : string).

(** The resolver built by [prepareRequire(dirPath, lookups)]. *)
Record Require := { req_dirPath : string; req_lookups : list string }.

(** The bundle of arguments given to a script.  [user], [temp] and
    [session] are the sub-objects of the event itself, [bp], [printObject]
    and [process] are handles of the host. *)
Record ScriptArgs := { arg_event : EventRef; arg_args : JsValue }.

Record NodeVMOptions := {
  wrapper : string;
  sandbox : ScriptArgs;
  require_external : bool;
  require_mock : Require;
  timeout : Z
}.

Record AxiosRequest := {
  method : string;
  url : string;
  req_timeout : Z;
  data_token : string;
  data_botId : string;
  data_actionName : string;
  data_incomingEvent : IO.IncomingEvent;
  data_actionArgs : JsValue
}.

(** [response.status] and [response.data.incomingEvent]; the latter is
    [None] when the body carries no event with a [state.temp] object. *)
Record AxiosResponse := {
  response_status : Z;
  response_incomingEvent : option IO.IncomingEvent
}.

(** What a script run that ends leaves behind: the event object as the
    script left it, and the value it threw, if any.  A run that never
    settles is not represented: the statements are about runs that end. *)
Record ScriptOutcome := { event_after : IO.IncomingEvent; raised : option Exception }.

Inductive Effect :=
| EvDirectoryListing (scope : GhostScope)
| EvReadFile (scope : GhostScope) (filename : string)
| EvRequireFromString (code file parentScript : string)
| EvRunWithoutVm (code : string) (args : ScriptArgs) (req : Require)
| EvRunInVm (opts : NodeVMOptions) (code dirPath : string)
| EvGetBotWorkspaceId (bot : string)
| EvHttpPost (req : AxiosRequest)
| EvCreateTask (t : Task)
| EvLogError (msg : string) (err : Exception)
| EvLogWarn (msg : string)
| EvClearCache.

(** ** The collaborators of the service *)

Record Env := {
  this_botId : string;
  (* GhostService: directoryListing('actions', '*.js', EXCLUDES) and
     readFileAsString('actions', filename) *)
  directoryListing : GhostScope -> Settled (list string);
  readFileAsString : GhostScope -> string -> Settled string;
  (* ./utils and ./metadata *)
  enabled : string -> bool;
  extractMetadata : string -> ActionMetadata;
  extractRequiredFiles : string -> list string;
  getBaseLookupPaths : string -> list string;
  prepareRequireTester : string -> list string -> string -> bool;
  (* path.resolve(path.join(process.PROJECT_LOCATION, p)) *)
  path_resolve : string -> string;
  (* ../../modules/require: the error thrown, or whether the exports are
     empty *)
  requireFromString : string -> string -> string -> Require -> Settled bool;
  (* yn(process.core_env.BP_EXPERIMENTAL_REQUIRE_BPFS) *)
  BP_EXPERIMENTAL_REQUIRE_BPFS : bool;
  (* process.ASSERT_LICENSED(): the error it throws, if any *)
  ASSERT_LICENSED : option Thrown;
  (* ../../api *)
  createForAction : option Thrown;
  (* new Function(...keys, code)(...values) *)
  Function_call : string -> ScriptArgs -> Require -> IO.IncomingEvent -> ScriptOutcome;
  (* new VmRunner().runInVm(vm, code, dirPath) *)
  VmRunner_runInVm : NodeVMOptions -> string -> string -> IO.IncomingEvent -> ScriptOutcome;
  (* WorkspaceService *)
  getBotWorkspaceId : string -> Settled string;
  (* jsonwebtoken.sign({botId, scopes: ['*'], workspace}, APP_SECRET,
     {expiresIn: '5m', audience: AUDIENCE}) *)
  jsonwebtoken_sign : string -> string -> Settled string;
  (* axios(request): the time the call takes and how it settles *)
  axios : AxiosRequest -> Z * Settled AxiosResponse;
  (* the [stack] property captured by [new Error(message)] *)
  Error_stack : string -> string
}.

(** ** The state of a [ScopedActionService] *)

(** The closure state of a function made by lodash's [debounce]: the time
    of the last call and the deadline of the pending [setTimeout]. *)
Record Debounced := { lastCallTime : option Z; timerId : option Z }.

Record State := {
  _globalActionsCache : option (list ActionDefinition);
  _localActionsCache : option (list ActionDefinition);
  _scriptsCache : gmap string string;
  _validScripts : gmap string bool;
  _botsWorkspaceIdsCache : gmap string string;
  clearDebounce : Debounced;
  (* the store of event objects, the clock, and the effects so far *)
  events : list IO.IncomingEvent;
  clock : Z;
  trace : list Effect
}.

Definition set_globalActionsCache (v : option (list ActionDefinition)) (s : State) : State :=
  {| _globalActionsCache := v; _localActionsCache := _localActionsCache s;
     _scriptsCache := _scriptsCache s; _validScripts := _validScripts s;
     _botsWorkspaceIdsCache := _botsWorkspaceIdsCache s;
     clearDebounce := clearDebounce s; events := events s; clock := clock s;
     trace := trace s |}.

Definition set_localActionsCache (v : option (list ActionDefinition)) (s : State) : State :=
  {| _globalActionsCache := _globalActionsCache s; _localActionsCache := v;
     _scriptsCache := _scriptsCache s; _validScripts := _validScripts s;
     _botsWorkspaceIdsCache := _botsWorkspaceIdsCache s;
     clearDebounce := clearDebounce s; events := events s; clock := clock s;
     trace := trace s |}.

Definition set_scriptsCache (v : gmap string string) (s : State) : State :=
  {| _globalActionsCache := _globalActionsCache s;
     _localActionsCache := _localActionsCache s;
     _scriptsCache := v; _validScripts := _validScripts s;
     _botsWorkspaceIdsCache := _botsWorkspaceIdsCache s;
     clearDebounce := clearDebounce s; events := events s; clock := clock s;
     trace := trace s |}.

Definition set_validScripts (v : gmap string bool) (s : State) : State :=
  {| _globalActionsCache := _globalActionsCache s;
     _localActionsCache := _localActionsCache s;
     _scriptsCache := _scriptsCache s; _validScripts := v;
     _botsWorkspaceIdsCache := _botsWorkspaceIdsCache s;
     clearDebounce := clearDebounce s; events := events s; clock := clock s;
     trace := trace s |}.

Definition set_botsWorkspaceIdsCache (v : gmap string string) (s : State) : State :=
  {| _globalActionsCache := _globalActionsCache s;
     _localActionsCache := _localActionsCache s;
     _scriptsCache := _scriptsCache s; _validScripts := _validScripts s;
     _botsWorkspaceIdsCache := v;
     clearDebounce := clearDebounce s; events := events s; clock := clock s;
     trace := trace s |}.

Definition set_clearDebounce (v : Debounced) (s : State) : State :=
  {| _globalActionsCache := _globalActionsCache s;
     _localActionsCache := _localActionsCache s;
     _scriptsCache := _scriptsCache s; _validScripts := _validScripts s;
     _botsWorkspaceIdsCache := _botsWorkspaceIdsCache s;
     clearDebounce := v; events := events s; clock := clock s;
     trace := trace s |}.

Definition set_events (v : list IO.IncomingEvent) (s : State) : State :=
  {| _globalActionsCache := _globalActionsCache s;
     _localActionsCache := _localActionsCache s;
     _scriptsCache := _scriptsCache s; _validScripts := _validScripts s;
     _botsWorkspaceIdsCache := _botsWorkspaceIdsCache s;
     clearDebounce := clearDebounce s; events := v; clock := clock s;
     trace := trace s |}.

Definition set_clock (v : Z) (s : State) : State :=
  {| _globalActionsCache := _globalActionsCache s;
     _localActionsCache := _localActionsCache s;
     _scriptsCache := _scriptsCache s; _validScripts := _validScripts s;
     _botsWorkspaceIdsCache := _botsWorkspaceIdsCache s;
     clearDebounce := clearDebounce s; events := events s; clock := v;
     trace := trace s |}.

Definition set_trace (v : list Effect) (s : State) : State :=
  {| _globalActionsCache := _globalActionsCache s;
     _localActionsCache := _localActionsCache s;
     _scriptsCache := _scriptsCache s; _validScripts := _validScripts s;
     _botsWorkspaceIdsCache := _botsWorkspaceIdsCache s;
     clearDebounce := clearDebounce s; events := events s; clock := clock s;
     trace := v |}.

(** The state right after the constructor, at time [t0], with the event
    objects [evs] allocated by the callers. *)
Definition new_ScopedActionService (evs : list IO.IncomingEvent) (t0 : Z) : State :=
  {| _globalActionsCache := None; _localActionsCache := None;
     _scriptsCache := ∅; _validScripts := ∅; _botsWorkspaceIdsCache := ∅;
     clearDebounce := {| lastCallTime := None; timerId := None |};
     events := evs; clock := t0; trace := [] |}.

(** ** Methods as state transformers *)

Inductive Outcome (A : Type) :=
| Ret (a : A) (s : State)
| Throw (e : Exception) (s : State)
| OutOfFuel.
Arguments Ret {A} a s.
Arguments Throw {A} e s.
Arguments OutOfFuel {A}.

Definition M (A : Type) := State -> Outcome A.

Definition ret {A} (a : A) : M A := fun s => Ret a s.

Definition throw {A} (e : Exception) : M A := fun s => Throw e s.

Definition bind {A B} (m : M A) (k : A -> M B) : M B :=
  fun s => match m s with
           | Ret a s' => k a s'
           | Throw e s' => Throw e s'
           | OutOfFuel => OutOfFuel
           end.

(** [try { m } catch (e) { handler e }]. *)
Definition try_catch {A} (m : M A) (handler : Exception -> M A) : M A :=
  fun s => match m s with
           | Ret a s' => Ret a s'
           | Throw e s' => handler e s'
           | OutOfFuel => OutOfFuel
           end.

Declare Scope js_scope.
Delimit Scope js_scope with js.
Notation "x <- m ;; k" := (bind m (fun x => k))
  (at level 65, m at next level, right associativity) : js_scope.
Notation "m ;;; k" := (bind m (fun _ => k))
  (at level 65, right associativity) : js_scope.
Open Scope js_scope.

Definition gets {A} (f : State -> A) : M A := fun s => Ret (f s) s.

Definition modify (f : State -> State) : M unit := fun s => Ret tt (f s).

Definition emit (ev : Effect) : M unit :=
  modify (fun s => set_trace (trace s ++ [ev]) s).

Definition await {A} (p : Settled A) : M A :=
  match p with
  | Fulfilled a => ret a
  | Rejected e => throw e
  end.

(** [new Date()]. *)
Definition Date_now : M Z := gets clock.

Definition dquote : string := String (ascii_of_nat 34) EmptyString.

Definition DEBOUNCE_DELAY : Z := 2000.

(** ** [ScopedActionService] *)

Section ScopedActionService.

Context (env : Env).

(** [new Error(message)]. *)
Definition new_Error (message : string) : Thrown :=
  JsError message (Error_stack env message).

(** [e.prop] for a caught value [e]: the property of the [Error] object,
    and a [TypeError] when [e] is [null] or [undefined]. *)
Definition TypeError_property (prop : string) (v : Nullish) : Thrown :=
  JsError ("Cannot read property '" +:+ prop +:+ "' of " +:+ nullish_string v)
          (Error_stack env
             ("Cannot read property '" +:+ prop +:+ "' of " +:+ nullish_string v)).

Definition read_property {A} (prop : string) (get : Thrown -> A) (e : Exception) : M A :=
  match e with
  | ErrorObject err => ret (get err)
  | NullishValue v => throw (TypeError_property prop v)
  end.

(** *** The script cache *)

(** The key under which [getActionScript] stores a script:
    [`${action.name}_${action.legacy}_${action.location}`]. *)
Definition script_key (a : ActionDefinition) : string :=
  name a +:+ "_" +:+ Js.of_bool (legacy a) +:+ "_" +:+ location_string (location a).

(** The file [getActionScript] reads on a cache miss. *)
Definition script_file (a : ActionDefinition) : GhostScope * string :=
  match location a with
  | global => (ghost_global, name a +:+ ".js")
  | local =>
      (ghost_forBot (this_botId env),
       if legacy a then name a +:+ ".js" else name a +:+ ".http.js")
  end.

(** The cache is looked up under [action.name] and filled under
    [script_key action], as in the source. *)
Definition getActionScript (a : ActionDefinition) : M string :=
  cache <- gets _scriptsCache ;;
  match cache !! name a with
  | Some script => ret script
  | None =>
      emit (EvReadFile (script_file a).1 (script_file a).2) ;;;
      script <- await (readFileAsString env (script_file a).1 (script_file a).2) ;;
      modify (fun s => set_scriptsCache (<[script_key a := script]> (_scriptsCache s)) s) ;;;
      ret script
  end.

(** *** Action definitions *)

Definition new_definition (file : string) (loc : ActionLocation) : ActionDefinition :=
  {| name := Js.replace_ext file;
     isRemote := false;
     location := loc;
     legacy := negb (Js.includes ".http.js" file);
     metadata := None |}.

Definition with_metadata (a : ActionDefinition) (script : string) : ActionDefinition :=
  {| name := name a; isRemote := isRemote a; location := location a;
     legacy := legacy a; metadata := Some (extractMetadata env script) |}.

Definition getActionDefinition (file : string) (loc : ActionLocation)
    (includeMetadata : bool) : M ActionDefinition :=
  let action := new_definition file loc in
  if includeMetadata then
    script <- getActionScript action ;;
    ret (with_metadata action script)
  else ret action.

(** [Promise.map(actionFiles, async file => this.getActionDefinition(file,
    location, true))].  The mappers are started one after the other, in the
    order of the array, and each runs up to its first suspension: the cache
    lookup and, on a miss, the start of the read.  The continuations, which
    fill the cache, only run once every mapper has been started.  So all
    lookups see the cache as it was before the call.  The result keeps the
    order of the array; when a read fails the promise is rejected, and the
    mappers whose read succeeded still fill the cache. *)
Record Mapped := {
  mapped_reads : list Effect;
  mapped_writes : list (string * string);
  mapped_result : Settled ActionDefinition
}.

Definition start_getActionDefinition (cache0 : gmap string string)
    (loc : ActionLocation) (file : string) : Mapped :=
  let action := new_definition file loc in
  match cache0 !! name action with
  | Some script =>
      {| mapped_reads := []; mapped_writes := [];
         mapped_result := Fulfilled (with_metadata action script) |}
  | None =>
      let read := EvReadFile (script_file action).1 (script_file action).2 in
      match readFileAsString env (script_file action).1 (script_file action).2 with
      | Fulfilled script =>
          {| mapped_reads := [read];
             mapped_writes := [(script_key action, script)];
             mapped_result := Fulfilled (with_metadata action script) |}
      | Rejected e =>
          {| mapped_reads := [read]; mapped_writes := [];
             mapped_result := Rejected e |}
      end
  end.

Fixpoint all_settled {A} (l : list (Settled A)) : Settled (list A) :=
  match l with
  | [] => Fulfilled []
  | Rejected e :: _ => Rejected e
  | Fulfilled a :: rest =>
      match all_settled rest with
      | Fulfilled l' => Fulfilled (a :: l')
      | Rejected e => Rejected e
      end
  end.

Definition fill_cache (writes : list (string * string)) (cache : gmap string string)
    : gmap string string :=
  foldl (fun c kv => <[kv.1 := kv.2]> c) cache writes.

Definition Promise_map_getActionDefinition (files : list string)
    (loc : ActionLocation) : M (list ActionDefinition) :=
  cache0 <- gets _scriptsCache ;;
  let mapped := map (start_getActionDefinition cache0 loc) files in
  modify (fun s => set_trace (trace s ++ List.concat (map mapped_reads mapped)) s) ;;;
  modify (fun s => set_scriptsCache
                     (fill_cache (List.concat (map mapped_writes mapped)) (_scriptsCache s)) s) ;;;
  await (all_settled (map mapped_result mapped)).

(** *** The catalog *)

Definition listGlobalActions : M (list ActionDefinition) :=
  cached <- gets _globalActionsCache ;;
  match cached with
  | Some actions => ret actions
  | None =>
      emit (EvDirectoryListing ghost_global) ;;;
      files <- await (directoryListing env ghost_global) ;;
      actions <- Promise_map_getActionDefinition (List.filter (enabled env) files) global ;;
      modify (set_globalActionsCache (Some actions)) ;;;
      ret actions
  end.

Definition listLocalActions : M (list ActionDefinition) :=
  cached <- gets _localActionsCache ;;
  match cached with
  | Some actions => ret actions
  | None =>
      emit (EvDirectoryListing (ghost_forBot (this_botId env))) ;;;
      files <- await (directoryListing env (ghost_forBot (this_botId env))) ;;
      actions <- Promise_map_getActionDefinition (List.filter (enabled env) files) local ;;
      modify (set_localActionsCache (Some actions)) ;;;
      ret actions
  end.

Definition listActions : M (list ActionDefinition) :=
  globalActions <- listGlobalActions ;;
  localActions <- listLocalActions ;;
  ret (globalActions ++ localActions).

Definition hasAction (actionName : string) : M bool :=
  actions <- listActions ;;
  ret (bool_decide (is_Some (List.find (fun x => String.eqb (name x) actionName) actions))).

Definition findAction (actionName : string) : M ActionDefinition :=
  actions <- listActions ;;
  match List.find (fun x => String.eqb (name x) actionName) actions with
  | Some action => ret action
  | None => throw (new_Error ("Action " +:+ dquote +:+ actionName +:+ dquote +:+ " not found"))
  end.

(** *** The trust classifier *)

Definition BUILTIN_MODULES : list string :=
  [ "analytics"; "basic-skills"; "builtin"; "builtin"; "channel-messenger";
    "channel-slack"; "channel-teams"; "channel-telegram"; "channel-web";
    "code-editor"; "examples"; "extensions"; "history"; "hitl"; "nlu"; "qna";
    "testing" ].

(** [array.includes(x)] on strings. *)
Definition includes_str (l : list string) (x : string) : bool :=
  existsb (String.eqb x) l.

Definition listTrustedActions : M (list ActionDefinition) :=
  globalActions <- listGlobalActions ;;
  ret (List.filter
         (fun a => includes_str BUILTIN_MODULES (Js.split_head "/" (name a)))
         globalActions).

Definition isTrustedAction (actionName : string) : M bool :=
  trustedActions <- listTrustedActions ;;
  ret (includes_str (map name trustedActions) actionName).

(** *** Loading an action *)

Record ActionDetails := {
  code : string;
  dirPath : string;
  lookups : list string;
  action : ActionDefinition
}.

Definition getActionDetails (actionName : string) : M ActionDetails :=
  action <- findAction actionName ;;
  code <- getActionScript action ;;
  let botFolder :=
    match location action with
    | global => "global"
    | local => "bots/" +:+ this_botId env
    end in
  let dirPath :=
    path_resolve env ("/data/" +:+ botFolder +:+ "/actions/" +:+ actionName +:+ ".js") in
  let lookups := getBaseLookupPaths env dirPath in
  ret {| code := code; dirPath := dirPath; lookups := lookups; action := action |}.

Definition prepareRequire (dirPath : string) (lookups : list string) : Require :=
  {| req_dirPath := dirPath; req_lookups := lookups |}.

(** [_validScripts] is a plain object used as a map: a key that it does
    not own is looked up on [Object.prototype], whose properties are all
    truthy. *)
Definition Object_prototype_keys : list string :=
  [ "constructor"; "__defineGetter__"; "__defineSetter__"; "hasOwnProperty";
    "__lookupGetter__"; "__lookupSetter__"; "isPrototypeOf";
    "propertyIsEnumerable"; "toString"; "valueOf"; "__proto__";
    "toLocaleString" ].

Definition validScripts_truthy (valid : gmap string bool) (actionName : string) : bool :=
  match valid !! actionName with
  | Some b => b
  | None => includes_str Object_prototype_keys actionName
  end.

(** The body of the [try] block of [checkActionRequires], for one required
    file; [recurse] is the recursive call. *)
Definition load_required (recurse : string -> M bool) (file parentScript : string)
    : M unit :=
  recurse file ;;;
  d <- getActionDetails file ;;
  emit (EvRequireFromString (code d) file parentScript) ;;;
  isEmpty <- await (requireFromString env (code d) file parentScript
                      (prepareRequire (dirPath d) (lookups d))) ;;
  if (isEmpty : bool) then
    emit (EvLogWarn ("Your required file (" +:+ file +:+ ") looks empty. Missing module.exports ? "))
  else ret tt.

(** The [for] loop of [checkActionRequires]; a [return false] in the
    [catch] block leaves the method. *)
Fixpoint check_files (recurse : string -> M bool) (actionName parentScript : string)
    (lookups : list string) (files : list string) : M bool :=
  match files with
  | [] =>
      modify (fun s => set_validScripts (<[actionName := true]> (_validScripts s)) s) ;;;
      ret true
  | file :: rest =>
      if prepareRequireTester env parentScript lookups file then
        check_files recurse actionName parentScript lookups rest
      else
        failed <- try_catch
                    (load_required recurse file parentScript ;;; ret false)
                    (fun err =>
                       emit (EvLogError ("There is an issue with required file " +:+ file
                                         +:+ ".js in action " +:+ actionName +:+ ".js") err) ;;;
                       ret true) ;;
        if (failed : bool) then ret false
        else check_files recurse actionName parentScript lookups rest
  end.

(** The method is recursive on the require graph, with nothing that
    decreases: the embedding takes a bound on the depth of the recursion
    and answers [OutOfFuel] when the bound is reached. *)
Fixpoint checkActionRequires (fuel : nat) (actionName : string) : M bool :=
  match fuel with
  | O => fun _ => OutOfFuel
  | S fuel' =>
      valid <- gets _validScripts ;;
      if validScripts_truthy valid actionName then ret true
      else
        d <- getActionDetails actionName ;;
        check_files (checkActionRequires fuel') actionName (dirPath d) (lookups d)
          (extractRequiredFiles env (code d))
  end.

Definition loadLocalAction (fuel : nat) (actionName : string)
    : M (string * Require * string) :=
  (if BP_EXPERIMENTAL_REQUIRE_BPFS env then
     checkActionRequires fuel actionName ;;; ret tt
   else ret tt) ;;;
  d <- getActionDetails actionName ;;
  ret (code d, prepareRequire (dirPath d) (lookups d), dirPath d).

(** *** Running a script *)

(** Runs [run] on the event object [ref] points to and stores what the
    script left of it; the value the script threw is thrown. *)
Definition run_on_event (ref : EventRef) (run : IO.IncomingEvent -> ScriptOutcome) : M unit :=
  evs <- gets events ;;
  let outcome := run (evs !!! ref) in
  modify (fun s => set_events (<[ref := event_after outcome]> (events s)) s) ;;;
  match raised outcome with
  | Some e => throw e
  | None => ret tt
  end.

Definition runWithoutVm (code : string) (args : ScriptArgs) (_require : Require) : M unit :=
  emit (EvRunWithoutVm code args _require) ;;;
  run_on_event (arg_event args) (Function_call env code args _require).

Definition runInVm (code dirPath : string) (args : ScriptArgs) (_require : Require) : M unit :=
  let vm :=
    {| wrapper := "none";
       sandbox := args;
       require_external := true;
       require_mock := _require;
       timeout := 5000 |} in
  emit (EvRunInVm vm code dirPath) ;;;
  run_on_event (arg_event args) (VmRunner_runInVm env vm code dirPath).

Definition await_createForAction : M unit :=
  match createForAction env with
  | Some e => throw e
  | None => ret tt
  end.

Definition runTrustedCode (fuel : nat) (actionName : string) (actionArgs : JsValue)
    (incomingEvent : EventRef) : M unit :=
  loaded <- loadLocalAction fuel actionName ;;
  let '(code, _require, _) := loaded in
  await_createForAction ;;;
  let args := {| arg_event := incomingEvent; arg_args := actionArgs |} in
  runWithoutVm code args _require.

Definition runLegacyAction (fuel : nat) (actionName : string) (actionArgs : JsValue)
    (incomingEvent : EventRef) : M unit :=
  loaded <- loadLocalAction fuel actionName ;;
  let '(code, _require, dirPath) := loaded in
  await_createForAction ;;;
  let args := {| arg_event := incomingEvent; arg_args := actionArgs |} in
  runInVm code dirPath args _require.

(** *** Remote delegation *)

Definition getWorkspaceIdForBot (botId : string) : M string :=
  memo <- gets _botsWorkspaceIdsCache ;;
  match memo !! botId with
  | Some workspaceId => ret workspaceId
  | None =>
      emit (EvGetBotWorkspaceId botId) ;;;
      workspaceId <- await (getBotWorkspaceId env botId) ;;
      modify (fun s => set_botsWorkspaceIdsCache
                         (<[botId := workspaceId]> (_botsWorkspaceIdsCache s)) s) ;;;
      ret workspaceId
  end.

Record RunActionProps := {
  actionName : string;
  actionServer : option ActionServer;
  incomingEvent : EventRef;
  actionArgs : JsValue
}.

(** [await axios(request)]: the call is recorded and the clock moves on by
    the time it took. *)
Definition await_axios (req : AxiosRequest) : M AxiosResponse :=
  emit (EvHttpPost req) ;;;
  modify (fun s => set_clock (clock s + (axios env req).1) s) ;;;
  await (axios env req).2.

(** The error of reading [.state] off a missing event in the response. *)
Definition TypeError_no_event : Thrown :=
  JsError "Cannot read property 'state' of undefined"
          (Error_stack env "Cannot read property 'state' of undefined").

(** Allocates a new event object and returns its reference. *)
Definition alloc_event (e : IO.IncomingEvent) : M EventRef :=
  evs <- gets events ;;
  modify (set_events (evs ++ [e])) ;;;
  ret (length evs).

(** The request of [runInActionServer]: [method: 'post'], [url:
    `${actionServer.baseUrl}/action/run`], [timeout: ms('5s')] and [data:
    { token, botId, ..._.omit(props, ['actionServer']) }]. *)
Definition action_run_request (props : RunActionProps) (actionServer : ActionServer)
    (incomingEvent : IO.IncomingEvent) (token : string) : AxiosRequest :=
  {| method := "post";
     url := baseUrl actionServer +:+ "/action/run";
     req_timeout := 5000;
     data_token := token;
     data_botId := IO.botId incomingEvent;
     data_actionName := actionName props;
     data_incomingEvent := incomingEvent;
     data_actionArgs := actionArgs props |}.

(** The fields of [taskInfo], completed by those of the final record. *)
Definition taskInfo (props : RunActionProps) (actionServer : ActionServer)
    (incomingEvent : IO.IncomingEvent) (startedAt endedAt : Z) (status : TaskStatus)
    (failureReason : option string) : Task :=
  {| eventId := IO.id incomingEvent;
     task_actionName := actionName props;
     task_actionArgs := actionArgs props;
     actionServerId := server_id actionServer;
     startedAt := startedAt;
     endedAt := endedAt;
     status := status;
     failureReason := failureReason |}.

Definition runInActionServer (props : RunActionProps) (actionServer : ActionServer)
    : M EventRef :=
  evs <- gets events ;;
  let incomingEvent := evs !!! incomingEvent props in
  let botId := IO.botId incomingEvent in
  workspaceId <- getWorkspaceIdForBot botId ;;
  token <- await (jsonwebtoken_sign env botId workspaceId) ;;
  startedAt <- Date_now ;;
  response <-
    try_catch
      (await_axios (action_run_request props actionServer incomingEvent token))
      (fun e =>
         isAxios <- read_property "isAxiosError" isAxiosError e ;;
         (if (isAxios : bool) then
            endedAt <- Date_now ;;
            code <- read_property "code" err_code e ;;
            emit (EvCreateTask
                    (taskInfo props actionServer incomingEvent startedAt endedAt failed
                       (Some ("axios:" +:+ code))))
          else ret tt) ;;;
         throw e) ;;
  let responseStatusCode := response_status response in
  endedAt <- Date_now ;;
  emit (EvCreateTask
          (taskInfo props actionServer incomingEvent startedAt endedAt completed None)) ;;;
  match response_incomingEvent response with
  | None => throw TypeError_no_event
  | Some responseIncomingEvent =>
      alloc_event (IO.set_temp "responseStatusCode" (JsNumber responseStatusCode)
                     responseIncomingEvent)
  end.

(** *** The execution router *)

(** [process.ASSERT_LICENSED()]. *)
Definition assert_licensed : M unit :=
  match ASSERT_LICENSED env with
  | Some e => throw e
  | None => ret tt
  end.

(** The [try] block of [runAction].  Its value is the final value of the
    local variable [incomingEvent], which the block rebinds after a remote
    run and which is only read by the closing [debug] call. *)
Definition runAction_try (fuel : nat) (props : RunActionProps) : M EventRef :=
  match actionServer props with
  | Some actionServer => runInActionServer props actionServer
  | None =>
      trusted <- isTrustedAction (actionName props) ;;
      (if (trusted : bool) then
         runTrustedCode fuel (actionName props) (actionArgs props) (incomingEvent props)
       else
         runLegacyAction fuel (actionName props) (actionArgs props) (incomingEvent props)) ;;;
      ret (incomingEvent props)
  end.

(** [runAction] is a [Promise<void>]: the local variable is dropped when
    the method returns.  The calls to [debug] have no effect.  In the
    [catch] block the caught value is logged first; then [err.message] and
    [err.stack] are read, in this order, to build the error that is
    thrown. *)
Definition runAction (fuel : nat) (props : RunActionProps) : M unit :=
  assert_licensed ;;;
  try_catch
    (runAction_try fuel props ;;; ret tt)
    (fun err =>
       emit (EvLogError ("An error occurred while executing the action " +:+ dquote
                         +:+ actionName props) err) ;;;
       message <- read_property "message" err_message err ;;
       stack <- read_property "stack" err_stack err ;;
       throw (ActionExecutionError message (actionName props) stack)).

(** *** Cache invalidation *)

Definition _clearCache (s : State) : State :=
  set_trace (trace s ++ [EvClearCache])
    (set_botsWorkspaceIdsCache ∅
       (set_validScripts ∅
          (set_localActionsCache None
             (set_globalActionsCache None
                (set_scriptsCache ∅ s))))).

End ScopedActionService.

(** ** Debounced invalidation *)

(** [_.debounce] is library code (lodash) and not part of the sources.
    Section 4.7 of the specification asks for a clear "triggered on the
    leading edge (first event fires immediately; subsequent events within
    the window are suppressed; the trailing event is dropped, not merely
    delayed)"; where these words leave the origin of the window open, the
    definitions follow lodash's algorithm for the options the service
    passes, [{ leading: true, trailing: false }] and no [maxWait]: the
    window is counted from the latest call, and the timer re-arms itself
    for as long as calls keep arriving. *)
Module Lodash.

Section Debounce.

Variable wait : Z.

(** Modelled from the spec: [shouldInvoke] of the missing [_.debounce];
    a call opens a window when there was no call before or when the last
    one is at least [wait] old (or the clock went back). *)
Definition shouldInvoke (d : Debounced) (time : Z) : bool :=
  match lastCallTime d with
  | None => true
  | Some l => (wait <=? time - l) || (time - l <? 0)
  end.

(** Modelled from the spec: [remainingWait] of the missing [_.debounce];
    what is left of the window counted from the last call. *)
Definition remainingWait (d : Debounced) (time : Z) : Z :=
  match lastCallTime d with
  | None => wait
  | Some l => wait - (time - l)
  end.

(** Modelled from the spec: the [setTimeout] callback of the missing
    [_.debounce], run at [time].  It ends the window when the last call is
    old enough, and with [trailing: false] nothing is invoked then ("the
    trailing event is dropped"); otherwise it re-arms the timer. *)
Definition timerExpired (d : Debounced) (time : Z) : Debounced :=
  if shouldInvoke d time then
    {| lastCallTime := lastCallTime d; timerId := None |}
  else
    {| lastCallTime := lastCallTime d; timerId := Some (time + remainingWait d time) |}.

(** Modelled from the spec: a call, at [time], of the function made by the
    missing [_.debounce].  The result says whether the wrapped function is
    invoked ("first event fires immediately; subsequent events within the
    window are suppressed") and gives the new closure state. *)
Definition debounced (d : Debounced) (time : Z) : bool * Debounced :=
  let isInvoking := shouldInvoke d time in
  match timerId d with
  | None =>
      (isInvoking, {| lastCallTime := Some time; timerId := Some (time + wait) |})
  | Some t => (false, {| lastCallTime := Some time; timerId := Some t |})
  end.

(** Modelled from the spec: the event loop, for the timer of the missing
    [_.debounce].  The pending timer fires at its deadline if that is not
    after [now]; timers run exactly on time and before an event that
    arrives at the same instant. *)
Definition fire_due (now : Z) (d : Debounced) : Debounced :=
  match timerId d with
  | Some deadline => if deadline <=? now then timerExpired d deadline else d
  | None => d
  end.

(** Modelled from the spec: every timer of the missing [_.debounce] that
    is due by [now] has fired; a timer re-arms at most once between two
    calls, see [run_timers_stable]. *)
Definition run_timers (now : Z) (d : Debounced) : Debounced :=
  fire_due now (fire_due now d).

End Debounce.

End Lodash.

(** Time passes until [t]: the clock moves and the timers due fire. *)
Definition advance_clock (t : Z) (s : State) : State :=
  set_clearDebounce (Lodash.run_timers DEBOUNCE_DELAY t (clearDebounce s)) (set_clock t s).

(** The listener [_listenForCacheInvalidation] registers on the
    [invalidation] events of the cache. *)
Definition _listenForCacheInvalidation (key : string) (s : State) : State :=
  if Js.includes "/actions" (Js.toLowerCase key) then
    let r := Lodash.debounced DEBOUNCE_DELAY (clearDebounce s) (clock s) in
    let s' := set_clearDebounce r.2 s in
    if r.1 then _clearCache s' else s'
  else s.

(** An invalidation event with key [key] is delivered at time [t]. *)
Definition invalidation (t : Z) (key : string) (s : State) : State :=
  _listenForCacheInvalidation key (advance_clock t s).

Definition invalidations (evs : list (Z * string)) (s : State) : State :=
  foldl (fun s ev => invalidation ev.1 ev.2 s) s evs.

Definition is_clear (ev : Effect) : bool :=
  match ev with EvClearCache => true | _ => false end.

Definition clears (s : State) : nat := length (List.filter is_clear (trace s)).

(** ** Vocabulary of the statements *)

(** The state a call ends in, when it ends. *)
Definition final_state {A} (o : Outcome A) : option State :=
  match o with
  | Ret _ s | Throw _ s => Some s
  | OutOfFuel => None
  end.

(** [extends P s s']: from [s] to [s'] the trace has only grown, by
    effects that satisfy [P]. *)
Definition extends (P : Effect -> Prop) (s s' : State) : Prop :=
  exists new, trace s' = trace s ++ new /\ Forall P new.

(** [emits P m]: whenever [m] ends, it has only added effects that
    satisfy [P] to the trace. *)
Definition emits {A} (P : Effect -> Prop) (m : M A) : Prop :=
  forall s s', final_state (m s) = Some s' -> extends P s s'.

(** [respects I m]: [m] maintains the property [I] of the state. *)
Definition respects {A} (I : State -> Prop) (m : M A) : Prop :=
  forall s s', I s -> final_state (m s) = Some s' -> I s'.

(** An action definition without its metadata. *)
Definition strip_metadata (a : ActionDefinition) : ActionDefinition :=
  {| name := name a; isRemote := isRemote a; location := location a;
     legacy := legacy a; metadata := None |}.

(** The definitions the files [files] of a scope give rise to, in order. *)
Definition definitions_of (loc : ActionLocation) (files : list string)
    : list ActionDefinition :=
  map (fun file => new_definition file loc) files.

(** A memoized catalog was computed from the listing of the store. *)
Definition cache_from_store (env : Env) (scope : GhostScope) (loc : ActionLocation)
    (cache : option (list ActionDefinition)) : Prop :=
  forall actions, cache = Some actions ->
    exists files,
      directoryListing env scope = Fulfilled files /\
      map strip_metadata actions = definitions_of loc (List.filter (enabled env) files).

Definition catalog_wf (env : Env) (s : State) : Prop :=
  cache_from_store env ghost_global global (_globalActionsCache s) /\
  cache_from_store env (ghost_forBot (this_botId env)) local (_localActionsCache s).

Definition is_run_without_vm (ev : Effect) : bool :=
  match ev with EvRunWithoutVm _ _ _ => true | _ => false end.

Definition is_run_in_vm (ev : Effect) : bool :=
  match ev with EvRunInVm _ _ _ => true | _ => false end.

Definition is_http_post (ev : Effect) : bool :=
  match ev with EvHttpPost _ => true | _ => false end.

(** The audit tasks created along a trace. *)
Definition tasks_of (tr : list Effect) : list Task :=
  omap (fun ev => match ev with EvCreateTask t => Some t | _ => None end) tr.

(** Effects of loading and checking scripts: listings, reads, trial
    requires and log lines. *)
Definition is_loading (ev : Effect) : bool :=
  match ev with
  | EvDirectoryListing _ | EvReadFile _ _ | EvRequireFromString _ _ _
  | EvLogError _ _ | EvLogWarn _ => true
  | _ => false
  end.

Definition is_run (ev : Effect) : bool := is_run_without_vm ev || is_run_in_vm ev.

(** The script executions and the HTTP requests along a trace. *)
Definition executions (tr : list Effect) : list Effect := List.filter is_run tr.

Definition posts (tr : list Effect) : list Effect := List.filter is_http_post tr.

Definition returns {A} (o : Outcome A) : Prop :=
  match o with Ret _ _ => True | _ => False end.

(** A request, if [ev] is one, goes to the [/action/run] endpoint of
    [server], for the action of [props], with the 5 s timeout. *)
Definition posts_to (server : ActionServer) (props : RunActionProps) (ev : Effect) : Prop :=
  match ev with
  | EvHttpPost req =>
      url req = baseUrl server +:+ "/action/run" /\
      data_actionName req = actionName props /\
      req_timeout req = 5000
  | _ => True
  end.

(** A sandbox run, if [ev] is one, has the 5000 ms timeout. *)
Definition vm_timeout_5000 (ev : Effect) : Prop :=
  match ev with
  | EvRunInVm vm _ _ => timeout vm = 5000
  | _ => True
  end.

(** The routing rule of [runAction] on the effects [new] of a call that
    started in [s]; [returned] says that the call returned normally. *)
Definition routed (env : Env) (fuel : nat) (props : RunActionProps) (s : State)
    (returned : Prop) (new : list Effect) : Prop :=
  match actionServer props with
  | Some server =>
      executions new = [] /\
      Forall (posts_to server props) new /\
      (returned -> exists req, posts new = [EvHttpPost req])
  | None =>
      posts new = [] /\
      match isTrustedAction env (actionName props) s with
      | Ret true s1 =>
          Forall (fun ev => is_run_in_vm ev = false) new /\
          (returned ->
           exists code req d s2,
             loadLocalAction env fuel (actionName props) s1 = Ret (code, req, d) s2 /\
             executions new
             = [EvRunWithoutVm code
                  {| arg_event := incomingEvent props; arg_args := actionArgs props |} req])
      | Ret false s1 =>
          Forall (fun ev => is_run_without_vm ev = false /\ vm_timeout_5000 ev) new /\
          (returned ->
           exists code req d s2 vm,
             loadLocalAction env fuel (actionName props) s1 = Ret (code, req, d) s2 /\
             executions new = [EvRunInVm vm code d] /\
             timeout vm = 5000 /\
             sandbox vm
             = {| arg_event := incomingEvent props; arg_args := actionArgs props |})
      | _ => executions new = []
      end
  end.

(** The five memoized components of the state. *)
Definition caches (s : State) :=
  (_globalActionsCache s, _localActionsCache s, _scriptsCache s, _validScripts s,
   _botsWorkspaceIdsCache s).

Definition cleared (s : State) : Prop :=
  caches s = (None, None, ∅, ∅, ∅).

(** The key of an invalidation event concerns actions. *)
Definition actions_key (key : string) : bool :=
  Js.includes "/actions" (Js.toLowerCase key).

(** The closure state of the debounced function between two events, at
    time [now]: a pending timer has its deadline in the future and at most
    [DEBOUNCE_DELAY] after the last call; without a timer the last call, if
    any, is at least [DEBOUNCE_DELAY] old. *)
Definition debounce_wf (d : Debounced) (now : Z) : Prop :=
  match lastCallTime d, timerId d with
  | None, None => True
  | Some l, None => l + DEBOUNCE_DELAY <= now
  | Some l, Some deadline => l <= now /\ now < deadline /\ deadline <= l + DEBOUNCE_DELAY
  | None, Some _ => False
  end.

(** The content-store effects of listing the catalog [actions]: a
    directory listing, or the read of the script of one of its actions. *)
Definition catalog_effect (env : Env) (actions : list ActionDefinition) (ev : Effect)
    : Prop :=
  match ev with
  | EvDirectoryListing _ => True
  | EvReadFile scope filename =>
      exists a, a ∈ actions /\ script_file env a = (scope, filename)
  | _ => False
  end.

(** The effects of a require check that never touches [file]: listings,
    reads of scripts of catalogued actions other than [file], and error
    log lines; in particular no trial require. *)
Definition untouched (env : Env) (actions : list ActionDefinition) (file : string)
    (ev : Effect) : Prop :=
  match ev with
  | EvDirectoryListing _ | EvLogError _ _ => True
  | EvReadFile scope filename =>
      exists a, a ∈ actions /\ name a <> file /\ script_file env a = (scope, filename)
  | _ => False
  end.

(** ** Concrete environments *)

Module Example.

(** A small world: the files of the two scopes of the content store, the
    requires of each script, the modules that resolve within the lookup
    paths, and the answer of the action server. *)
Record World := {
  global_files : list (string * string);
  bot_files : list (string * string);
  strict : bool;
  requires : list (string * list string);
  resolvable : list string;
  remote : Z * Settled AxiosResponse
}.

Definition files_of (w : World) (scope : GhostScope) : list (string * string) :=
  match scope with
  | ghost_global => global_files w
  | ghost_forBot _ => bot_files w
  end.

Definition read (fs : list (string * string)) (filename : string) : Settled string :=
  match List.find (fun kv => String.eqb kv.1 filename) fs with
  | Some kv => Fulfilled kv.2
  | None => Rejected (JsError ("ENOENT: " +:+ filename) "at readFileAsString")
  end.

Definition required_by (w : World) (code : string) : list string :=
  match List.find (fun kv => String.eqb kv.1 code) (requires w) with
  | Some kv => kv.2
  | None => []
  end.

(** Scripts of this world record their own text in [temp.ran]. *)
Definition run_script (code : string) (ev : IO.IncomingEvent) : ScriptOutcome :=
  {| event_after := IO.set_temp "ran" (JsString code) ev; raised := None |}.

Definition make_env (w : World) : Env :=
  {| this_botId := "bot1";
     directoryListing := fun scope => Fulfilled (map fst (files_of w scope));
     readFileAsString := fun scope filename => read (files_of w scope) filename;
     enabled := fun file => negb (Js.startsWith "." file);
     extractMetadata := fun script => {| meta_text := script |};
     extractRequiredFiles := required_by w;
     getBaseLookupPaths := fun dirPath => [dirPath];
     prepareRequireTester := fun _ _ file => includes_str (resolvable w) file;
     path_resolve := fun p => "/botpress" +:+ p;
     requireFromString := fun _ _ _ _ => Fulfilled false;
     BP_EXPERIMENTAL_REQUIRE_BPFS := strict w;
     ASSERT_LICENSED := None;
     createForAction := None;
     Function_call := fun code _ _ => run_script code;
     VmRunner_runInVm := fun _ code _ => run_script code;
     getBotWorkspaceId := fun _ => Fulfilled "default";
     jsonwebtoken_sign := fun botId workspace => Fulfilled ("jwt:" +:+ botId +:+ ":" +:+ workspace);
     axios := fun _ => remote w;
     Error_stack := fun message => "Error: " +:+ message |}.

Definition no_remote : Z * Settled AxiosResponse :=
  (0, Rejected (AxiosErr "connect ECONNREFUSED" "at TCPConnectWrap" "ECONNREFUSED")).

(** The event of the caller, at reference [0]. *)
Definition event0 : IO.IncomingEvent :=
  {| IO.id := "ev-1"; IO.botId := "bot1";
     IO.state := {| IO.user := ∅; IO.temp := ∅; IO.session := ∅ |} |}.

Definition start : State := new_ScopedActionService [event0] 0.

Definition run_props (actionName : string) (server : option ActionServer) : RunActionProps :=
  {| actionName := actionName; actionServer := server;
     incomingEvent := 0%nat; actionArgs := JsNull |}.

(** One global and one local action of the same name, and a disabled
    file. *)
Definition shadow_world : World :=
  {| global_files := [("builtin/say.js", "global say"); ("nlu/detect-intent.js", "global nlu")];
     bot_files := [("nlu/detect-intent.js", "local nlu"); (".hidden.js", "off");
                   ("greet.js", "local greet")];
     strict := false; requires := []; resolvable := []; remote := no_remote |}.

(** The name [nlu/detect-intent] is only borne by a local action. *)
Definition local_only_world : World :=
  {| global_files := [("builtin/say.js", "global say")];
     bot_files := [("nlu/detect-intent.js", "local nlu")];
     strict := false; requires := []; resolvable := []; remote := no_remote |}.

Definition server1 : ActionServer :=
  {| server_id := "s1"; baseUrl := "http://actions.example:4000" |}.

Definition with_remote (r : Z * Settled AxiosResponse) (w : World) : World :=
  {| global_files := global_files w; bot_files := bot_files w; strict := strict w;
     requires := requires w; resolvable := resolvable w; remote := r |}.

(** The event the action server sends back. *)
Definition remote_event : IO.IncomingEvent :=
  {| IO.id := "ev-1"; IO.botId := "bot1";
     IO.state := {| IO.user := ∅; IO.temp := {["answer" := JsNumber 42]};
                    IO.session := ∅ |} |}.

(** The action server answers 200 with an event, after 120 ms. *)
Definition answering_world : World :=
  with_remote
    (120, Fulfilled {| response_status := 200;
                       response_incomingEvent := Some remote_event |})
    shadow_world.

(** The action server answers 500, with no event in the body. *)
Definition failing_world : World :=
  with_remote
    (80, Fulfilled {| response_status := 500; response_incomingEvent := None |})
    shadow_world.

(** The request cannot be serialized: [axios] throws an error that is not
    an axios error. *)
Definition circular_world : World :=
  with_remote
    (0, Rejected (JsError "Converting circular structure to JSON" "at JSON.stringify"))
    shadow_world.

(** Strict-require mode, and a local action that requires a path outside
    the lookup roots, which names no action. *)
Definition escaping_world : World :=
  {| global_files := [];
     bot_files := [("steal.js", "require('../../../etc/hosts')")];
     strict := true;
     requires := [("require('../../../etc/hosts')", ["../../../etc/hosts"])];
     resolvable := [];
     remote := no_remote |}.

(** Strict-require mode, and a local action that requires itself. *)
Definition cyclic_world : World :=
  {| global_files := [];
     bot_files := [("loop.js", "require('loop')")];
     strict := true;
     requires := [("require('loop')", ["loop"])];
     resolvable := [];
     remote := no_remote |}.

(** Strict-require mode, and two local actions that require each other. *)
Definition mutual_world : World :=
  {| global_files := [];
     bot_files := [("ping.js", "require('pong')"); ("pong.js", "require('ping')")];
     strict := true;
     requires := [("require('pong')", ["pong"]); ("require('ping')", ["ping"])];
     resolvable := [];
     remote := no_remote |}.

(** A global and a local action of the same name, which is also the cache
    key of the local action [builtin/x]. *)
Definition poisoned_world : World :=
  {| global_files := [("builtin/x_true_local.js", "global script")];
     bot_files := [("builtin/x.js", "script of the local builtin/x");
                   ("builtin/x_true_local.js", "local script")];
     strict := false; requires := []; resolvable := []; remote := no_remote |}.

(** The environment [env], with a licence assertion that throws [e]. *)
Definition with_licence_error (e : Thrown) (env : Env) : Env :=
  {| this_botId := this_botId env;
     directoryListing := directoryListing env;
     readFileAsString := readFileAsString env;
     enabled := enabled env;
     extractMetadata := extractMetadata env;
     extractRequiredFiles := extractRequiredFiles env;
     getBaseLookupPaths := getBaseLookupPaths env;
     prepareRequireTester := prepareRequireTester env;
     path_resolve := path_resolve env;
     requireFromString := requireFromString env;
     BP_EXPERIMENTAL_REQUIRE_BPFS := BP_EXPERIMENTAL_REQUIRE_BPFS env;
     ASSERT_LICENSED := Some e;
     createForAction := createForAction env;
     Function_call := Function_call env;
     VmRunner_runInVm := VmRunner_runInVm env;
     getBotWorkspaceId := getBotWorkspaceId env;
     jsonwebtoken_sign := jsonwebtoken_sign env;
     axios := axios env;
     Error_stack := Error_stack env |}.

Definition licence_error : Thrown :=
  JsError "Botpress is not licensed" "at process.ASSERT_LICENSED".

Definition unlicensed_env : Env := with_licence_error licence_error (make_env shadow_world).

(** In [cyclic_world]: the definition of [loop], and the states in which
    the catalog, if listed, is the one of that world and neither the
    script cache nor the set of valid scripts has an entry for [loop]. *)
Definition loop_definition : ActionDefinition :=
  {| name := "loop"; isRemote := false; location := local; legacy := true;
     metadata := Some {| meta_text := "require('loop')" |} |}.

Definition loop_state (s : State) : Prop :=
  (_globalActionsCache s = None \/ _globalActionsCache s = Some []) /\
  (_localActionsCache s = None \/ _localActionsCache s = Some [loop_definition]) /\
  _scriptsCache s !! "loop" = None /\
  _validScripts s !! "loop" = None.

(** In [mutual_world]: the definitions of [ping] and [pong], and the
    states in which neither has an entry in the script cache or in the set
    of valid scripts. *)
Definition ping_definition : ActionDefinition :=
  {| name := "ping"; isRemote := false; location := local; legacy := true;
     metadata := Some {| meta_text := "require('pong')" |} |}.

Definition pong_definition : ActionDefinition :=
  {| name := "pong"; isRemote := false; location := local; legacy := true;
     metadata := Some {| meta_text := "require('ping')" |} |}.

Definition ping_pong_state (s : State) : Prop :=
  (_globalActionsCache s = None \/ _globalActionsCache s = Some []) /\
  (_localActionsCache s = None \/
   _localActionsCache s = Some [ping_definition; pong_definition]) /\
  _scriptsCache s !! "ping" = None /\
  _scriptsCache s !! "pong" = None /\
  _validScripts s !! "ping" = None /\
  _validScripts s !! "pong" = None.

End Example.

(** ** Further vocabulary *)

(** Strict-require mode, and a local action whose only require resolves
    within the lookup paths. *)
Definition tidy_world : Example.World :=
  {| Example.global_files := [];
     Example.bot_files := [("main.js", "require('lodash')")];
     Example.strict := true;
     Example.requires := [("require('lodash')", ["lodash"])];
     Example.resolvable := ["lodash"];
     Example.remote := Example.no_remote |}.

(** The environment [env], with a workspace service that rejects every
    lookup with [e]. *)
Definition with_workspace_error (e : Thrown) (env : Env) : Env :=
  {| this_botId := this_botId env;
     directoryListing := directoryListing env;
     readFileAsString := readFileAsString env;
     enabled := enabled env;
     extractMetadata := extractMetadata env;
     extractRequiredFiles := extractRequiredFiles env;
     getBaseLookupPaths := getBaseLookupPaths env;
     prepareRequireTester := prepareRequireTester env;
     path_resolve := path_resolve env;
     requireFromString := requireFromString env;
     BP_EXPERIMENTAL_REQUIRE_BPFS := BP_EXPERIMENTAL_REQUIRE_BPFS env;
     ASSERT_LICENSED := ASSERT_LICENSED env;
     createForAction := createForAction env;
     Function_call := Function_call env;
     VmRunner_runInVm := VmRunner_runInVm env;
     getBotWorkspaceId := fun _ => Rejected e;
     jsonwebtoken_sign := jsonwebtoken_sign env;
     axios := axios env;
     Error_stack := Error_stack env |}.

Definition workspace_error : Thrown :=
  JsError "Bot bot1 has no workspace" "at WorkspaceService.getBotWorkspaceId".

(** A burst of invalidation events for action files after a call at time
    [last]: each event comes less than [DEBOUNCE_DELAY] after the one
    before. *)
Fixpoint burst (last : Z) (evs : list (Z * string)) : Prop :=
  match evs with
  | [] => True
  | ev :: rest =>
      last <= ev.1 /\ ev.1 < last + DEBOUNCE_DELAY /\ actions_key ev.2 = true /\
      burst ev.1 rest
  end.

(** Invalidation events for action files that are spaced out: each event
    comes at least [DEBOUNCE_DELAY] after the one before. *)
Fixpoint spaced (last : Z) (evs : list (Z * string)) : Prop :=
  match evs with
  | [] => True
  | ev :: rest =>
      last + DEBOUNCE_DELAY <= ev.1 /\ actions_key ev.2 = true /\ spaced ev.1 rest
  end.

(** Every key of the script cache is the composite key of some action
    definition. *)
Definition composite_keys (s : State) : Prop :=
  forall k, is_Some (_scriptsCache s !! k) -> exists a, k = script_key a.

(** The environment [env], with scripts that, run outside the sandbox,
    leave the event as it is and throw [x]. *)
Definition with_throwing_script (x : Exception) (env : Env) : Env :=
  {| this_botId := this_botId env;
     directoryListing := directoryListing env;
     readFileAsString := readFileAsString env;
     enabled := enabled env;
     extractMetadata := extractMetadata env;
     extractRequiredFiles := extractRequiredFiles env;
     getBaseLookupPaths := getBaseLookupPaths env;
     prepareRequireTester := prepareRequireTester env;
     path_resolve := path_resolve env;
     requireFromString := requireFromString env;
     BP_EXPERIMENTAL_REQUIRE_BPFS := BP_EXPERIMENTAL_REQUIRE_BPFS env;
     ASSERT_LICENSED := ASSERT_LICENSED env;
     createForAction := createForAction env;
     Function_call := fun _ _ _ ev => {| event_after := ev; raised := Some x |};
     VmRunner_runInVm := VmRunner_runInVm env;
     getBotWorkspaceId := getBotWorkspaceId env;
     jsonwebtoken_sign := jsonwebtoken_sign env;
     axios := axios env;
     Error_stack := Error_stack env |}.

(** The trusted scripts of [shadow_world] execute [throw null]. *)
Definition null_throwing_env : Env :=
  with_throwing_script (NullishValue js_null) (Example.make_env Example.shadow_world).

(** * Properties *)

(** ** The monad *)

Lemma extends_refl P s : extends P s s.
Proof. exists []. split; [by rewrite app_nil_r | constructor]. Qed.

Lemma extends_trans P s1 s2 s3 :
  extends P s1 s2 -> extends P s2 s3 -> extends P s1 s3.
Proof.
  intros (n1 & E1 & F1) (n2 & E2 & F2). exists (n1 ++ n2). split.
  - by rewrite E2, E1, app_assoc.
  - by apply Forall_app.
Qed.

Lemma extends_weaken (P Q : Effect -> Prop) s s' :
  (forall ev, P ev -> Q ev) -> extends P s s' -> extends Q s s'.
Proof.
  intros HPQ (n & E & F). exists n. split; [done|].
  eapply Forall_impl; eauto.
Qed.

Lemma emits_weaken {A} (P Q : Effect -> Prop) (m : M A) :
  (forall ev, P ev -> Q ev) -> emits P m -> emits Q m.
Proof. intros HPQ Hm s s' Hf. eapply extends_weaken; eauto. Qed.

Lemma emits_ret {A} P (a : A) : emits P (ret a).
Proof. intros s s' [= <-]. apply extends_refl. Qed.

Lemma emits_throw {A} P e : emits P (@throw A e).
Proof. intros s s' [= <-]. apply extends_refl. Qed.

Lemma emits_gets {A} P (f : State -> A) : emits P (gets f).
Proof. intros s s' [= <-]. apply extends_refl. Qed.

Lemma emits_await {A} P (p : Settled A) : emits P (await p).
Proof. destruct p; [apply emits_ret | apply emits_throw]. Qed.

Lemma emits_modify P f :
  (forall s, trace (f s) = trace s) -> emits P (modify f).
Proof.
  intros Hf s s' [= <-]. exists []. split; [by rewrite Hf, app_nil_r | constructor].
Qed.

Lemma emits_emit (P : Effect -> Prop) ev : P ev -> emits P (emit ev).
Proof.
  intros HP s s' [= <-]. exists [ev]. split; [done | by constructor].
Qed.

Lemma emits_bind {A B} P (m : M A) (k : A -> M B) :
  emits P m -> (forall a, emits P (k a)) -> emits P (bind m k).
Proof.
  intros Hm Hk s s' Hf. unfold bind in Hf.
  destruct (m s) as [a s1 | e s1 |] eqn:E; simpl in Hf.
  - eapply extends_trans; [eapply Hm; by rewrite E | eapply Hk; eauto].
  - injection Hf as <-. eapply Hm. by rewrite E.
  - done.
Qed.

Lemma emits_try_catch {A} P (m : M A) (h : Exception -> M A) :
  emits P m -> (forall e, emits P (h e)) -> emits P (try_catch m h).
Proof.
  intros Hm Hh s s' Hf. unfold try_catch in Hf.
  destruct (m s) as [a s1 | e s1 |] eqn:E; simpl in Hf.
  - injection Hf as <-. eapply Hm. by rewrite E.
  - eapply extends_trans; [eapply Hm; by rewrite E | eapply Hh; eauto].
  - done.
Qed.

(** Unfolds the monadic operations of a method body. *)
Ltac run :=
  unfold bind, try_catch, ret, throw, gets, modify, emit, await, Date_now in *;
  simpl in *.

(** ** The catalog *)

Section Catalog.

Context (env : Env).

Lemma strip_with_metadata file loc script :
  strip_metadata (with_metadata env (new_definition file loc) script)
  = new_definition file loc.
Proof. reflexivity. Qed.

Lemma mapped_result_identity cache0 loc file a :
  mapped_result (start_getActionDefinition env cache0 loc file) = Fulfilled a ->
  strip_metadata a = new_definition file loc.
Proof.
  unfold start_getActionDefinition.
  destruct (cache0 !! _); simpl.
  - intros [= <-]. apply strip_with_metadata.
  - destruct (readFileAsString _ _ _); simpl; [|done].
    intros [= <-]. apply strip_with_metadata.
Qed.

(** [Promise.map] keeps the order of the files and drops none. *)
Lemma Promise_map_keeps_order cache0 loc files defs :
  all_settled (map mapped_result (map (start_getActionDefinition env cache0 loc) files))
  = Fulfilled defs ->
  map strip_metadata defs = definitions_of loc files.
Proof.
  revert defs. induction files as [|file files IH]; intros defs; simpl.
  - by intros [= <-].
  - destruct (mapped_result _) as [a|e] eqn:Ea; [|done].
    destruct (all_settled _) as [l'|e] eqn:El; [|done].
    intros [= <-]. simpl. f_equal.
    + eapply mapped_result_identity; eauto.
    + by apply IH.
Qed.

(** For a single file [Promise.map] is [getActionDefinition]. *)
Lemma Promise_map_single file loc s :
  Promise_map_getActionDefinition env [file] loc s
  = bind (getActionDefinition env file loc true) (fun a => ret [a]) s.
Proof.
  unfold Promise_map_getActionDefinition, getActionDefinition, getActionScript,
    start_getActionDefinition.
  run. destruct (_scriptsCache s !! _) eqn:E; simpl.
  - destruct s; simpl. by rewrite app_nil_r.
  - destruct (readFileAsString _ _ _); simpl; reflexivity.
Qed.

Lemma Promise_map_caches files loc s :
  match Promise_map_getActionDefinition env files loc s with
  | Ret _ s' | Throw _ s' =>
      _globalActionsCache s' = _globalActionsCache s /\
      _localActionsCache s' = _localActionsCache s
  | OutOfFuel => False
  end.
Proof.
  unfold Promise_map_getActionDefinition. run.
  destruct (all_settled _); simpl; done.
Qed.

Lemma listGlobalActions_spec s :
  match listGlobalActions env s with
  | Ret g s' =>
      _globalActionsCache s' = Some g /\
      _localActionsCache s' = _localActionsCache s /\
      match _globalActionsCache s with
      | Some cached => g = cached /\ s' = s
      | None =>
          exists files,
            directoryListing env ghost_global = Fulfilled files /\
            map strip_metadata g = definitions_of global (List.filter (enabled env) files)
      end
  | Throw _ s' =>
      _globalActionsCache s = None /\ _globalActionsCache s' = None /\
      _localActionsCache s' = _localActionsCache s
  | OutOfFuel => False
  end.
Proof.
  unfold listGlobalActions. run.
  destruct (_globalActionsCache s) as [cached|] eqn:Ec; simpl.
  { by rewrite Ec. }
  destruct (directoryListing env ghost_global) as [files|e] eqn:El; simpl.
  2:{ by rewrite Ec. }
  pose proof (Promise_map_caches (List.filter (enabled env) files) global
                (set_trace (trace s ++ [EvDirectoryListing ghost_global]) s)) as Hc.
  unfold Promise_map_getActionDefinition in *. run.
  destruct (all_settled _) as [defs|e] eqn:Ed; simpl in *.
  - split; [done|]. split; [done|]. exists files. split; [done|].
    by eapply Promise_map_keeps_order.
  - by rewrite Ec.
Qed.

Lemma listLocalActions_spec s :
  match listLocalActions env s with
  | Ret l s' =>
      _localActionsCache s' = Some l /\
      _globalActionsCache s' = _globalActionsCache s /\
      match _localActionsCache s with
      | Some cached => l = cached /\ s' = s
      | None =>
          exists files,
            directoryListing env (ghost_forBot (this_botId env)) = Fulfilled files /\
            map strip_metadata l = definitions_of local (List.filter (enabled env) files)
      end
  | Throw _ s' =>
      _localActionsCache s = None /\ _localActionsCache s' = None /\
      _globalActionsCache s' = _globalActionsCache s
  | OutOfFuel => False
  end.
Proof.
  unfold listLocalActions. run.
  destruct (_localActionsCache s) as [cached|] eqn:Ec; simpl.
  { by rewrite Ec. }
  destruct (directoryListing env (ghost_forBot (this_botId env))) as [files|e] eqn:El; simpl.
  2:{ by rewrite Ec. }
  unfold Promise_map_getActionDefinition in *. run.
  destruct (all_settled _) as [defs|e] eqn:Ed; simpl in *.
  - split; [done|]. split; [done|]. exists files. split; [done|].
    by eapply Promise_map_keeps_order.
  - by rewrite Ec.
Qed.

End Catalog.

Lemma definitions_of_elem loc files file :
  file ∈ files -> new_definition file loc ∈ definitions_of loc files.
Proof. intros H. unfold definitions_of. apply list_elem_of_fmap. eauto. Qed.

Lemma strip_metadata_elem (a : ActionDefinition) (l : list ActionDefinition) :
  a ∈ map strip_metadata l ->
  exists b, b ∈ l /\ name b = name a /\ location b = location a /\ legacy b = legacy a.
Proof.
  intros H. apply list_elem_of_fmap in H as (b & -> & Hb).
  exists b. by repeat split.
Qed.

(** [listActions] on a state whose memoized catalogs come from the store:
    the two groups, in the order of the two listings. *)
Lemma listActions_spec env s :
  catalog_wf env s ->
  match listActions env s with
  | Ret r s' =>
      exists g l gfiles lfiles,
        r = g ++ l /\
        directoryListing env ghost_global = Fulfilled gfiles /\
        directoryListing env (ghost_forBot (this_botId env)) = Fulfilled lfiles /\
        map strip_metadata g = definitions_of global (List.filter (enabled env) gfiles) /\
        map strip_metadata l = definitions_of local (List.filter (enabled env) lfiles) /\
        catalog_wf env s'
  | Throw _ s' => catalog_wf env s'
  | OutOfFuel => False
  end.
Proof.
  intros [Hg Hl]. unfold listActions, bind.
  pose proof (listGlobalActions_spec env s) as HG.
  destruct (listGlobalActions env s) as [g s1 | e s1 |]; [| |done].
  2:{ destruct HG as (_ & E1 & E2). split.
      - intros ? ?; congruence.
      - by rewrite E2. }
  destruct HG as (Eg1 & El1 & HG).
  assert (exists gfiles,
             directoryListing env ghost_global = Fulfilled gfiles /\
             map strip_metadata g
             = definitions_of global (List.filter (enabled env) gfiles)) as (gfiles & Dg & Mg).
  { destruct (_globalActionsCache s) as [cached|] eqn:Ec; [|done].
    destruct HG as [-> _]. by apply Hg. }
  pose proof (listLocalActions_spec env s1) as HL.
  destruct (listLocalActions env s1) as [l s2 | e s2 |]; [| |done].
  2:{ destruct HL as (_ & E1 & E2). split.
      - rewrite E2, Eg1. intros ? [= <-]. eauto.
      - intros ? ?; congruence. }
  destruct HL as (El2 & Eg2 & HL).
  assert (exists lfiles,
             directoryListing env (ghost_forBot (this_botId env)) = Fulfilled lfiles /\
             map strip_metadata l
             = definitions_of local (List.filter (enabled env) lfiles)) as (lfiles & Dl & Ml).
  { destruct (_localActionsCache s1) as [cached|] eqn:Ec; [|done].
    destruct HL as [-> _]. apply Hl. by rewrite <- El1. }
  simpl. exists g, l, gfiles, lfiles.
  split; [done|]. split; [done|]. split; [done|]. split; [done|]. split; [done|].
  split.
  - rewrite Eg2, Eg1. intros ? [= <-]. eauto.
  - rewrite El2. intros ? [= <-]. eauto.
Qed.

(** C8: [listActions] returns the global actions followed by the local
    actions; each group lists the enabled files of its scope in the order
    in which the content store enumerates them, one definition per file, so
    that a name present in both scopes appears in both groups. *)
Theorem listActions_global_then_local env s :
  catalog_wf env s ->
  match listActions env s with
  | Ret r s' =>
      exists g l gfiles lfiles,
        r = g ++ l /\
        directoryListing env ghost_global = Fulfilled gfiles /\
        directoryListing env (ghost_forBot (this_botId env)) = Fulfilled lfiles /\
        map strip_metadata g = definitions_of global (List.filter (enabled env) gfiles) /\
        map strip_metadata l = definitions_of local (List.filter (enabled env) lfiles) /\
        length r = (length (List.filter (enabled env) gfiles)
                    + length (List.filter (enabled env) lfiles))%nat /\
        (forall gf lf,
            gf ∈ List.filter (enabled env) gfiles ->
            lf ∈ List.filter (enabled env) lfiles ->
            Js.replace_ext gf = Js.replace_ext lf ->
            exists a b, a ∈ g /\ b ∈ l /\ name a = Js.replace_ext gf /\
                        name b = Js.replace_ext gf /\
                        location a = global /\ location b = local) /\
        catalog_wf env s'
  | Throw _ s' => catalog_wf env s'
  | OutOfFuel => False
  end.
Proof.
  intros Hwf. pose proof (listActions_spec env s Hwf) as H.
  destruct (listActions env s) as [r s' | e s' |]; [|done|done].
  destruct H as (g & l & gfiles & lfiles & -> & Dg & Dl & Mg & Ml & Hwf').
  exists g, l, gfiles, lfiles.
  split; [done|]. split; [done|]. split; [done|]. split; [done|]. split; [done|].
  split; [|split; [|done]].
  - rewrite length_app.
    rewrite <- (length_map strip_metadata g), <- (length_map strip_metadata l).
    rewrite Mg, Ml. unfold definitions_of. by rewrite !length_map.
  - intros gf lf Hgf Hlf Heq.
    apply (definitions_of_elem global) in Hgf. rewrite <- Mg in Hgf.
    apply (definitions_of_elem local) in Hlf. rewrite <- Ml in Hlf.
    apply strip_metadata_elem in Hgf as (a & Ha & Na & La & _).
    apply strip_metadata_elem in Hlf as (b & Hb & Nb & Lb & _).
    exists a, b. simpl in *. repeat split; try done. by rewrite Nb, Heq.
Qed.

(** ** The trust classifier *)

Lemma includes_str_In l x : includes_str l x = true <-> In x l.
Proof.
  unfold includes_str. rewrite existsb_exists. split.
  - intros (y & Hy & E). apply String.eqb_eq in E. by subst.
  - intros H. exists x. split; [done | apply String.eqb_refl].
Qed.

Lemma trusted_names_spec (g : list ActionDefinition) actionName :
  includes_str
    (map name
       (List.filter
          (fun a => includes_str BUILTIN_MODULES (Js.split_head "/" (name a))) g))
    actionName = true
  <-> In (Js.split_head "/" actionName) BUILTIN_MODULES /\
      exists a, a ∈ g /\ name a = actionName.
Proof.
  rewrite includes_str_In, in_map_iff. split.
  - intros (a & Na & Ha). apply filter_In in Ha as [Ha Hb].
    apply includes_str_In in Hb. subst. split; [done|].
    exists a. split; [by apply list_elem_of_In | done].
  - intros (Hb & a & Ha & Na). exists a. split; [done|].
    apply filter_In. split; [by apply list_elem_of_In|].
    apply includes_str_In. by rewrite Na.
Qed.

(** C6: [isTrustedAction] answers exactly when the global catalog can be
    listed, and it answers [true] if and only if the text of the name
    before the first [/] is in the allow-list [BUILTIN_MODULES] and the
    global catalog has an action of that name.  The local catalog plays no
    role: a name that only a local action bears is not trusted. *)
Theorem isTrustedAction_iff env s actionName :
  match listGlobalActions env s with
  | Ret g s' =>
      exists b,
        isTrustedAction env actionName s = Ret b s' /\
        (b = true <->
         In (Js.split_head "/" actionName) BUILTIN_MODULES /\
         exists a, a ∈ g /\ name a = actionName) /\
        (forall l s'',
            listLocalActions env s' = Ret l s'' ->
            (exists a, a ∈ l /\ name a = actionName) ->
            (forall a, a ∈ g -> name a <> actionName) ->
            b = false)
  | Throw e s' => isTrustedAction env actionName s = Throw e s'
  | OutOfFuel => False
  end.
Proof.
  pose proof (listGlobalActions_spec env s) as HG.
  unfold isTrustedAction, listTrustedActions, bind, ret.
  destruct (listGlobalActions env s) as [g s' | e s' |]; [|done|done].
  eexists. split; [reflexivity|]. split.
  - apply trusted_names_spec.
  - intros l s'' _ _ Hno.
    destruct (includes_str _ actionName) eqn:E; [|done].
    apply trusted_names_spec in E as (_ & a & Ha & Na).
    by destruct (Hno a Ha).
Qed.

(** ** What loading an action adds to the trace *)

Create HintDb emits.

#[local] Hint Resolve emits_ret emits_throw emits_gets emits_await : emits.

(** Splits a method body along its binds; a call to a method whose lemma
    is in the hint database is closed with it. *)
Ltac emits_body :=
  repeat first
    [ solve [eauto with emits]
    | apply emits_bind; [|intros ?]
    | apply emits_try_catch; [|intros ?]
    | apply emits_modify; [by intros []]
    | apply emits_emit; [done]
    | match goal with
      | |- emits _ (if ?b then _ else _) => destruct b
      | |- emits _ (match ?x with _ => _ end) => destruct x
      end ].

Lemma emits_getActionScript env a : emits is_loading (getActionScript env a).
Proof.
  unfold getActionScript. emits_body.
Qed.
#[local] Hint Resolve emits_getActionScript : emits.

Lemma Forall_reads env cache0 loc files :
  Forall is_loading
    (List.concat (map mapped_reads (map (start_getActionDefinition env cache0 loc) files))).
Proof.
  induction files as [|file files IH]; simpl; [constructor|].
  apply Forall_app. split; [|done].
  unfold start_getActionDefinition.
  destruct (cache0 !! _); simpl; [constructor|].
  destruct (readFileAsString _ _ _); simpl; by repeat constructor.
Qed.

Lemma emits_Promise_map env files loc :
  emits is_loading (Promise_map_getActionDefinition env files loc).
Proof.
  unfold Promise_map_getActionDefinition.
  apply emits_bind; [apply emits_gets | intros cache0].
  apply emits_bind; [|intros _; emits_body].
  intros s s' [= <-]. eexists. split; [reflexivity | apply Forall_reads].
Qed.
#[local] Hint Resolve emits_Promise_map : emits.

Lemma emits_listGlobalActions env : emits is_loading (listGlobalActions env).
Proof.
  unfold listGlobalActions. emits_body.
Qed.
#[local] Hint Resolve emits_listGlobalActions : emits.

Lemma emits_listLocalActions env : emits is_loading (listLocalActions env).
Proof.
  unfold listLocalActions. emits_body.
Qed.
#[local] Hint Resolve emits_listLocalActions : emits.

Lemma emits_listActions env : emits is_loading (listActions env).
Proof. unfold listActions. emits_body. Qed.
#[local] Hint Resolve emits_listActions : emits.

Lemma emits_isTrustedAction env actionName :
  emits is_loading (isTrustedAction env actionName).
Proof. unfold isTrustedAction, listTrustedActions. emits_body. Qed.
#[local] Hint Resolve emits_isTrustedAction : emits.

Lemma emits_findAction env actionName : emits is_loading (findAction env actionName).
Proof.
  unfold findAction. emits_body.
Qed.
#[local] Hint Resolve emits_findAction : emits.

Lemma emits_getActionDetails env actionName :
  emits is_loading (getActionDetails env actionName).
Proof. unfold getActionDetails. emits_body. Qed.
#[local] Hint Resolve emits_getActionDetails : emits.

Lemma emits_load_required env recurse file parentScript :
  (forall f, emits is_loading (recurse f)) ->
  emits is_loading (load_required env recurse file parentScript).
Proof.
  intros Hr. unfold load_required. emits_body.
Qed.

Lemma emits_check_files env recurse actionName parentScript lookups files :
  (forall f, emits is_loading (recurse f)) ->
  emits is_loading (check_files env recurse actionName parentScript lookups files).
Proof.
  intros Hr. induction files as [|file rest IH]; simpl.
  - emits_body.
  - pose proof (emits_load_required env recurse file parentScript Hr).
    emits_body.
Qed.

Lemma emits_checkActionRequires env fuel actionName :
  emits is_loading (checkActionRequires env fuel actionName).
Proof.
  revert actionName. induction fuel as [|fuel IH]; intros actionName; simpl.
  - by intros s s'.
  - pose proof (fun p l fs => emits_check_files env _ actionName p l fs IH).
    emits_body.
Qed.
#[local] Hint Resolve emits_checkActionRequires : emits.

Lemma emits_loadLocalAction env fuel actionName :
  emits is_loading (loadLocalAction env fuel actionName).
Proof.
  unfold loadLocalAction. emits_body.
Qed.
#[local] Hint Resolve emits_loadLocalAction : emits.

(** ** Remote delegation *)

Lemma tasks_of_app tr1 tr2 : tasks_of (tr1 ++ tr2) = tasks_of tr1 ++ tasks_of tr2.
Proof. unfold tasks_of. apply omap_app. Qed.

Lemma posts_app tr1 tr2 : posts (tr1 ++ tr2) = posts tr1 ++ posts tr2.
Proof. unfold posts. apply List.filter_app. Qed.

Lemma executions_app tr1 tr2 :
  executions (tr1 ++ tr2) = executions tr1 ++ executions tr2.
Proof. unfold executions. apply List.filter_app. Qed.

Lemma getWorkspaceIdForBot_spec env botId s :
  match getWorkspaceIdForBot env botId s with
  | Ret _ s' | Throw _ s' =>
      events s' = events s /\ clock s' = clock s /\
      (trace s' = trace s \/ trace s' = trace s ++ [EvGetBotWorkspaceId botId])
  | OutOfFuel => False
  end.
Proof.
  unfold getWorkspaceIdForBot. run.
  destruct (_botsWorkspaceIdsCache s !! botId); simpl; [auto|].
  destruct (getBotWorkspaceId env botId); simpl; auto.
Qed.

(** C4, as amended: an attempt that reaches the HTTP request posts it
    once; a response, whatever its status code, adds one task with status
    [completed]; a rejection with an error that has [isAxiosError] adds one
    task with status [failed] and the reason ["axios:" + code], and the
    error is rethrown; a rejection with any other error is rethrown and no
    task is created. *)
Theorem runInActionServer_audit env props server s workspaceId s1 token :
  getWorkspaceIdForBot env (IO.botId (events s !!! incomingEvent props)) s
  = Ret workspaceId s1 ->
  jsonwebtoken_sign env (IO.botId (events s !!! incomingEvent props)) workspaceId
  = Fulfilled token ->
  exists s',
    final_state (runInActionServer env props server s) = Some s' /\
    posts (trace s')
    = posts (trace s)
      ++ [EvHttpPost (action_run_request props server (events s !!! incomingEvent props) token)] /\
    match (axios env (action_run_request props server
                        (events s !!! incomingEvent props) token)).2 with
    | Fulfilled response =>
        exists t,
          tasks_of (trace s') = tasks_of (trace s) ++ [t] /\
          status t = completed /\ failureReason t = None /\
          task_actionName t = actionName props /\
          actionServerId t = server_id server /\
          eventId t = IO.id (events s !!! incomingEvent props)
    | Rejected e =>
        runInActionServer env props server s = Throw e s' /\
        if isAxiosError e then
          exists t,
            tasks_of (trace s') = tasks_of (trace s) ++ [t] /\
            status t = failed /\
            failureReason t = Some ("axios:" +:+ err_code e) /\
            task_actionName t = actionName props /\
            actionServerId t = server_id server /\
            eventId t = IO.id (events s !!! incomingEvent props)
        else tasks_of (trace s') = tasks_of (trace s)
    end.
Proof.
  intros Hws Hsign.
  pose proof (getWorkspaceIdForBot_spec env
                (IO.botId (events s !!! incomingEvent props)) s) as Hspec.
  rewrite Hws in Hspec. destruct Hspec as (Eev & Eclk & Etr).
  assert (tasks_of (trace s1) = tasks_of (trace s)) as Etasks.
  { destruct Etr as [-> | ->]; [done|]. rewrite tasks_of_app. simpl. apply app_nil_r. }
  assert (posts (trace s1) = posts (trace s)) as Eposts.
  { destruct Etr as [-> | ->]; [done|]. rewrite posts_app. simpl. apply app_nil_r. }
  unfold runInActionServer, await_axios, alloc_event. run.
  rewrite Hws. simpl. rewrite Hsign. simpl.
  set (request := action_run_request props server (events s !!! incomingEvent props) token).
  destruct (axios env request) as [latency [response|e]]; simpl.
  - destruct (response_incomingEvent response) as [ev'|]; simpl;
      (eexists; split; [reflexivity|]);
      cbn [trace set_trace set_clock set_events];
      rewrite !posts_app, !tasks_of_app, Eposts, Etasks, <- !app_assoc;
      (split; [reflexivity|]); eexists; (split; [reflexivity|]); done.
  - destruct e as [m st | m st c | m a st]; simpl;
      (eexists; split; [reflexivity|]);
      cbn [trace set_trace set_clock set_events];
      rewrite ?posts_app, ?tasks_of_app, Eposts, ?Etasks, <- ?app_assoc;
      (split; [reflexivity|]); (split; [reflexivity|]).
    + apply app_nil_r.
    + eexists. split; [reflexivity|]. done.
    + apply app_nil_r.
Qed.

(** ** The execution router *)

Lemma loading_not_run l : Forall is_loading l -> executions l = [] /\ posts l = [].
Proof.
  induction 1 as [|ev l Hev _ [IH1 IH2]]; [done|].
  unfold executions, posts in *. simpl. rewrite IH1, IH2.
  by destruct ev.
Qed.

Lemma run_on_event_trace ref run s :
  match run_on_event ref run s with
  | Ret _ s' | Throw _ s' => trace s' = trace s
  | OutOfFuel => False
  end.
Proof. unfold run_on_event. run. by destruct (raised _). Qed.

Lemma runWithoutVm_trace env code args req s :
  match runWithoutVm env code args req s with
  | Ret _ s' | Throw _ s' => trace s' = trace s ++ [EvRunWithoutVm code args req]
  | OutOfFuel => False
  end.
Proof.
  unfold runWithoutVm, bind, emit, modify.
  match goal with |- context [run_on_event ?r ?f ?st] =>
    pose proof (run_on_event_trace r f st) as H;
    destruct (run_on_event r f st) end; done.
Qed.

Lemma runInVm_trace env code dirPath args req s :
  match runInVm env code dirPath args req s with
  | Ret _ s' | Throw _ s' =>
      exists vm, trace s' = trace s ++ [EvRunInVm vm code dirPath] /\
                 timeout vm = 5000 /\ sandbox vm = args /\ require_mock vm = req
  | OutOfFuel => False
  end.
Proof.
  unfold runInVm, bind, emit, modify.
  match goal with |- context [run_on_event ?r ?f ?st] =>
    pose proof (run_on_event_trace r f st) as H;
    destruct (run_on_event r f st) end; try done;
    (eexists; split; [exact H | done]).
Qed.

Lemma runTrustedCode_trace env fuel actionName actionArgs ref s s' :
  final_state (runTrustedCode env fuel actionName actionArgs ref s) = Some s' ->
  exists pre,
    Forall is_loading pre /\
    ((trace s' = trace s ++ pre /\
      ~ returns (runTrustedCode env fuel actionName actionArgs ref s)) \/
     (exists code req d s1,
         loadLocalAction env fuel actionName s = Ret (code, req, d) s1 /\
         trace s' = trace s ++ pre
                    ++ [EvRunWithoutVm code {| arg_event := ref; arg_args := actionArgs |} req])).
Proof.
  unfold runTrustedCode, bind.
  pose proof (emits_loadLocalAction env fuel actionName s) as Hload.
  destruct (loadLocalAction env fuel actionName s) as [[[code req] d] s1 | e s1 |];
    simpl; [| |done].
  2:{ intros [= <-]. destruct (Hload s1 eq_refl) as (pre & E & F).
      exists pre. split; [done|]. left. split; auto. }
  destruct (Hload s1 eq_refl) as (pre & E & F).
  unfold await_createForAction.
  destruct (createForAction env); simpl.
  { intros [= <-]. exists pre. split; [done|]. left. split; auto. }
  pose proof (runWithoutVm_trace env code
                {| arg_event := ref; arg_args := actionArgs |} req s1) as Hrun.
  destruct (runWithoutVm _ _ _ _ s1) as [[] s2 | e s2 |]; simpl; [| |done];
    intros [= <-]; exists pre; (split; [done|]); right;
    exists code, req, d, s1; (split; [done|]); by rewrite Hrun, E, app_assoc.
Qed.

Lemma runLegacyAction_trace env fuel actionName actionArgs ref s s' :
  final_state (runLegacyAction env fuel actionName actionArgs ref s) = Some s' ->
  exists pre,
    Forall is_loading pre /\
    ((trace s' = trace s ++ pre /\
      ~ returns (runLegacyAction env fuel actionName actionArgs ref s)) \/
     (exists code req d s1 vm,
         loadLocalAction env fuel actionName s = Ret (code, req, d) s1 /\
         trace s' = trace s ++ pre ++ [EvRunInVm vm code d] /\
         timeout vm = 5000 /\
         sandbox vm = {| arg_event := ref; arg_args := actionArgs |} /\
         require_mock vm = req)).
Proof.
  unfold runLegacyAction, bind.
  pose proof (emits_loadLocalAction env fuel actionName s) as Hload.
  destruct (loadLocalAction env fuel actionName s) as [[[code req] d] s1 | e s1 |];
    simpl; [| |done].
  2:{ intros [= <-]. destruct (Hload s1 eq_refl) as (pre & E & F).
      exists pre. split; [done|]. left. split; auto. }
  destruct (Hload s1 eq_refl) as (pre & E & F).
  unfold await_createForAction.
  destruct (createForAction env); simpl.
  { intros [= <-]. exists pre. split; [done|]. left. split; auto. }
  pose proof (runInVm_trace env code d
                {| arg_event := ref; arg_args := actionArgs |} req s1) as Hrun.
  destruct (runInVm _ _ _ _ _ s1) as [[] s2 | e s2 |]; simpl; [| |done];
    destruct Hrun as (vm & Hrun & Ht & Hs & Hr);
    intros [= <-]; exists pre; (split; [done|]); right;
    exists code, req, d, s1, vm; (split; [done|]);
    (split; [by rewrite Hrun, E, app_assoc | done]).
Qed.

Lemma runInActionServer_trace env props server s s' :
  final_state (runInActionServer env props server s) = Some s' ->
  exists new,
    trace s' = trace s ++ new /\
    executions new = [] /\
    Forall (posts_to server props) new /\
    (returns (runInActionServer env props server s) ->
     exists req, posts new = [EvHttpPost req]).
Proof.
  unfold runInActionServer, await_axios, alloc_event. run.
  pose proof (getWorkspaceIdForBot_spec env
                (IO.botId (events s !!! incomingEvent props)) s) as Hspec.
  destruct (getWorkspaceIdForBot env _ s) as [workspaceId s1 | e s1 |]; simpl;
    [| |done]; destruct Hspec as (_ & _ & Etr).
  all: assert (exists pre, trace s1 = trace s ++ pre /\
                 (pre = [] \/
                  pre = [EvGetBotWorkspaceId (IO.botId (events s !!! incomingEvent props))]))
         as (pre & E1 & Hpre)
         by (destruct Etr as [Etr | Etr]; rewrite Etr; eexists; split;
             [symmetry; apply app_nil_r | by left | reflexivity | by right]).
  all: clear Etr.
  2:{ intros [= <-]. exists pre. split; [done|].
      destruct Hpre as [-> | ->]; by repeat constructor. }
  destruct (jsonwebtoken_sign env _ workspaceId) as [token|e]; simpl.
  2:{ intros [= <-]. exists pre. split; [done|].
      destruct Hpre as [-> | ->]; by repeat constructor. }
  set (request := action_run_request props server (events s !!! incomingEvent props) token).
  destruct (axios env request) as [latency [response|e]]; simpl.
  - destruct (response_incomingEvent response) as [ev'|]; simpl;
      intros [= <-]; cbn [trace set_trace set_clock set_events];
      rewrite E1, <- !app_assoc; (eexists; split; [reflexivity|]);
      destruct Hpre as [-> | ->];
      (split; [done|]);
      (split; [by repeat constructor | intros H; try done; by eexists]).
  - destruct (isAxiosError e); simpl;
      intros [= <-]; cbn [trace set_trace set_clock set_events];
      rewrite E1, <- ?app_assoc; (eexists; split; [reflexivity|]);
      destruct Hpre as [-> | ->];
      (split; [done|]);
      (split; [by repeat constructor | intros H; try done; by eexists]).
Qed.

Lemma Forall_loading_weaken (P : Effect -> Prop) l :
  (forall ev, is_loading ev = true -> P ev) -> Forall is_loading l -> Forall P l.
Proof.
  intros HP HF. eapply Forall_impl; [exact HF|].
  intros ev Hev. apply HP. by apply Is_true_eq_true.
Qed.

Lemma runAction_try_routing env fuel props s s' :
  final_state (runAction_try env fuel props s) = Some s' ->
  exists new,
    trace s' = trace s ++ new /\
    routed env fuel props s (returns (runAction_try env fuel props s)) new.
Proof.
  unfold runAction_try, routed.
  destruct (actionServer props) as [server|].
  { apply runInActionServer_trace. }
  unfold bind.
  pose proof (emits_isTrustedAction env (actionName props) s) as Htrust.
  destruct (isTrustedAction env (actionName props) s) as [trusted s1 | e s1 |];
    simpl; [| |done].
  2:{ intros [= <-]. destruct (Htrust s1 eq_refl) as (pre & E & F).
      exists pre. split; [done|]. by destruct (loading_not_run pre F). }
  destruct (Htrust s1 eq_refl) as (pre0 & E0 & F0).
  destruct (loading_not_run pre0 F0) as [X0 P0].
  destruct trusted.
  - pose proof (runTrustedCode_trace env fuel (actionName props) (actionArgs props)
                  (incomingEvent props) s1) as Hrun.
    destruct (runTrustedCode env fuel _ _ _ s1) as [[] s2 | e s2 |]; simpl;
      [| |done]; intros [= <-];
      destruct (Hrun s2 eq_refl) as (pre & F & [[E He] | (code & req & d & s3 & El & E)]);
      destruct (loading_not_run pre F) as [X1 P1];
      try (by destruct He).
    + exists (pre0 ++ pre ++ [EvRunWithoutVm code
                {| arg_event := incomingEvent props; arg_args := actionArgs props |} req]).
      split; [by rewrite E, E0, <- !app_assoc|].
      split; [by rewrite !posts_app, P0, P1|]. split.
      * apply Forall_app. split; [|apply Forall_app; split].
        -- eapply Forall_loading_weaken; [|exact F0]. by intros [].
        -- eapply Forall_loading_weaken; [|exact F]. by intros [].
        -- by repeat constructor.
      * intros _. exists code, req, d, s3. split; [done|].
        by rewrite !executions_app, X0, X1.
    + exists (pre0 ++ pre). split; [by rewrite E, E0, <- !app_assoc|].
      split; [by rewrite !posts_app, P0, P1|]. split; [|done].
      apply Forall_app. split.
      * eapply Forall_loading_weaken; [|exact F0]. by intros [].
      * eapply Forall_loading_weaken; [|exact F]. by intros [].
    + exists (pre0 ++ pre ++ [EvRunWithoutVm code
                {| arg_event := incomingEvent props; arg_args := actionArgs props |} req]).
      split; [by rewrite E, E0, <- !app_assoc|].
      split; [by rewrite !posts_app, P0, P1|]. split; [|done].
      apply Forall_app. split; [|apply Forall_app; split].
      * eapply Forall_loading_weaken; [|exact F0]. by intros [].
      * eapply Forall_loading_weaken; [|exact F]. by intros [].
      * by repeat constructor.
  - pose proof (runLegacyAction_trace env fuel (actionName props) (actionArgs props)
                  (incomingEvent props) s1) as Hrun.
    destruct (runLegacyAction env fuel _ _ _ s1) as [[] s2 | e s2 |]; simpl;
      [| |done]; intros [= <-];
      destruct (Hrun s2 eq_refl)
        as (pre & F & [[E He] | (code & req & d & s3 & vm & El & E & Ht & Hs & Hr)]);
      destruct (loading_not_run pre F) as [X1 P1];
      try (by destruct He).
    + exists (pre0 ++ pre ++ [EvRunInVm vm code d]).
      split; [by rewrite E, E0, <- !app_assoc|].
      split; [by rewrite !posts_app, P0, P1|]. split.
      * apply Forall_app. split; [|apply Forall_app; split].
        -- eapply Forall_loading_weaken; [|exact F0]. by intros [].
        -- eapply Forall_loading_weaken; [|exact F]. by intros [].
        -- by repeat constructor.
      * intros _. exists code, req, d, s3, vm. split; [done|].
        by rewrite !executions_app, X0, X1.
    + exists (pre0 ++ pre). split; [by rewrite E, E0, <- !app_assoc|].
      split; [by rewrite !posts_app, P0, P1|]. split; [|done].
      apply Forall_app. split.
      * eapply Forall_loading_weaken; [|exact F0]. by intros [].
      * eapply Forall_loading_weaken; [|exact F]. by intros [].
    + exists (pre0 ++ pre ++ [EvRunInVm vm code d]).
      split; [by rewrite E, E0, <- !app_assoc|].
      split; [by rewrite !posts_app, P0, P1|]. split; [|done].
      apply Forall_app. split; [|apply Forall_app; split].
      * eapply Forall_loading_weaken; [|exact F0]. by intros [].
      * eapply Forall_loading_weaken; [|exact F]. by intros [].
      * by repeat constructor.
Qed.

Lemma routed_nil env fuel props s : routed env fuel props s False [].
Proof.
  unfold routed. destruct (actionServer props).
  - by repeat split.
  - split; [done|].
    destruct (isTrustedAction env (actionName props) s) as [[] ? | |]; by repeat split.
Qed.

Lemma routed_log env fuel props s new msg err :
  routed env fuel props s False new ->
  routed env fuel props s False (new ++ [EvLogError msg err]).
Proof.
  unfold routed. destruct (actionServer props).
  - intros (X & F & _). split; [|split; [|done]].
    + by rewrite executions_app, X.
    + apply Forall_app. split; [done | by repeat constructor].
  - intros [P H]. split; [by rewrite posts_app, P|].
    destruct (isTrustedAction env (actionName props) s) as [[] ? | |].
    + destruct H as [F _]. split; [|done].
      apply Forall_app. split; [done | by repeat constructor].
    + destruct H as [F _]. split; [|done].
      apply Forall_app. split; [done | by repeat constructor].
    + by rewrite executions_app, H.
    + by rewrite executions_app, H.
Qed.



(** The licence assertion precedes the [try] block: its error is thrown as
    it is. *)
Lemma runAction_unlicensed env fuel props s e :
  ASSERT_LICENSED env = Some e -> runAction env fuel props s = Throw e s.
Proof. intros H. unfold runAction, assert_licensed, bind. by rewrite H. Qed.

(** Errors the specification lists do reach the [catch] block. *)
Lemma findAction_not_found env actionName actions s s1 :
  listActions env s = Ret actions s1 ->
  (forall a, a ∈ actions -> name a <> actionName) ->
  findAction env actionName s
  = Throw (new_Error env ("Action " +:+ dquote +:+ actionName +:+ dquote +:+ " not found")) s1.
Proof.
  intros Hl Hno. unfold findAction, bind. rewrite Hl.
  destruct (List.find _ actions) as [a|] eqn:E; [|done].
  apply find_some in E as [Ha Hn]. apply String.eqb_eq in Hn.
  destruct (Hno a); [by apply list_elem_of_In | done].
Qed.

Lemma runInVm_raises env code dirPath args req s e :
  raised (VmRunner_runInVm env
            {| wrapper := "none"; sandbox := args; require_external := true;
               require_mock := req; timeout := 5000 |}
            code dirPath (events s !!! arg_event args)) = Some e ->
  exists s', runInVm env code dirPath args req s = Throw e s'.
Proof.
  intros Hr. unfold runInVm, run_on_event. run. rewrite Hr. by eexists.
Qed.

(** ** Debounced invalidation *)

(** Turns the boolean comparisons of the context into propositions. *)
Ltac zbool :=
  repeat match goal with
    | H : (_ <=? _) = true |- _ => apply Z.leb_le in H
    | H : (_ <=? _) = false |- _ => apply Z.leb_gt in H
    | H : (_ <? _) = true |- _ => apply Z.ltb_lt in H
    | H : (_ <? _) = false |- _ => apply Z.ltb_ge in H
    | H : (_ || _) = true |- _ => apply orb_true_iff in H as [H|H]
    | H : (_ || _) = false |- _ => apply orb_false_iff in H as [? ?]
    end.

(** Case analysis on the tests of the debounce functions. *)
Ltac debounce_cases :=
  unfold debounce_wf, Lodash.debounced, Lodash.run_timers, Lodash.fire_due,
    Lodash.timerExpired, Lodash.shouldInvoke, Lodash.remainingWait, DEBOUNCE_DELAY in *;
  simpl in *;
  repeat (case_match; simpl in *; simplify_eq; zbool; try done; try lia).

(** A timer re-arms at most once between two calls: firing the due timers
    a third time changes nothing. *)
Lemma run_timers_stable now d :
  Lodash.fire_due DEBOUNCE_DELAY now (Lodash.run_timers DEBOUNCE_DELAY now d)
  = Lodash.run_timers DEBOUNCE_DELAY now d.
Proof. destruct d as [[l|] [dl|]]; debounce_cases; done. Qed.

Lemma debounced_step d now t :
  debounce_wf d now -> now <= t ->
  debounce_wf (Lodash.debounced DEBOUNCE_DELAY (Lodash.run_timers DEBOUNCE_DELAY t d) t).2 t /\
  lastCallTime (Lodash.debounced DEBOUNCE_DELAY (Lodash.run_timers DEBOUNCE_DELAY t d) t).2
  = Some t /\
  (Lodash.debounced DEBOUNCE_DELAY (Lodash.run_timers DEBOUNCE_DELAY t d) t).1
  = match lastCallTime d with
    | Some l => negb (t <? l + DEBOUNCE_DELAY)
    | None => true
    end.
Proof.
  intros Hwf Ht. destruct d as [[l|] [dl|]]; debounce_cases;
    repeat split; try done; try lia.
Qed.

Lemma run_timers_wf d now t :
  debounce_wf d now -> now <= t ->
  debounce_wf (Lodash.run_timers DEBOUNCE_DELAY t d) t /\
  lastCallTime (Lodash.run_timers DEBOUNCE_DELAY t d) = lastCallTime d.
Proof.
  intros Hwf Ht. destruct d as [[l|] [dl|]]; debounce_cases;
    repeat split; try done; try lia.
Qed.

Lemma clears_snoc s s' :
  trace s' = trace s ++ [EvClearCache] -> clears s' = S (clears s).
Proof.
  intros E. unfold clears. rewrite E, List.filter_app, length_app. simpl. lia.
Qed.

Lemma invalidation_step s now t key :
  debounce_wf (clearDebounce s) now -> now <= t ->
  debounce_wf (clearDebounce (invalidation t key s)) t /\
  clock (invalidation t key s) = t /\
  if actions_key key then
    lastCallTime (clearDebounce (invalidation t key s)) = Some t /\
    match lastCallTime (clearDebounce s) with
    | Some l =>
        if t <? l + DEBOUNCE_DELAY then
          caches (invalidation t key s) = caches s /\
          trace (invalidation t key s) = trace s
        else
          cleared (invalidation t key s) /\
          trace (invalidation t key s) = trace s ++ [EvClearCache]
    | None =>
        cleared (invalidation t key s) /\
        trace (invalidation t key s) = trace s ++ [EvClearCache]
    end
  else
    caches (invalidation t key s) = caches s /\
    trace (invalidation t key s) = trace s /\
    lastCallTime (clearDebounce (invalidation t key s)) = lastCallTime (clearDebounce s).
Proof.
  intros Hwf Ht.
  unfold invalidation, _listenForCacheInvalidation, actions_key.
  destruct (Js.includes "/actions" (Js.toLowerCase key)).
  - destruct (debounced_step (clearDebounce s) now t Hwf Ht) as (W & L & F).
    cbn [advance_clock clearDebounce set_clearDebounce clock set_clock].
    rewrite F.
    destruct (lastCallTime (clearDebounce s)) as [l|]; [destruct (t <? l + DEBOUNCE_DELAY)|];
      simpl; (split; [exact W|]); (split; [done|]); (split; [exact L|]); done.
  - destruct (run_timers_wf (clearDebounce s) now t Hwf Ht) as (W & L).
    simpl. done.
Qed.

Lemma invalidation_fires s now t key :
  debounce_wf (clearDebounce s) now -> now <= t ->
  actions_key key = true ->
  match lastCallTime (clearDebounce s) with
  | Some l => l + DEBOUNCE_DELAY <= t
  | None => True
  end ->
  debounce_wf (clearDebounce (invalidation t key s)) (clock (invalidation t key s)) /\
  clock (invalidation t key s) = t /\
  lastCallTime (clearDebounce (invalidation t key s)) = Some t /\
  cleared (invalidation t key s) /\
  clears (invalidation t key s) = S (clears s).
Proof.
  intros Hwf Ht Hk Hl.
  destruct (invalidation_step s now t key Hwf Ht) as (W & C & H).
  rewrite Hk in H. destruct H as [L H]. rewrite C.
  destruct (lastCallTime (clearDebounce s)) as [l|].
  - destruct (t <? l + DEBOUNCE_DELAY) eqn:E; [apply Z.ltb_lt in E; lia|].
    destruct H as [Hc Htr]. repeat split; try done. by apply clears_snoc.
  - destruct H as [Hc Htr]. repeat split; try done. by apply clears_snoc.
Qed.

Lemma invalidation_suppressed s now t key l :
  debounce_wf (clearDebounce s) now -> now <= t ->
  actions_key key = true ->
  lastCallTime (clearDebounce s) = Some l -> t < l + DEBOUNCE_DELAY ->
  debounce_wf (clearDebounce (invalidation t key s)) (clock (invalidation t key s)) /\
  clock (invalidation t key s) = t /\
  lastCallTime (clearDebounce (invalidation t key s)) = Some t /\
  caches (invalidation t key s) = caches s /\
  clears (invalidation t key s) = clears s.
Proof.
  intros Hwf Ht Hk Hl Hlt.
  destruct (invalidation_step s now t key Hwf Ht) as (W & C & H).
  rewrite Hk, Hl in H. destruct H as [L H]. rewrite C.
  destruct (t <? l + DEBOUNCE_DELAY) eqn:E; [|apply Z.ltb_ge in E; lia].
  destruct H as [Hc Htr]. repeat split; try done. unfold clears. by rewrite Htr.
Qed.

(** C9: an invalidation event whose key contains [/actions], in any
    letter case, goes through a debounce of 2000 ms that fires on the
    leading edge only.  Take a service whose debounce closure was
    consistent at some time [now], and an event delivered at [t], not
    before [now].  An event that arrives 2000 ms or more after the
    previous such event, or that is the first one, empties the five caches
    at once; an event that arrives earlier changes no cache and is never
    made up for later (timers add nothing to the trace); an event with
    another key does nothing.  Hence five such events within 500 ms of a
    new service clear once, and a sixth, 3000 ms after the first, clears
    once more. *)
Theorem invalidation_debounced s now t key evs t0 t1 t2 t3 t4 t5 k1 k2 k3 k4 k5 k6 :
  debounce_wf (clearDebounce s) now -> now <= t ->
  actions_key k1 = true -> actions_key k2 = true -> actions_key k3 = true ->
  actions_key k4 = true -> actions_key k5 = true -> actions_key k6 = true ->
  t0 <= t1 -> t1 <= t2 -> t2 <= t3 -> t3 <= t4 -> t4 <= t5 -> t5 <= t1 + 500 ->
  (debounce_wf (clearDebounce (invalidation t key s)) (clock (invalidation t key s)) /\
   if actions_key key then
     match lastCallTime (clearDebounce s) with
     | Some l =>
         if t <? l + DEBOUNCE_DELAY then
           caches (invalidation t key s) = caches s /\
           clears (invalidation t key s) = clears s
         else
           cleared (invalidation t key s) /\
           clears (invalidation t key s) = S (clears s)
     | None =>
         cleared (invalidation t key s) /\
         clears (invalidation t key s) = S (clears s)
     end
   else
     caches (invalidation t key s) = caches s /\
     clears (invalidation t key s) = clears s) /\
  clears (invalidations [(t1, k1)] (new_ScopedActionService evs t0)) = 1%nat /\
  cleared (invalidations [(t1, k1)] (new_ScopedActionService evs t0)) /\
  clears (invalidations [(t1, k1); (t2, k2); (t3, k3); (t4, k4); (t5, k5)]
            (new_ScopedActionService evs t0)) = 1%nat /\
  clears (invalidations [(t1, k1); (t2, k2); (t3, k3); (t4, k4); (t5, k5); (t1 + 3000, k6)]
            (new_ScopedActionService evs t0)) = 2%nat.
Proof.
  intros Hwf Ht K1 K2 K3 K4 K5 K6 T1 T2 T3 T4 T5 T6. split.
  { destruct (invalidation_step s now t key Hwf Ht) as (W & C & H). rewrite C.
    split; [done|]. destruct (actions_key key).
    - destruct H as [_ H].
      destruct (lastCallTime (clearDebounce s)) as [l|];
        [destruct (t <? l + DEBOUNCE_DELAY)|]; destruct H as [Hc Htr];
        (split; [done|]); first [by apply clears_snoc | unfold clears; by rewrite Htr].
    - destruct H as (Hc & Htr & _). split; [done|]. unfold clears. by rewrite Htr. }
  unfold invalidations, DEBOUNCE_DELAY in *. simpl.
  set (s0 := new_ScopedActionService evs t0).
  destruct (invalidation_fires s0 t0 t1 k1) as (W1 & C1 & L1 & X1 & N1); try done.
  rewrite C1 in W1.
  destruct (invalidation_suppressed (invalidation t1 k1 s0) t1 t2 k2 t1 W1)
    as (W2 & C2 & L2 & _ & N2); try done; unfold DEBOUNCE_DELAY; try lia.
  rewrite C2 in W2.
  destruct (invalidation_suppressed _ t2 t3 k3 t2 W2)
    as (W3 & C3 & L3 & _ & N3); try done; unfold DEBOUNCE_DELAY; try lia.
  rewrite C3 in W3.
  destruct (invalidation_suppressed _ t3 t4 k4 t3 W3)
    as (W4 & C4 & L4 & _ & N4); try done; unfold DEBOUNCE_DELAY; try lia.
  rewrite C4 in W4.
  destruct (invalidation_suppressed _ t4 t5 k5 t4 W4)
    as (W5 & C5 & L5 & _ & N5); try done; unfold DEBOUNCE_DELAY; try lia.
  rewrite C5 in W5.
  destruct (invalidation_fires _ t5 (t1 + 3000) k6 W5) as (_ & _ & _ & _ & N6); try done.
  { lia. }
  { rewrite L5. unfold DEBOUNCE_DELAY. lia. }
  repeat split; try done.
  - by rewrite N5, N4, N3, N2.
  - by rewrite N6, N5, N4, N3, N2, N1.
Qed.

(** ** The router on concrete worlds *)

Section Examples.

Import Example.

(** C3 (the code departs from the claim): the action server answers 200
    with an event of its own.  [runAction] returns no value, the object the
    caller passed (reference 0) is as it was, and the event of the server,
    with its [responseStatusCode], sits in a new object that only the local
    variable of [runAction] referred to. *)
Theorem remote_event_not_handed_back :
  exists s',
    runAction (make_env answering_world) 3 (run_props "greet" (Some server1)) start
    = Ret tt s' /\
    events s' !! 0%nat = Some event0 /\
    events s' !! 1%nat
    = Some (IO.set_temp "responseStatusCode" (JsNumber 200) remote_event) /\
    length (events s') = 2%nat /\
    IO.temp (IO.state event0) !! "answer" = None /\
    IO.temp (IO.state remote_event) !! "answer" = Some (JsNumber 42).
Proof. eexists. vm_compute. repeat split; reflexivity. Qed.

(** The three routes on [shadow_world]: a trusted global action runs
    without a VM, a local action runs in the sandbox, and with an action
    server the request is posted whatever the trust of the action. *)
Example trusted_action_runs_without_vm :
  exists s' req,
    runAction (make_env shadow_world) 3 (run_props "nlu/detect-intent" None) start
    = Ret tt s' /\
    executions (trace s')
    = [EvRunWithoutVm "global nlu" {| arg_event := 0%nat; arg_args := JsNull |} req] /\
    posts (trace s') = [].
Proof. eexists _, _. vm_compute. repeat split; reflexivity. Qed.

Example local_action_runs_in_vm :
  exists s' vm dirPath,
    runAction (make_env shadow_world) 3 (run_props "greet" None) start = Ret tt s' /\
    executions (trace s') = [EvRunInVm vm "local greet" dirPath] /\
    timeout vm = 5000 /\
    posts (trace s') = [].
Proof. eexists _, _, _. vm_compute. repeat split; reflexivity. Qed.

Example trusted_action_is_delegated :
  exists s' req,
    runAction (make_env answering_world) 3
      (run_props "nlu/detect-intent" (Some server1)) start = Ret tt s' /\
    posts (trace s') = [EvHttpPost req] /\
    url req = "http://actions.example:4000/action/run" /\
    executions (trace s') = [].
Proof. eexists _, _. vm_compute. repeat split; reflexivity. Qed.

(** The same name is trusted when a global action bears it and not when
    only a local action does. *)
Example global_nlu_is_trusted :
  exists s', isTrustedAction (make_env shadow_world) "nlu/detect-intent" start = Ret true s'.
Proof. eexists. vm_compute. reflexivity. Qed.

Example local_nlu_is_not_trusted :
  exists s1 s2,
    isTrustedAction (make_env local_only_world) "nlu/detect-intent" start = Ret false s1 /\
    hasAction (make_env local_only_world) "nlu/detect-intent" start = Ret true s2.
Proof. eexists _, _. vm_compute. split; reflexivity. Qed.

(** The in-process paths do hand the event back: the script writes into
    the object of the caller. *)
Example sandboxed_run_mutates_caller_event :
  exists s',
    runAction (make_env shadow_world) 3 (run_props "greet" None) start = Ret tt s' /\
    events s' !! 0%nat = Some (IO.set_temp "ran" (JsString "local greet") event0).
Proof. eexists. vm_compute. split; reflexivity. Qed.


(** C4 (the claim as stated fails here): the request is attempted and
    [axios] throws an error that is not an axios error; no audit task is
    created. *)
Lemma delegation_without_task :
  exists (e : Thrown) s',
    runInActionServer (make_env circular_world) (run_props "greet" (Some server1))
      server1 start = Throw e s' /\
    isAxiosError e = false /\
    length (posts (trace s')) = 1%nat /\
    length (tasks_of (trace s')) = 0%nat.
Proof. eexists _, _. vm_compute. repeat split; reflexivity. Qed.

(** C5 (the claim as stated fails here): in strict-require mode the
    action [steal] requires [../../../etc/hosts]; [checkActionRequires]
    answers [false], and [runAction] nevertheless runs the script of
    [steal] in the sandbox. *)
Lemma escaping_require_still_runs :
  BP_EXPERIMENTAL_REQUIRE_BPFS (make_env escaping_world) = true /\
  exists s1 s2 vm,
    checkActionRequires (make_env escaping_world) 3 "steal" start = Ret false s1 /\
    runAction (make_env escaping_world) 3 (run_props "steal" None) start = Ret tt s2 /\
    executions (trace s2)
    = [EvRunInVm vm "require('../../../etc/hosts')"
         "/botpress/data/bots/bot1/actions/steal.js"].
Proof. split; [reflexivity|]. eexists _, _, _. vm_compute. repeat split; reflexivity. Qed.

(** C10 (the code departs from the claim): [builtin/x_true_local] exists
    in both scopes.  The local action [builtin/x] has filled the script
    cache under the key [builtin/x_true_local]; [findAction] picks the
    global definition, [getActionScript] finds that key, and the script of
    the local [builtin/x] is run as trusted code, without a VM. *)
Theorem same_name_runs_cached_script :
  readFileAsString (make_env poisoned_world) ghost_global "builtin/x_true_local.js"
  = Fulfilled "global script" /\
  exists s0 s' req,
    isTrustedAction (make_env poisoned_world) "builtin/x_true_local" start
    = Ret true s0 /\
    runAction (make_env poisoned_world) 3 (run_props "builtin/x_true_local" None) start
    = Ret tt s' /\
    executions (trace s')
    = [EvRunWithoutVm "script of the local builtin/x"
         {| arg_event := 0%nat; arg_args := JsNull |} req].
Proof.
  split; [reflexivity|].
  eexists _, _, _. vm_compute. repeat split; reflexivity.
Qed.

End Examples.

(** ** The require check *)

Lemma checkActionRequires_unfold env fuel actionName s :
  checkActionRequires env (S fuel) actionName s
  = if validScripts_truthy (_validScripts s) actionName then Ret true s
    else match getActionDetails env actionName s with
         | Ret d s' =>
             check_files env (checkActionRequires env fuel) actionName
               (dirPath d) (lookups d) (extractRequiredFiles env (code d)) s'
         | Throw e s' => Throw e s'
         | OutOfFuel => OutOfFuel
         end.
Proof.
  simpl. unfold bind at 1. unfold gets.
  destruct (validScripts_truthy _ _); [done|]. reflexivity.
Qed.

(** The files that resolve within the lookup paths are skipped. *)
Lemma check_files_skip env recurse actionName parentScript lookups before rest :
  Forall (fun f => prepareRequireTester env parentScript lookups f = true) before ->
  check_files env recurse actionName parentScript lookups (before ++ rest)
  = check_files env recurse actionName parentScript lookups rest.
Proof.
  induction 1 as [|f before Hf _ IH]; [done|]. simpl. by rewrite Hf.
Qed.

Lemma check_files_cons env recurse actionName parentScript lookups file rest s :
  check_files env recurse actionName parentScript lookups (file :: rest) s
  = if prepareRequireTester env parentScript lookups file then
      check_files env recurse actionName parentScript lookups rest s
    else
      match load_required env recurse file parentScript s with
      | Ret _ s' => check_files env recurse actionName parentScript lookups rest s'
      | Throw err s' =>
          Ret false
            (set_trace
               (trace s'
                ++ [EvLogError ("There is an issue with required file " +:+ file
                                +:+ ".js in action " +:+ actionName +:+ ".js") err]) s')
      | OutOfFuel => OutOfFuel
      end.
Proof.
  simpl. destruct (prepareRequireTester _ _ _ _); [done|].
  unfold bind at 1. unfold try_catch. unfold bind at 1.
  by destruct (load_required env recurse file parentScript s).
Qed.

Lemma check_files_diverges env recurse actionName parentScript lookups file rest s :
  prepareRequireTester env parentScript lookups file = false ->
  recurse file s = OutOfFuel ->
  check_files env recurse actionName parentScript lookups (file :: rest) s = OutOfFuel.
Proof.
  intros Hf Hr. simpl. rewrite Hf.
  unfold bind, try_catch, load_required, bind. by rewrite Hr.
Qed.

(** Actions on a cycle of requires: every call of [checkActionRequires]
    for a name of the cycle [C] reaches a call for another name of the
    cycle one level down, whatever the budget.  [I] is any property of the
    state that [getActionDetails] maintains. *)
Lemma cyclic_requires_diverge env (C : string -> Prop) (I : State -> Prop) :
  (forall actionName s, C actionName -> I s ->
     validScripts_truthy (_validScripts s) actionName = false /\
     exists d s' before next rest,
       getActionDetails env actionName s = Ret d s' /\ I s' /\ C next /\
       extractRequiredFiles env (code d) = before ++ next :: rest /\
       Forall (fun f => prepareRequireTester env (dirPath d) (lookups d) f = true) before /\
       prepareRequireTester env (dirPath d) (lookups d) next = false) ->
  forall fuel actionName s,
    C actionName -> I s -> checkActionRequires env fuel actionName s = OutOfFuel.
Proof.
  intros Hstep. induction fuel as [|fuel IH]; intros actionName s Hc Hs; [done|].
  rewrite checkActionRequires_unfold.
  destruct (Hstep actionName s Hc Hs)
    as (Hv & d & s' & before & next & rest & Hd & Hs' & Hn & Hfiles & Hb & Hf).
  rewrite Hv, Hd, Hfiles, check_files_skip by done.
  apply check_files_diverges; [done|]. by apply IH.
Qed.

Section SelfRequire.

Import Example.

Lemma loop_state_step actionName s :
  actionName = "loop" -> loop_state s ->
  validScripts_truthy (_validScripts s) actionName = false /\
  exists d s' before next rest,
    getActionDetails (make_env cyclic_world) actionName s = Ret d s' /\
    loop_state s' /\ next = "loop" /\
    extractRequiredFiles (make_env cyclic_world) (code d) = before ++ next :: rest /\
    Forall (fun f => prepareRequireTester (make_env cyclic_world)
                       (dirPath d) (lookups d) f = true) before /\
    prepareRequireTester (make_env cyclic_world) (dirPath d) (lookups d) next = false.
Proof.
  intros -> (Hg & Hl & Hc & Hv). split.
  { unfold validScripts_truthy. by rewrite Hv. }
  unfold getActionDetails, findAction, listActions, listGlobalActions, listLocalActions,
    Promise_map_getActionDefinition, getActionScript.
  run.
  destruct Hg as [Hg | Hg], Hl as [Hl | Hl]; rewrite Hg; simpl;
    unfold start_getActionDefinition; simpl; rewrite Hl; simpl; rewrite ?Hc; simpl;
    rewrite ?lookup_insert_ne by done; rewrite ?Hc; simpl;
    (eexists _, _, [], "loop", []; split; [reflexivity|]);
    (split; [|by repeat split]);
    unfold loop_state; simpl; rewrite ?lookup_insert_ne by done;
    repeat split; auto.
Qed.

Lemma ping_pong_state_step actionName s :
  actionName = "ping" \/ actionName = "pong" -> ping_pong_state s ->
  validScripts_truthy (_validScripts s) actionName = false /\
  exists d s' before next rest,
    getActionDetails (make_env mutual_world) actionName s = Ret d s' /\
    ping_pong_state s' /\ (next = "ping" \/ next = "pong") /\
    extractRequiredFiles (make_env mutual_world) (code d) = before ++ next :: rest /\
    Forall (fun f => prepareRequireTester (make_env mutual_world)
                       (dirPath d) (lookups d) f = true) before /\
    prepareRequireTester (make_env mutual_world) (dirPath d) (lookups d) next = false.
Proof.
  intros Hn (Hg & Hl & Hc1 & Hc2 & Hv1 & Hv2). split.
  { unfold validScripts_truthy. by destruct Hn as [-> | ->]; rewrite ?Hv1, ?Hv2. }
  unfold getActionDetails, findAction, listActions, listGlobalActions, listLocalActions,
    Promise_map_getActionDefinition, getActionScript.
  run.
  destruct Hn as [-> | ->];
    destruct Hg as [Hg | Hg], Hl as [Hl | Hl]; rewrite Hg; simpl;
    unfold start_getActionDefinition; simpl; rewrite Hl; simpl;
    rewrite ?Hc1, ?Hc2; simpl;
    rewrite ?lookup_insert_ne by done; rewrite ?Hc1, ?Hc2; simpl;
    (eexists _, _, [], _, []; split; [reflexivity|]);
    (split; [|split; [|by repeat split]]);
    unfold ping_pong_state; simpl; rewrite ?lookup_insert_ne by done;
    repeat split; auto.
Qed.

(** C7 (the code departs from the claim): the local action [loop]
    requires itself.  [checkActionRequires] marks a script as valid only
    after its loop over the required files, so the recursive call finds
    nothing to stop on: no budget is enough for the call to return, and a
    [runAction] of [loop] in strict-require mode does not return either.
    The same holds for the pair [ping] and [pong], which require each
    other. *)
Theorem checkActionRequires_diverges_on_cycles :
  forall fuel,
    checkActionRequires (make_env cyclic_world) fuel "loop" start = OutOfFuel /\
    runAction (make_env cyclic_world) fuel (run_props "loop" None) start = OutOfFuel /\
    checkActionRequires (make_env mutual_world) fuel "ping" start = OutOfFuel /\
    checkActionRequires (make_env mutual_world) fuel "pong" start = OutOfFuel.
Proof.
  intros fuel. split; [|split; [|split]].
  - apply (cyclic_requires_diverge _ (fun n => n = "loop") loop_state loop_state_step);
      [done|].
    unfold loop_state. simpl. by repeat split; auto.
  - unfold runAction, runAction_try, assert_licensed. run.
    destruct (isTrustedAction (make_env cyclic_world) "loop" start)
      as [b sg | e sg |] eqn:E; vm_compute in E; [|done|done].
    injection E as <- <-.
    unfold runLegacyAction, loadLocalAction. run.
    rewrite (cyclic_requires_diverge _ (fun n => n = "loop") loop_state loop_state_step);
      [done|done|].
    unfold loop_state. simpl. by repeat split; auto.
  - apply (cyclic_requires_diverge _ (fun n => n = "ping" \/ n = "pong")
             ping_pong_state ping_pong_state_step); [by left|].
    unfold ping_pong_state. simpl. by repeat split; auto.
  - apply (cyclic_requires_diverge _ (fun n => n = "ping" \/ n = "pong")
             ping_pong_state ping_pong_state_step); [by right|].
    unfold ping_pong_state. simpl. by repeat split; auto.
Qed.

End SelfRequire.

(** *** What the catalog reads *)

Lemma catalog_effect_mono env actions actions' ev :
  (forall a, a ∈ actions -> a ∈ actions') ->
  catalog_effect env actions ev -> catalog_effect env actions' ev.
Proof.
  intros Hsub. destruct ev; simpl; try done.
  intros (a & Ha & E). exists a. auto.
Qed.

Lemma Promise_map_reads env cache0 loc files defs :
  all_settled (map mapped_result (map (start_getActionDefinition env cache0 loc) files))
  = Fulfilled defs ->
  Forall (catalog_effect env defs)
    (List.concat (map mapped_reads (map (start_getActionDefinition env cache0 loc) files))).
Proof.
  revert defs. induction files as [|file files IH]; intros defs; simpl.
  - intros _. constructor.
  - destruct (mapped_result _) as [a|e] eqn:Ea; [|done].
    destruct (all_settled _) as [l'|e] eqn:El; [|done].
    intros [= <-]. apply Forall_app. split.
    + revert Ea. unfold start_getActionDefinition.
      destruct (cache0 !! _); simpl; [constructor|].
      destruct (readFileAsString _ _ _); simpl; [|done].
      intros [= <-]. constructor; [|constructor]. simpl.
      eexists. split; [apply list_elem_of_here|].
      by destruct (script_file _ _).
    + eapply Forall_impl; [by apply IH|]. intros ev.
      apply catalog_effect_mono. intros a' Ha'. by apply list_elem_of_further.
Qed.

Lemma listGlobalActions_reads env s g s' :
  listGlobalActions env s = Ret g s' ->
  exists new, trace s' = trace s ++ new /\ Forall (catalog_effect env g) new.
Proof.
  unfold listGlobalActions, Promise_map_getActionDefinition. run.
  destruct (_globalActionsCache s) as [cached|]; simpl.
  { intros [= <- <-]. exists []. split; [by rewrite app_nil_r | constructor]. }
  destruct (directoryListing env ghost_global) as [files|e]; simpl; [|done].
  destruct (all_settled _) as [defs|e] eqn:Ed; simpl; [|done].
  intros [= <- <-]. simpl. rewrite <- app_assoc. eexists. split; [reflexivity|].
  constructor; [done|]. by apply Promise_map_reads.
Qed.

Lemma listLocalActions_reads env s l s' :
  listLocalActions env s = Ret l s' ->
  exists new, trace s' = trace s ++ new /\ Forall (catalog_effect env l) new.
Proof.
  unfold listLocalActions, Promise_map_getActionDefinition. run.
  destruct (_localActionsCache s) as [cached|]; simpl.
  { intros [= <- <-]. exists []. split; [by rewrite app_nil_r | constructor]. }
  destruct (directoryListing env _) as [files|e]; simpl; [|done].
  destruct (all_settled _) as [defs|e] eqn:Ed; simpl; [|done].
  intros [= <- <-]. simpl. rewrite <- app_assoc. eexists. split; [reflexivity|].
  constructor; [done|]. by apply Promise_map_reads.
Qed.

(** A successful [listActions] leaves both catalogs memoized, and has only
    listed directories and read scripts of the actions it returns. *)
Lemma listActions_reads env s actions s' :
  listActions env s = Ret actions s' ->
  (exists g l, _globalActionsCache s' = Some g /\ _localActionsCache s' = Some l /\
               actions = g ++ l) /\
  exists new, trace s' = trace s ++ new /\ Forall (catalog_effect env actions) new.
Proof.
  unfold listActions, bind.
  pose proof (listGlobalActions_spec env s) as HG.
  pose proof (listGlobalActions_reads env s) as RG.
  destruct (listGlobalActions env s) as [g s1 | |]; [|done|done].
  pose proof (listLocalActions_spec env s1) as HL.
  pose proof (listLocalActions_reads env s1) as RL.
  destruct (listLocalActions env s1) as [l s2 | |]; [|done|done].
  intros [= <- <-]. split.
  - exists g, l. destruct HG as (Eg & _), HL as (El & Eg' & _).
    rewrite Eg', Eg. by repeat split.
  - destruct (RG g s1 eq_refl) as (n1 & E1 & F1).
    destruct (RL l s2 eq_refl) as (n2 & E2 & F2).
    exists (n1 ++ n2). split; [by rewrite E2, E1, app_assoc|].
    apply Forall_app. split.
    + eapply Forall_impl; [exact F1|]. intros ev. apply catalog_effect_mono.
      intros a Ha. apply elem_of_app. by left.
    + eapply Forall_impl; [exact F2|]. intros ev. apply catalog_effect_mono.
      intros a Ha. apply elem_of_app. by right.
Qed.

Lemma listActions_cached env s g l :
  _globalActionsCache s = Some g -> _localActionsCache s = Some l ->
  listActions env s = Ret (g ++ l) s.
Proof.
  intros Hg Hl. unfold listActions, listGlobalActions, listLocalActions. run.
  rewrite Hg. simpl. by rewrite Hl.
Qed.

Lemma getActionScript_spec env a s :
  match getActionScript env a s with
  | Ret _ s' | Throw _ s' =>
      _globalActionsCache s' = _globalActionsCache s /\
      _localActionsCache s' = _localActionsCache s /\
      _validScripts s' = _validScripts s /\
      (trace s' = trace s \/
       trace s' = trace s ++ [EvReadFile (script_file env a).1 (script_file env a).2])
  | OutOfFuel => False
  end.
Proof.
  unfold getActionScript. run.
  destruct (_scriptsCache s !! name a); simpl; [auto|].
  destruct (readFileAsString _ _ _); simpl; auto.
Qed.

Lemma getActionDetails_not_found env file actions s :
  listActions env s = Ret actions s ->
  (forall a, a ∈ actions -> name a <> file) ->
  getActionDetails env file s
  = Throw (new_Error env ("Action " +:+ dquote +:+ file +:+ dquote +:+ " not found")) s.
Proof.
  intros Hl Hno. unfold getActionDetails. unfold bind at 1.
  by rewrite (findAction_not_found env file actions s s Hl Hno).
Qed.

(** C5, as amended: in a state where the action is not yet marked valid
    and can be loaded, let [file] be a module that its script requires,
    that does not resolve within the lookup paths and that names no action
    of the catalog, the modules required before it resolving.  Then
    [checkActionRequires] returns [false]; all it has done since the
    action was loaded is to log the error "Action not found"; over the
    whole call no script other than those of catalogued actions, none of
    which is named [file], has been read, and nothing has been
    trial-required.  In strict-require mode [loadLocalAction] drops that
    result and goes on to load the action. *)
Theorem unresolved_require_is_reported env fuel actionName s actions s0 d s1
    file before after :
  validScripts_truthy (_validScripts s) actionName = false ->
  listActions env s = Ret actions s0 ->
  getActionDetails env actionName s = Ret d s1 ->
  extractRequiredFiles env (code d) = before ++ file :: after ->
  Forall (fun f => prepareRequireTester env (dirPath d) (lookups d) f = true) before ->
  prepareRequireTester env (dirPath d) (lookups d) file = false ->
  (forall a, a ∈ actions -> name a <> file) ->
  exists s2,
    checkActionRequires env (S (S fuel)) actionName s = Ret false s2 /\
    trace s2
    = trace s1
      ++ [EvLogError ("There is an issue with required file " +:+ file
                      +:+ ".js in action " +:+ actionName +:+ ".js")
            (new_Error env ("Action " +:+ dquote +:+ file +:+ dquote +:+ " not found"))] /\
    (exists new, trace s2 = trace s ++ new /\ Forall (untouched env actions file) new) /\
    (BP_EXPERIMENTAL_REQUIRE_BPFS env = true ->
     loadLocalAction env (S (S fuel)) actionName s
     = bind (getActionDetails env actionName)
         (fun d' => ret (code d', prepareRequire (dirPath d') (lookups d'), dirPath d'))
         s2).
Proof.
  intros Hv Hlist Hdet Hfiles Hbefore Hfile Hno.
  (* the state after loading the action *)
  destruct (listActions_reads env s actions s0 Hlist)
    as ((g & l & Hg0 & Hl0 & Hact) & (new0 & Etr0 & F0)).
  assert (exists a, a ∈ actions /\
            _globalActionsCache s1 = Some g /\ _localActionsCache s1 = Some l /\
            _validScripts s1 = _validScripts s0 /\
            (trace s1 = trace s0 \/
             trace s1 = trace s0 ++ [EvReadFile (script_file env a).1 (script_file env a).2]))
    as (a & Ha & Hg1 & Hl1 & Hv1 & Etr1).
  { revert Hdet. unfold getActionDetails, findAction. unfold bind at 1 2.
    rewrite Hlist.
    destruct (List.find _ actions) as [a|] eqn:Ef; [|done].
    unfold ret at 1, bind.
    pose proof (getActionScript_spec env a s0) as Hs.
    destruct (getActionScript env a s0) as [c s1' | |]; [|done|done].
    intros [= _ <-]. destruct Hs as (E1 & E2 & E3 & E4).
    exists a. apply find_some in Ef as [Hin _].
    rewrite E1, E2. split; [by apply list_elem_of_In|]. by repeat split. }
  pose proof (listActions_cached env s1 g l Hg1 Hl1) as Hlist1.
  rewrite <- Hact in Hlist1.
  pose proof (getActionDetails_not_found env file actions s1 Hlist1 Hno) as Hnf.
  (* the recursive call and the load of the required file *)
  assert (load_required env (checkActionRequires env (S fuel)) file (dirPath d) s1
          = Throw (new_Error env ("Action " +:+ dquote +:+ file +:+ dquote +:+ " not found")) s1)
    as Hload.
  { unfold load_required. unfold bind at 1. rewrite checkActionRequires_unfold.
    destruct (validScripts_truthy (_validScripts s1) file).
    - unfold bind at 1. by rewrite Hnf.
    - by rewrite Hnf. }
  assert (checkActionRequires env (S (S fuel)) actionName s
          = Ret false
              (set_trace
                 (trace s1
                  ++ [EvLogError ("There is an issue with required file " +:+ file
                                  +:+ ".js in action " +:+ actionName +:+ ".js")
                        (new_Error env ("Action " +:+ dquote +:+ file +:+ dquote
                                        +:+ " not found"))]) s1)) as Hcheck.
  { rewrite checkActionRequires_unfold, Hv, Hdet, Hfiles, check_files_skip by done.
    by rewrite check_files_cons, Hfile, Hload. }
  eexists. split; [exact Hcheck|]. split; [reflexivity|]. split.
  - cbn [trace set_trace].
    assert (forall ev, catalog_effect env actions ev -> untouched env actions file ev) as Hun.
    { intros [] ; simpl; try done. intros (a' & Ha' & E). exists a'. auto. }
    assert (untouched env actions file
              (EvReadFile (script_file env a).1 (script_file env a).2)) as Hra.
    { simpl. exists a. repeat split; auto. by destruct (script_file env a). }
    destruct Etr1 as [-> | ->]; rewrite Etr0, <- !app_assoc;
      (eexists; split; [reflexivity|]);
      repeat (apply Forall_app; split); try (by repeat constructor).
    all: eapply Forall_impl; [exact F0 | exact Hun].
  - intros Hstrict. unfold loadLocalAction. rewrite Hstrict.
    unfold bind at 1 2. by rewrite Hcheck.
Qed.

(** ** The catalog stays in step with the store *)

Lemma respects_ret {A} I (a : A) : respects I (ret a).
Proof. by intros s s' HI [= <-]. Qed.

Lemma respects_throw {A} I e : respects I (@throw A e).
Proof. by intros s s' HI [= <-]. Qed.

Lemma respects_gets {A} I (f : State -> A) : respects I (gets f).
Proof. by intros s s' HI [= <-]. Qed.

Lemma respects_await {A} I (p : Settled A) : respects I (await p).
Proof. destruct p; [apply respects_ret | apply respects_throw]. Qed.

Lemma respects_modify (I : State -> Prop) f :
  (forall s, I s -> I (f s)) -> respects I (modify f).
Proof. intros Hf s s' HI [= <-]. by apply Hf. Qed.

Lemma respects_bind {A B} I (m : M A) (k : A -> M B) :
  respects I m -> (forall a, respects I (k a)) -> respects I (bind m k).
Proof.
  intros Hm Hk s s' HI Hf. unfold bind in Hf.
  destruct (m s) as [a s1 | e s1 |] eqn:E; simpl in Hf.
  - eapply Hk; [|exact Hf]. eapply Hm; [exact HI | by rewrite E].
  - injection Hf as <-. eapply Hm; [exact HI | by rewrite E].
  - done.
Qed.

Lemma respects_try_catch {A} I (m : M A) (h : Exception -> M A) :
  respects I m -> (forall e, respects I (h e)) -> respects I (try_catch m h).
Proof.
  intros Hm Hh s s' HI Hf. unfold try_catch in Hf.
  destruct (m s) as [a s1 | e s1 |] eqn:E; simpl in Hf.
  - injection Hf as <-. eapply Hm; [exact HI | by rewrite E].
  - eapply Hh; [|exact Hf]. eapply Hm; [exact HI | by rewrite E].
  - done.
Qed.

Create HintDb respects.

#[local] Hint Resolve respects_ret respects_throw respects_gets respects_await : respects.

(** Splits a method body along its binds, for a property that only
    depends on the two memoized catalogs. *)
Ltac respects_body :=
  repeat first
    [ solve [eauto with respects]
    | apply respects_bind; [|intros ?]
    | apply respects_try_catch; [|intros ?]
    | apply respects_modify; [by intros []]
    | match goal with
      | |- respects _ (if ?b then _ else _) => destruct b
      | |- respects _ (match ?x with _ => _ end) => destruct x
      end ].

Lemma respects_listActions env : respects (catalog_wf env) (listActions env).
Proof.
  intros s s' Hwf Hf. pose proof (listActions_spec env s Hwf) as H.
  destruct (listActions env s) as [r s1 | e s1 |]; simpl in Hf; [| |done];
    injection Hf as <-.
  - by destruct H as (? & ? & ? & ? & _ & _ & _ & _ & _ & ?).
  - done.
Qed.
#[local] Hint Resolve respects_listActions : respects.

Lemma respects_listGlobalActions env : respects (catalog_wf env) (listGlobalActions env).
Proof.
  intros s s' [Hg Hl] Hf. pose proof (listGlobalActions_spec env s) as H.
  destruct (listGlobalActions env s) as [g s1 | e s1 |]; simpl in Hf; [| |done];
    injection Hf as <-.
  - destruct H as (Eg & El & H). split; [|by rewrite El].
    rewrite Eg. intros ? [= <-].
    destruct (_globalActionsCache s) as [cached|] eqn:Ec; [|done].
    destruct H as [-> _]. by apply Hg.
  - destruct H as (_ & Eg & El). split; [|by rewrite El].
    rewrite Eg. intros ? ?; congruence.
Qed.
#[local] Hint Resolve respects_listGlobalActions : respects.

Lemma respects_getActionScript env a :
  respects (catalog_wf env) (getActionScript env a).
Proof. unfold getActionScript, emit. respects_body. Qed.
#[local] Hint Resolve respects_getActionScript : respects.

Lemma respects_getActionDetails env actionName :
  respects (catalog_wf env) (getActionDetails env actionName).
Proof. unfold getActionDetails, findAction. respects_body. Qed.
#[local] Hint Resolve respects_getActionDetails : respects.

Lemma respects_checkActionRequires env fuel actionName :
  respects (catalog_wf env) (checkActionRequires env fuel actionName).
Proof.
  revert actionName. induction fuel as [|fuel IH]; intros actionName; simpl.
  - by intros s s'.
  - assert (forall p l fs,
               respects (catalog_wf env)
                 (check_files env (checkActionRequires env fuel) actionName p l fs)) as Hfiles.
    { intros p l fs. induction fs as [|file rest IHf]; simpl.
      - unfold emit. respects_body.
      - unfold load_required, emit. respects_body. }
    respects_body.
Qed.
#[local] Hint Resolve respects_checkActionRequires : respects.

(** A new service has no memoized catalog, [_clearCache] forgets both, and
    [runAction] only memoizes what it has listed: the catalogs a service
    holds always come from the store. *)
Lemma catalog_wf_new env evs t0 : catalog_wf env (new_ScopedActionService evs t0).
Proof. split; intros actions; simpl; discriminate. Qed.

Lemma catalog_wf_invalidation env t key s :
  catalog_wf env s -> catalog_wf env (invalidation t key s).
Proof.
  intros Hwf. unfold invalidation, _listenForCacheInvalidation.
  destruct (Js.includes _ _); [|done].
  destruct (Lodash.debounced _ _ _).1; [|done].
  split; intros actions; simpl; discriminate.
Qed.

Lemma catalog_wf_runAction env fuel props :
  respects (catalog_wf env) (runAction env fuel props).
Proof.
  unfold runAction, assert_licensed, runAction_try, isTrustedAction, listTrustedActions,
    runTrustedCode, runLegacyAction, loadLocalAction, await_createForAction,
    runWithoutVm, runInVm, run_on_event, runInActionServer, getWorkspaceIdForBot,
    await_axios, alloc_event, Date_now, emit, read_property.
  respects_body.
Qed.

(** ** Same name in both scopes *)

Lemma definitions_of_location loc files a :
  a ∈ definitions_of loc files -> location a = loc.
Proof.
  unfold definitions_of. intros H. apply list_elem_of_fmap in H as (f & -> & _). done.
Qed.

Lemma stripped_location loc files (l : list ActionDefinition) a :
  map strip_metadata l = definitions_of loc files -> a ∈ l -> location a = loc.
Proof.
  intros E Ha.
  change (location a) with (location (strip_metadata a)).
  apply (definitions_of_location loc files). rewrite <- E.
  apply list_elem_of_fmap. eauto.
Qed.

Lemma find_app_first {A} (p : A -> bool) (g l : list A) x :
  x ∈ g -> p x = true ->
  exists y, List.find p (g ++ l) = Some y /\ y ∈ g.
Proof.
  induction g as [|z g IH]; intros Hx Hp.
  - by apply elem_of_nil in Hx.
  - simpl. destruct (p z) eqn:Ez.
    + exists z. split; [done | apply list_elem_of_here].
    + apply elem_of_cons in Hx as [-> | Hx]; [congruence|].
      destruct (IH Hx Hp) as (y & E & Hy). exists y. split; [done|].
      by apply list_elem_of_further.
Qed.

(** When a name is borne by a global action, [getActionDetails] resolves
    it to a global definition, whatever the local catalog holds; and when
    the script cache has no entry under that very name, the script it
    returns is the one of the global file.  (With such an entry the cached
    text is returned instead.) *)
Lemma getActionDetails_prefers_global env s actionName actions s0 d s1 :
  catalog_wf env s ->
  listActions env s = Ret actions s0 ->
  (exists a, a ∈ actions /\ name a = actionName /\ location a = global) ->
  getActionDetails env actionName s = Ret d s1 ->
  location (action d) = global /\
  name (action d) = actionName /\
  (_scriptsCache s0 !! actionName = None ->
   readFileAsString env ghost_global (actionName +:+ ".js") = Fulfilled (code d)).
Proof.
  intros Hwf Hlist (a & Ha & Na & La) Hdet.
  pose proof (listActions_spec env s Hwf) as H8.
  rewrite Hlist in H8.
  destruct H8 as (g & l & gfiles & lfiles & -> & _ & _ & Mg & Ml & _).
  assert (a ∈ g) as Hag.
  { apply elem_of_app in Ha as [Ha | Ha]; [done|].
    pose proof (stripped_location _ _ _ _ Ml Ha). congruence. }
  destruct (find_app_first (fun x => String.eqb (name x) actionName) g l a Hag)
    as (y & Ef & Hy); [by apply String.eqb_eq|].
  revert Hdet. unfold getActionDetails, findAction. unfold bind at 1 2.
  rewrite Hlist, Ef. unfold ret at 1, bind.
  unfold getActionScript. run.
  pose proof (stripped_location _ _ _ _ Mg Hy) as Ly.
  apply find_some in Ef as [_ Ny]. apply String.eqb_eq in Ny.
  destruct (_scriptsCache s0 !! name y) as [script|] eqn:Ec; simpl.
  - intros [= <- _]. simpl. repeat split; try done. rewrite <- Ny, Ec. discriminate.
  - unfold script_file. rewrite Ly. simpl.
    destruct (readFileAsString env ghost_global (name y +:+ ".js")) as [script|] eqn:Er;
      simpl; [|done].
    intros [= <- _]. simpl. repeat split; try done. intros _. by rewrite <- Ny.
Qed.

(** ** Remote delegation and the event of the caller *)

(** A call of [runAction] with an action server never writes into an
    existing event object: the store only grows, by the event of the
    response, and [runAction] returns no reference to it. *)
Lemma remote_run_keeps_caller_events env fuel props server s :
  actionServer props = Some server ->
  match runAction env fuel props s with
  | Ret tt s' =>
      exists response_event, events s' = events s ++ [response_event]
  | Throw _ s' => events s' = events s
  | OutOfFuel => False
  end.
Proof.
  intros Hsrv. unfold runAction, runAction_try, assert_licensed. rewrite Hsrv.
  unfold runInActionServer, await_axios, alloc_event, read_property. run.
  destruct (ASSERT_LICENSED env); simpl; [done|].
  pose proof (getWorkspaceIdForBot_spec env
                (IO.botId (events s !!! incomingEvent props)) s) as Hspec.
  destruct (getWorkspaceIdForBot env _ s) as [workspaceId s1 | e s1 |]; simpl;
    [| |done]; destruct Hspec as (Eev & _ & _); [|by destruct e].
  destruct (jsonwebtoken_sign env _ workspaceId) as [token|e]; simpl; [|done].
  destruct (axios env _) as [latency [response|e]]; simpl.
  - destruct (response_incomingEvent response); simpl; [|done].
    rewrite Eev. by eexists.
  - by destruct (isAxiosError e).
Qed.

(** ** The theorems at concrete inputs *)

Section Witnesses.

Import Example.

(** The catalog of [shadow_world], listed by a new service: four
    definitions, the disabled file left out. *)
Lemma listActions_global_then_local_witness :
  catalog_wf (make_env shadow_world) start /\
  exists r s',
    listActions (make_env shadow_world) start = Ret r s' /\
    map name r = ["builtin/say"; "nlu/detect-intent"; "nlu/detect-intent"; "greet"] /\
    length r = 4%nat.
Proof.
  pose proof (catalog_wf_new (make_env shadow_world) [event0] 0) as W.
  split; [exact W|].
  pose proof (listActions_global_then_local (make_env shadow_world) start W) as H.
  destruct (listActions (make_env shadow_world) start) as [r s' | e s' |] eqn:E.
  - exists r, s'. split; [reflexivity|].
    destruct H as (g & l & gfiles & lfiles & _ & Dg & Dl & _ & _ & Hlen & _).
    injection Dg as <-. injection Dl as <-.
    split; [|exact Hlen].
    vm_compute in E. injection E as <- _. reflexivity.
  - vm_compute in E. discriminate.
  - destruct H.
Defined.


(** A response with status 500 and no event: one task, [completed]. *)
Lemma runInActionServer_audit_witness :
  exists s' t,
    final_state (runInActionServer (make_env failing_world)
                   (run_props "greet" (Some server1)) server1 start) = Some s' /\
    tasks_of (trace s') = [t] /\ status t = completed.
Proof.
  edestruct (runInActionServer_audit (make_env failing_world)
               (run_props "greet" (Some server1)) server1 start)
    as (s' & Hf & _ & H); [reflexivity | reflexivity |].
  simpl in H. destruct H as (t & Ht & Hs & _).
  exists s', t. split; [exact Hf|]. split; [exact Ht | exact Hs].
Defined.

(** The escaping require of [escaping_world] is reported. *)
Lemma unresolved_require_is_reported_witness :
  BP_EXPERIMENTAL_REQUIRE_BPFS (make_env escaping_world) = true /\
  exists s2,
    checkActionRequires (make_env escaping_world) 2 "steal" start = Ret false s2.
Proof.
  split; [reflexivity|].
  pose proof (fun actions s0 d s1 =>
                unresolved_require_is_reported (make_env escaping_world) 0 "steal" start
                  actions s0 d s1 "../../../etc/hosts" [] []) as Hthm.
  edestruct Hthm as (s2 & H & _).
  - reflexivity.
  - reflexivity.
  - reflexivity.
  - reflexivity.
  - constructor.
  - reflexivity.
  - intros a Ha. apply list_elem_of_In in Ha. simpl in Ha.
    destruct Ha as [<- | []]. discriminate.
  - exists s2. exact H.
Defined.

(** Five events in 400 ms on a new service, then one at 3000 ms. *)
Lemma invalidation_debounced_witness :
  clears (invalidations
            [(0, "data/bots/bot1/actions/a.js"); (100, "data/bots/bot1/actions/b.js");
             (200, "data/bots/bot1/ACTIONS/c.js"); (300, "data/global/actions/d.js");
             (400, "data/bots/bot1/actions/e.js"); (0 + 3000, "data/bots/bot1/actions/a.js")]
            (new_ScopedActionService [] 0)) = 2%nat.
Proof.
  refine (proj2 (proj2 (proj2 (proj2
            (invalidation_debounced (new_ScopedActionService [] 0) 0 10
               "data/bots/bot1/flows/main.flow.json" [] 0 0 100 200 300 400
               "data/bots/bot1/actions/a.js" "data/bots/bot1/actions/b.js"
               "data/bots/bot1/ACTIONS/c.js" "data/global/actions/d.js"
               "data/bots/bot1/actions/e.js" "data/bots/bot1/actions/a.js"
               _ _ _ _ _ _ _ _ _ _ _ _ _ _)))));
    first [exact I | reflexivity | simpl; lia].
Defined.

End Witnesses.

(** * Further properties of the service *)

Import Example.

(** ** The memoized catalog *)

(** X1: once [listActions] has returned, it returns the same list without
    any effect, in every later state that still holds the two memoized
    catalogs: the store is neither listed nor read again. *)
Theorem listActions_memoized env s r s' s'' :
  listActions env s = Ret r s' ->
  _globalActionsCache s'' = _globalActionsCache s' ->
  _localActionsCache s'' = _localActionsCache s' ->
  listActions env s'' = Ret r s''.
Proof.
  intros H Hg Hl.
  destruct (listActions_reads env s r s' H) as ((g & l & Eg & El & ->) & _).
  apply listActions_cached; congruence.
Qed.

Lemma listActions_memoized_witness :
  exists r s',
    listActions (make_env shadow_world) start = Ret r s' /\
    listActions (make_env shadow_world) s' = Ret r s'.
Proof.
  destruct (listActions (make_env shadow_world) start) as [r s'| |] eqn:E;
    try (by vm_compute in E).
  exists r, s'. split; [done|].
  apply (listActions_memoized (make_env shadow_world) start r s' s' E); reflexivity.
Defined.

(** X2: after [_clearCache] the catalog is computed afresh: [listActions]
    returns what it returns on a new service, and leaves the same caches
    behind, whatever was memoized before. *)
Theorem listActions_after_clearCache env s evs t0 :
  match listActions env (_clearCache s), listActions env (new_ScopedActionService evs t0) with
  | Ret r1 s1, Ret r2 s2 => r1 = r2 /\ caches s1 = caches s2
  | Throw e1 s1, Throw e2 s2 => e1 = e2 /\ caches s1 = caches s2
  | _, _ => False
  end.
Proof.
  unfold listActions, listGlobalActions, listLocalActions,
    Promise_map_getActionDefinition, caches. run.
  destruct (directoryListing env ghost_global) as [gfiles|e]; simpl; [|done].
  destruct (all_settled
              (map mapped_result
                 (map (start_getActionDefinition env ∅ global)
                    (List.filter (enabled env) gfiles)))) as [g|e]; simpl; [|done].
  destruct (directoryListing env (ghost_forBot (this_botId env))) as [lfiles|e];
    simpl; [|done].
  destruct (all_settled _) as [l|e]; simpl; done.
Qed.

(** X3: [hasAction] and [findAction] agree: [hasAction] answers [true]
    exactly when [findAction] returns an action, which then bears the
    name asked for, and [false] exactly when [findAction] throws "Action
    not found"; an error of the listing is thrown by both. *)
Theorem hasAction_findAction env actionName s :
  match hasAction env actionName s with
  | Ret true s' => exists a, findAction env actionName s = Ret a s' /\ name a = actionName
  | Ret false s' =>
      findAction env actionName s
      = Throw (new_Error env ("Action " +:+ dquote +:+ actionName +:+ dquote +:+ " not found"))
          s'
  | Throw e s' => findAction env actionName s = Throw e s'
  | OutOfFuel => False
  end.
Proof.
  unfold hasAction, findAction, bind.
  destruct (listActions env s) as [actions s' | e s' |] eqn:E; simpl; [|done|].
  - destruct (List.find _ actions) as [a|] eqn:Ef; cbn [ret].
    + exists a. split; [done|].
      apply find_some in Ef as [_ Hn]. by apply String.eqb_eq.
    + done.
  - unfold listActions, bind in E.
    pose proof (listGlobalActions_spec env s) as HG.
    destruct (listGlobalActions env s) as [g s1| |]; [|done|done].
    pose proof (listLocalActions_spec env s1) as HL.
    destruct (listLocalActions env s1); done.
Qed.

(** ** Strings *)

Lemma toLowerCase_char_dot c : Js.toLowerCase_char c = "."%char -> c = "."%char.
Proof. destruct c as [[] [] [] [] [] [] [] []]; vm_compute; congruence. Qed.

Lemma toLowerCase_app a b :
  Js.toLowerCase (a +:+ b) = Js.toLowerCase a +:+ Js.toLowerCase b.
Proof. induction a as [|c a IH]; simpl; [done | by rewrite IH]. Qed.

Lemma toLowerCase_length s : String.length (Js.toLowerCase s) = String.length s.
Proof. induction s as [|c s IH]; simpl; [done | by rewrite IH]. Qed.

Lemma append_length a b :
  String.length (a +:+ b) = (String.length a + String.length b)%nat.
Proof. induction a as [|c a IH]; simpl; [done | by rewrite IH]. Qed.

Lemma startsWith_app p s : Js.startsWith p (p +:+ s) = true.
Proof.
  unfold Js.startsWith. induction p as [|c p IH]; simpl; [by destruct s|].
  by destruct (ascii_dec c c).
Qed.

Lemma startsWith_inv p s :
  Js.startsWith p s = true -> exists rest, s = p +:+ rest.
Proof.
  unfold Js.startsWith. revert s. induction p as [|c p IH]; intros s; simpl.
  - intros _. by exists s.
  - destruct s as [|d s]; [done|]. simpl.
    destruct (ascii_dec c d) as [->|]; [|done].
    intros H. destruct (IH s H) as (rest & ->). by exists rest.
Qed.

Lemma includes_eq needle s :
  Js.includes needle s
  = if Js.startsWith needle s then true
    else match s with
         | EmptyString => false
         | String _ s' => Js.includes needle s'
         end.
Proof. by destruct s. Qed.

Lemma includes_app needle pre post :
  Js.includes needle (pre +:+ needle +:+ post) = true.
Proof.
  induction pre as [|c pre IH].
  - change (EmptyString +:+ needle +:+ post) with (needle +:+ post).
    by rewrite includes_eq, startsWith_app.
  - rewrite includes_eq.
    change (String c pre +:+ needle +:+ post) with (String c (pre +:+ needle +:+ post)).
    by destruct (Js.startsWith needle _).
Qed.

Lemma includes_inv needle s :
  Js.includes needle s = true -> exists pre post, s = pre +:+ needle +:+ post.
Proof.
  induction s as [|c s IH]; rewrite includes_eq.
  - destruct (Js.startsWith needle EmptyString) eqn:E; [|done].
    intros _. apply startsWith_inv in E as (rest & E). by exists EmptyString, rest.
  - destruct (Js.startsWith needle (String c s)) eqn:E.
    + intros _. apply startsWith_inv in E as (rest & E). by exists EmptyString, rest.
    + intros H. destruct (IH H) as (pre & post & ->). by exists (String c pre), post.
Qed.

Lemma includes_length needle s :
  Js.includes needle s = true -> (String.length needle <= String.length s)%nat.
Proof.
  intros H. apply includes_inv in H as (pre & post & ->).
  rewrite !append_length. lia.
Qed.

Lemma includes_cons_false needle c s :
  Js.includes needle (String c s) = false ->
  Js.startsWith needle (String c s) = false /\ Js.includes needle s = false.
Proof. rewrite includes_eq. by destruct (Js.startsWith needle (String c s)). Qed.

Lemma startsWith_cons_ne p c d s :
  c <> d -> Js.startsWith (String c p) (String d s) = false.
Proof.
  intros H. unfold Js.startsWith. cbn [String.prefix].
  by destruct (ascii_dec c d).
Qed.

Lemma eqb_cons_ne c d a b : c <> d -> String.eqb (String c a) (String d b) = false.
Proof. intros H. apply String.eqb_neq. congruence. Qed.

Lemma no_dot_head c s : Js.includes "." (String c s) = false -> c <> "."%char.
Proof.
  intros H ->. apply includes_cons_false in H as [H _].
  pose proof (startsWith_app "." s) as E.
  change ("." +:+ s) with (String "."%char s) in E. congruence.
Qed.

Lemma replace_ext_eq file :
  Js.replace_ext file
  = if Js.startsWith ".js" (Js.toLowerCase file) then Js.drop 3 file
    else if String.eqb (Js.toLowerCase file) ".http.js" then EmptyString
    else match file with
         | EmptyString => EmptyString
         | String c rest => String c (Js.replace_ext rest)
         end.
Proof. by destruct file. Qed.

Lemma toLowerCase_three ext :
  Js.toLowerCase ext = ".js" ->
  exists a b c, ext = String a (String b (String c EmptyString)).
Proof.
  destruct ext as [|a [|b [|c [|d ext]]]]; simpl; try done. intros _. by exists a, b, c.
Qed.

(** Before the first dot of a file name nothing matches the regular
    expression of [getActionDefinition]. *)
Lemma replace_ext_plain base ext :
  Js.includes "." base = false ->
  Js.toLowerCase ext = ".js" \/ Js.toLowerCase ext = ".http.js" ->
  Js.replace_ext (base +:+ ext) = base.
Proof.
  intros Hdot Hext. induction base as [|c base IH].
  - change (EmptyString +:+ ext) with ext.
    rewrite replace_ext_eq. destruct Hext as [H | H]; rewrite H.
    + by destruct (toLowerCase_three ext H) as (a & b & d & ->).
    + done.
  - pose proof (no_dot_head _ _ Hdot) as Hc.
    apply includes_cons_false in Hdot as [_ Hdot].
    assert (Js.toLowerCase_char c <> "."%char) as Hl
      by (intros E; by apply toLowerCase_char_dot in E).
    change (String c base +:+ ext) with (String c (base +:+ ext)).
    rewrite replace_ext_eq. cbn [Js.toLowerCase].
    rewrite startsWith_cons_ne by congruence.
    rewrite eqb_cons_ne by done.
    by rewrite IH.
Qed.

Lemma includes_plain needle_tail base ext :
  Js.includes "." base = false ->
  Js.includes (String "." needle_tail) (base +:+ ext)
  = Js.includes (String "." needle_tail) ext.
Proof.
  intros Hdot. induction base as [|c base IH]; [done|].
  pose proof (no_dot_head _ _ Hdot) as Hc.
  apply includes_cons_false in Hdot as [_ Hdot].
  change (String c base +:+ ext) with (String c (base +:+ ext)).
  rewrite includes_eq, startsWith_cons_ne by congruence. by apply IH.
Qed.

Lemma append_nil_r s : s +:+ EmptyString = s.
Proof.
  induction s as [|c s IH]; [done|].
  change (String c s +:+ EmptyString) with (String c (s +:+ EmptyString)).
  by rewrite IH.
Qed.

Lemma length_zero s : String.length s = 0%nat -> s = EmptyString.
Proof. by destruct s. Qed.

(** On strings of the same length, [includes] is equality. *)
Lemma includes_same_length needle s :
  String.length s = String.length needle ->
  Js.includes needle s = String.eqb s needle.
Proof.
  intros Hlen. destruct (String.eqb_spec s needle) as [->|Hne].
  - pose proof (includes_app needle EmptyString EmptyString) as H.
    change (EmptyString +:+ needle +:+ EmptyString) with (needle +:+ EmptyString) in H.
    by rewrite append_nil_r in H.
  - destruct (Js.includes needle s) eqn:E; [|done].
    destruct (includes_inv _ _ E) as (pre & post & ->).
    rewrite !append_length in Hlen.
    assert (pre = EmptyString) as -> by (apply length_zero; lia).
    assert (post = EmptyString) as -> by (apply length_zero; lia).
    change (EmptyString +:+ needle +:+ EmptyString) with (needle +:+ EmptyString) in Hne.
    by rewrite append_nil_r in Hne.
Qed.

Lemma includes_short needle s :
  (String.length s < String.length needle)%nat -> Js.includes needle s = false.
Proof.
  intros Hlen. destruct (Js.includes needle s) eqn:E; [|done].
  apply includes_length in E. lia.
Qed.

(** ** Action definitions *)

(** X4: the definition of a script file.  For a file [base.js] or
    [base.http.js], the extension in any letter case and [base] without a
    dot, [getActionDefinition] gives the name [base], the location asked
    for and no metadata, without any effect.  The action is not legacy
    only when the extension is spelled [.http.js] in lower case: the
    extension is stripped whatever its case, the test for [.http.js] is
    case-sensitive. *)
Theorem getActionDefinition_names env base ext loc s :
  Js.includes "." base = false ->
  Js.toLowerCase ext = ".js" \/ Js.toLowerCase ext = ".http.js" ->
  getActionDefinition env (base +:+ ext) loc false s
  = Ret {| name := base; isRemote := false; location := loc;
           legacy := negb (String.eqb ext ".http.js"); metadata := None |} s.
Proof.
  intros Hbase Hext. unfold getActionDefinition, new_definition, ret.
  rewrite (replace_ext_plain base ext Hbase Hext).
  rewrite (includes_plain "http.js" base ext Hbase).
  do 3 f_equal.
  destruct Hext as [H|H].
  - rewrite includes_short.
    + symmetry. apply String.eqb_neq. intros ->. discriminate H.
    + rewrite <- (toLowerCase_length ext), H. simpl. lia.
  - apply includes_same_length. by rewrite <- (toLowerCase_length ext), H.
Qed.

Lemma getActionDefinition_names_witness :
  getActionDefinition (make_env shadow_world) ("greet" +:+ ".HTTP.js") local false start
  = Ret {| name := "greet"; isRemote := false; location := local;
           legacy := true; metadata := None |} start.
Proof.
  apply (getActionDefinition_names (make_env shadow_world) "greet" ".HTTP.js" local start).
  - reflexivity.
  - right. reflexivity.
Defined.

(** X5: which file holds the script of a listed file.  For a file of the
    bot, [base.js] or [base.http.js] with [base] free of dots,
    [getActionScript] reads the very file that was listed.  For a global
    file it reads [base.js] in both cases: the script of a global
    [base.http.js] is not read from that file. *)
Theorem script_file_of_listed_file env base ext :
  Js.includes "." base = false ->
  ext = ".js" \/ ext = ".http.js" ->
  script_file env (new_definition (base +:+ ext) local)
  = (ghost_forBot (this_botId env), base +:+ ext) /\
  script_file env (new_definition (base +:+ ext) global)
  = (ghost_global, base +:+ ".js").
Proof.
  intros Hbase Hext.
  assert (Js.toLowerCase ext = ".js" \/ Js.toLowerCase ext = ".http.js") as Hlow
    by (destruct Hext as [-> | ->]; auto).
  unfold script_file, new_definition. cbn [location name legacy].
  rewrite (replace_ext_plain base ext Hbase Hlow).
  rewrite (includes_plain "http.js" base ext Hbase).
  by destruct Hext as [-> | ->].
Qed.

Lemma script_file_of_listed_file_witness :
  script_file (make_env shadow_world) (new_definition ("greet" +:+ ".http.js") global)
  = (ghost_global, "greet" +:+ ".js").
Proof.
  apply (script_file_of_listed_file (make_env shadow_world) "greet" ".http.js").
  - reflexivity.
  - right. reflexivity.
Defined.

(** ** The trust classifier *)

Lemma no_char_head d c s :
  Js.includes (String d EmptyString) (String c s) = false -> c <> d.
Proof.
  intros H ->. apply includes_cons_false in H as [H _].
  pose proof (startsWith_app (String d EmptyString) s) as E.
  change (String d EmptyString +:+ s) with (String d s) in E. congruence.
Qed.

Lemma split_head_none ns :
  Js.includes "/" ns = false -> Js.split_head "/" ns = ns.
Proof.
  induction ns as [|c ns IH]; [done|]. intros H.
  pose proof (no_char_head _ _ _ H) as Hc.
  apply includes_cons_false in H as [_ H].
  cbn [Js.split_head].
  destruct (Ascii.eqb_spec c "/") as [E|_]; [done|]. by rewrite IH.
Qed.

Lemma split_head_app ns rest :
  Js.includes "/" ns = false -> Js.split_head "/" (ns +:+ "/" +:+ rest) = ns.
Proof.
  induction ns as [|c ns IH]; [done|]. intros H.
  pose proof (no_char_head _ _ _ H) as Hc.
  apply includes_cons_false in H as [_ H].
  change (String c ns +:+ "/" +:+ rest) with (String c (ns +:+ "/" +:+ rest)).
  cbn [Js.split_head].
  destruct (Ascii.eqb_spec c "/") as [E|_]; [done|]. by rewrite IH.
Qed.

(** X6: the namespace rule of the trust classifier.  A catalogued global
    action named [ns] or [ns/rest], where [ns] holds no slash, is trusted
    exactly when [ns] is the name of a builtin module; what follows the
    first slash plays no role. *)
Theorem isTrustedAction_namespace env s g s1 a ns rest :
  listGlobalActions env s = Ret g s1 ->
  a ∈ g ->
  Js.includes "/" ns = false ->
  name a = ns \/ name a = ns +:+ "/" +:+ rest ->
  isTrustedAction env (name a) s = Ret (includes_str BUILTIN_MODULES ns) s1.
Proof.
  intros HG Ha Hns Hname.
  assert (Js.split_head "/" (name a) = ns) as Hhead.
  { destruct Hname as [-> | ->]; [by apply split_head_none | by apply split_head_app]. }
  unfold isTrustedAction, listTrustedActions, bind. rewrite HG. cbn [ret]. f_equal.
  apply Bool.eq_iff_eq_true.
  rewrite trusted_names_spec, includes_str_In, Hhead.
  split; [by intros [? _] | intros ?; split; [done | by exists a]].
Qed.

Lemma isTrustedAction_namespace_witness :
  exists s1,
    isTrustedAction (make_env shadow_world) "nlu/detect-intent" start = Ret true s1.
Proof.
  destruct (listGlobalActions (make_env shadow_world) start) as [[|a0 [|a g]] s1| |] eqn:E;
    try (by vm_compute in E).
  exists s1.
  assert (name a = "nlu/detect-intent") as Hn by (vm_compute in E; by inversion E).
  rewrite <- Hn.
  apply (isTrustedAction_namespace (make_env shadow_world) start _ s1 a "nlu"
           "detect-intent" E).
  - apply list_elem_of_further, list_elem_of_here.
  - reflexivity.
  - right. exact Hn.
Defined.

(** X7: a trusted name always resolves to a global script.  When
    [isTrustedAction] has answered [true], [findAction] returns a
    definition of that name whose location is [global], whatever the bot
    holds under the same name, and the file [getActionScript] reads for it
    is the global [<name>.js]; [findAction] can only fail because the
    actions of the bot cannot be listed. *)
Theorem trusted_action_is_global env actionName s s1 :
  catalog_wf env s ->
  isTrustedAction env actionName s = Ret true s1 ->
  match findAction env actionName s1 with
  | Ret a _ =>
      name a = actionName /\ location a = global /\
      script_file env a = (ghost_global, actionName +:+ ".js")
  | Throw e s2 => listLocalActions env s1 = Throw e s2
  | OutOfFuel => False
  end.
Proof.
  intros Hwf H. unfold isTrustedAction, listTrustedActions, bind in H.
  pose proof (listGlobalActions_spec env s) as HG.
  pose proof (respects_listGlobalActions env s) as Hwf1.
  destruct (listGlobalActions env s) as [g s0 | |] eqn:EG; [|done..].
  cbn [ret] in H. injection H as Ht <-.
  destruct HG as (Hcache & _).
  specialize (Hwf1 s0 Hwf eq_refl).
  apply trusted_names_spec in Ht as (_ & a & Ha & Hn).
  destruct Hwf1 as [Hglobal _].
  destruct (Hglobal g Hcache) as (files & _ & Hstrip).
  unfold findAction, listActions, bind.
  assert (listGlobalActions env s0 = Ret g s0) as ->.
  { unfold listGlobalActions, bind, gets. by rewrite Hcache. }
  pose proof (listLocalActions_spec env s0) as HL.
  destruct (listLocalActions env s0) as [l s2 | e s2 |]; [|done..].
  cbn [ret].
  destruct (find_app_first (fun x => String.eqb (name x) actionName) g l a Ha)
    as (y & Hf & Hy).
  { by apply String.eqb_eq. }
  rewrite Hf. cbn [ret].
  assert (location y = global) as Hloc by (eapply stripped_location; eauto).
  assert (name y = actionName) as Hname.
  { apply find_some in Hf as [_ Hf]. by apply String.eqb_eq in Hf. }
  split; [done|]. split; [done|].
  unfold script_file. by rewrite Hloc, Hname.
Qed.

Lemma trusted_action_is_global_witness :
  exists s1 a s2,
    isTrustedAction (make_env shadow_world) "nlu/detect-intent" start = Ret true s1 /\
    findAction (make_env shadow_world) "nlu/detect-intent" s1 = Ret a s2 /\
    location a = global.
Proof.
  destruct (isTrustedAction (make_env shadow_world) "nlu/detect-intent" start)
    as [[] s1| |] eqn:E; try (by vm_compute in E).
  pose proof (trusted_action_is_global (make_env shadow_world) "nlu/detect-intent"
                start s1 (catalog_wf_new _ _ _) E) as H.
  destruct (findAction (make_env shadow_world) "nlu/detect-intent" s1)
    as [a s2 | e s2 |] eqn:EF.
  - exists s1, a, s2. by destruct H as (_ & ? & _).
  - vm_compute in E. injection E as <-. by vm_compute in H.
  - done.
Defined.

(** ** The script cache and the workspace memo *)

Lemma script_key_fresh a : script_key a <> name a.
Proof.
  intros H. apply (f_equal String.length) in H.
  unfold script_key in H. rewrite !append_length in H. simpl in H. lia.
Qed.

(** X8: the script cache never serves the action that filled it.  After a
    miss [getActionScript] stores the script under the composite key,
    which is never the key of the lookup: the entry for the name is still
    missing, and the next call for the same action reads the file again. *)
Theorem getActionScript_rereads env a s script s' :
  _scriptsCache s !! name a = None ->
  getActionScript env a s = Ret script s' ->
  _scriptsCache s' = <[script_key a := script]> (_scriptsCache s) /\
  _scriptsCache s' !! name a = None /\
  exists s'',
    getActionScript env a s' = Ret script s'' /\
    trace s'' = trace s ++ [EvReadFile (script_file env a).1 (script_file env a).2;
                            EvReadFile (script_file env a).1 (script_file env a).2].
Proof.
  intros Hmiss H. unfold getActionScript in *.
  remember (script_file env a) as f eqn:Ef.
  remember (readFileAsString env f.1 f.2) as r eqn:Er.
  assert (<[script_key a := script]> (_scriptsCache s) !! name a = None) as Hmiss'.
  { rewrite lookup_insert_ne; [done | apply script_key_fresh]. }
  run. rewrite Hmiss in H.
  destruct r as [script0|e]; simpl in H; [|done].
  injection H as <- <-. simpl.
  split; [done|]. split; [done|].
  rewrite Hmiss'. simpl. eexists. split; [done|]. simpl.
  by rewrite <- app_assoc.
Qed.

Lemma getActionScript_rereads_witness :
  exists s' s'',
    getActionScript (make_env shadow_world) (new_definition "greet.js" local) start
    = Ret "local greet" s' /\
    getActionScript (make_env shadow_world) (new_definition "greet.js" local) s'
    = Ret "local greet" s'' /\
    length (trace s'') = 2%nat.
Proof.
  destruct (getActionScript (make_env shadow_world) (new_definition "greet.js" local) start)
    as [script s'| |] eqn:E; try (by vm_compute in E).
  assert (script = "local greet") as -> by (vm_compute in E; by inversion E).
  destruct (getActionScript_rereads (make_env shadow_world)
              (new_definition "greet.js" local) start "local greet" s' eq_refl E)
    as (_ & _ & s'' & E2 & Ht).
  exists s', s''. split; [done|]. split; [done|]. by rewrite Ht.
Defined.

(** X9: the workspace of a bot is memoized under the bot's own id.  After
    a successful lookup the same call returns the same workspace without
    asking the workspace service again, and the entries of other bots are
    as before; a failed lookup memoizes nothing. *)
Theorem getWorkspaceIdForBot_memoized env botId s :
  match getWorkspaceIdForBot env botId s with
  | Ret w s' =>
      getWorkspaceIdForBot env botId s' = Ret w s' /\
      _botsWorkspaceIdsCache s' !! botId = Some w /\
      forall b, b <> botId ->
        _botsWorkspaceIdsCache s' !! b = _botsWorkspaceIdsCache s !! b
  | Throw e s' =>
      (exists err : Thrown, e = err /\ getBotWorkspaceId env botId = Rejected err) /\
      _botsWorkspaceIdsCache s' = _botsWorkspaceIdsCache s
  | OutOfFuel => False
  end.
Proof.
  unfold getWorkspaceIdForBot. run.
  destruct (_botsWorkspaceIdsCache s !! botId) as [w|] eqn:Em; simpl.
  - by rewrite Em.
  - destruct (getBotWorkspaceId env botId) as [w|e]; simpl;
      [|split; [by exists e | done]].
    rewrite lookup_insert_eq. split; [done|]. split; [done|].
    intros b Hb. by rewrite lookup_insert_ne.
Qed.

(** ** The require check *)

Lemma check_files_true env recurse actionName parentScript lookups files s s' :
  check_files env recurse actionName parentScript lookups files s = Ret true s' ->
  _validScripts s' !! actionName = Some true.
Proof.
  revert s. induction files as [|file files IH]; intros s.
  - cbn [check_files]. run. intros [= <-]. simpl. by rewrite lookup_insert_eq.
  - rewrite check_files_cons.
    destruct (prepareRequireTester env parentScript lookups file); [apply IH|].
    destruct (load_required env recurse file parentScript s) as [[] s1 | e s1 |];
      [apply IH | done | done].
Qed.

(** X10: a successful require check is remembered.  When
    [checkActionRequires] returns [true], the action is marked in
    [_validScripts], and every later check of the same action answers
    [true] at once, without loading or requiring anything. *)
Theorem checkActionRequires_true_is_remembered env fuel actionName s s' :
  checkActionRequires env fuel actionName s = Ret true s' ->
  validScripts_truthy (_validScripts s') actionName = true /\
  forall fuel', checkActionRequires env (S fuel') actionName s' = Ret true s'.
Proof.
  intros H.
  assert (validScripts_truthy (_validScripts s') actionName = true) as Hv.
  { destruct fuel as [|fuel]; [done|]. rewrite checkActionRequires_unfold in H.
    destruct (validScripts_truthy (_validScripts s) actionName) eqn:Ev.
    - by injection H as <-.
    - destruct (getActionDetails env actionName s) as [d s1 | |]; [|done..].
      apply check_files_true in H. unfold validScripts_truthy. by rewrite H. }
  split; [done|]. intros fuel'. by rewrite checkActionRequires_unfold, Hv.
Qed.

Lemma checkActionRequires_true_is_remembered_witness :
  exists s',
    checkActionRequires (make_env shadow_world) 3 "greet" start = Ret true s' /\
    checkActionRequires (make_env shadow_world) 1 "greet" s' = Ret true s'.
Proof.
  destruct (checkActionRequires (make_env shadow_world) 3 "greet" start)
    as [[] s'| |] eqn:E; try (by vm_compute in E).
  exists s'. split; [done|].
  apply (checkActionRequires_true_is_remembered (make_env shadow_world) 3 "greet" start s' E).
Defined.

Lemma check_files_false env recurse actionName parentScript lookups files s s' :
  (forall f, emits is_loading (recurse f)) ->
  check_files env recurse actionName parentScript lookups files s = Ret false s' ->
  exists file err pre,
    file ∈ files /\
    prepareRequireTester env parentScript lookups file = false /\
    trace s'
    = trace s ++ pre
      ++ [EvLogError ("There is an issue with required file " +:+ file
                      +:+ ".js in action " +:+ actionName +:+ ".js") err].
Proof.
  intros Hrec. revert s. induction files as [|file files IH]; intros s.
  - cbn [check_files]. run. done.
  - rewrite check_files_cons.
    destruct (prepareRequireTester env parentScript lookups file) eqn:Et.
    { intros H. destruct (IH s H) as (f & err & pre & Hf & ? & ?).
      exists f, err, pre. split; [by apply list_elem_of_further | done]. }
    pose proof (emits_load_required env recurse file parentScript Hrec s) as Hl.
    destruct (load_required env recurse file parentScript s) as [[] s1 | e s1 |];
      [| |done].
    + destruct (Hl s1 eq_refl) as (new & Hnew & _).
      intros H. destruct (IH s1 H) as (f & err & pre & Hf & ? & Htr).
      exists f, err, (new ++ pre). split; [by apply list_elem_of_further|].
      split; [done|]. by rewrite Htr, Hnew, <- !app_assoc.
    + destruct (Hl s1 eq_refl) as (new & Hnew & _).
      intros [= <-]. exists file, e, new. split; [apply list_elem_of_here|].
      split; [done|]. cbn [trace set_trace].
      by rewrite Hnew, <- !app_assoc.
Qed.

(** X11: a failed require check always leaves a log line.  When
    [checkActionRequires] returns [false], the last thing it did was to
    log "There is an issue with required file ... in action ..." for one
    of the files the script of the action requires, a file that does not
    resolve within the lookup paths. *)
Theorem checkActionRequires_false_is_logged env fuel actionName s s' :
  checkActionRequires env fuel actionName s = Ret false s' ->
  exists d s1 file err pre,
    getActionDetails env actionName s = Ret d s1 /\
    file ∈ extractRequiredFiles env (code d) /\
    prepareRequireTester env (dirPath d) (lookups d) file = false /\
    trace s'
    = trace s ++ pre
      ++ [EvLogError ("There is an issue with required file " +:+ file
                      +:+ ".js in action " +:+ actionName +:+ ".js") err].
Proof.
  intros H. destruct fuel as [|fuel]; [done|].
  rewrite checkActionRequires_unfold in H.
  destruct (validScripts_truthy (_validScripts s) actionName); [done|].
  pose proof (emits_getActionDetails env actionName s) as Hd.
  destruct (getActionDetails env actionName s) as [d s1 | |]; [|done..].
  destruct (Hd s1 eq_refl) as (new & Hnew & _).
  apply check_files_false in H as (file & err & pre & Hf & Ht & Htr);
    [|apply emits_checkActionRequires].
  exists d, s1, file, err, (new ++ pre).
  split; [done|]. split; [done|]. split; [done|].
  by rewrite Htr, Hnew, <- !app_assoc.
Qed.

Lemma checkActionRequires_false_is_logged_witness :
  exists s' pre file err,
    checkActionRequires (make_env escaping_world) 3 "steal" start = Ret false s' /\
    trace s'
    = trace start ++ pre
      ++ [EvLogError ("There is an issue with required file " +:+ file
                      +:+ ".js in action " +:+ "steal" +:+ ".js") err].
Proof.
  destruct (checkActionRequires (make_env escaping_world) 3 "steal" start)
    as [[] s'| |] eqn:E; try (by vm_compute in E).
  destruct (checkActionRequires_false_is_logged (make_env escaping_world) 3 "steal"
              start s' E) as (d & s1 & file & err & pre & _ & _ & _ & H).
  by exists s', pre, file, err.
Defined.

(** X12: a script whose requires all resolve within its lookup paths
    passes the check: nothing is loaded or required on trial, and the
    action is marked valid in the state its details were read in. *)
Theorem checkActionRequires_resolvable env fuel actionName s d s1 :
  validScripts_truthy (_validScripts s) actionName = false ->
  getActionDetails env actionName s = Ret d s1 ->
  Forall (fun f => prepareRequireTester env (dirPath d) (lookups d) f = true)
    (extractRequiredFiles env (code d)) ->
  checkActionRequires env (S fuel) actionName s
  = Ret true (set_validScripts (<[actionName := true]> (_validScripts s1)) s1).
Proof.
  intros Hv Hd Hall. rewrite checkActionRequires_unfold, Hv, Hd.
  rewrite <- (app_nil_r (extractRequiredFiles env (code d))).
  by rewrite check_files_skip.
Qed.

Lemma checkActionRequires_resolvable_witness :
  exists s', checkActionRequires (make_env tidy_world) 1 "main" start = Ret true s'.
Proof.
  destruct (getActionDetails (make_env tidy_world) "main" start) as [d s1| |] eqn:E;
    try (by vm_compute in E).
  eexists.
  apply (checkActionRequires_resolvable (make_env tidy_world) 0 "main" start d s1).
  - reflexivity.
  - exact E.
  - vm_compute in E. injection E as <- _. vm_compute. repeat constructor.
Defined.

(** ** What a call leaves alone *)

(** The methods are followed along their binds for a property [I] of the
    state that is kept by the updates the methods make, and for a class
    [P] of effects that they may add to the trace. *)
Ltac frame_body :=
  repeat first
    [ solve [eauto with respects]
    | apply respects_bind; [|intros ?]
    | apply respects_try_catch; [|intros ?]
    | apply respects_modify; [intros ? ?; cbn beta; solve [eauto]]
    | match goal with
      | |- respects _ (if ?b then _ else _) => destruct b
      | |- respects _ (match ?x with _ => _ end) => destruct x
      end ].

Section Frame.

Context (env : Env) (I : State -> Prop) (P : Effect -> Prop).

Hypothesis I_emit : forall ev s, P ev -> I s -> I (set_trace (trace s ++ [ev]) s).
Hypothesis I_script :
  forall a script s,
    I s -> I (set_scriptsCache (<[script_key a := script]> (_scriptsCache s)) s).
Hypothesis I_global : forall c s, I s -> I (set_globalActionsCache c s).
Hypothesis I_local : forall c s, I s -> I (set_localActionsCache c s).
Hypothesis P_listing : forall scope, P (EvDirectoryListing scope).
Hypothesis P_read : forall scope f, P (EvReadFile scope f).
Hypothesis P_error : forall msg e, P (EvLogError msg e).

Lemma frame_emit ev : P ev -> respects I (emit ev).
Proof. intros Hev. apply respects_modify. intros s Hs. by apply I_emit. Qed.

Lemma set_trace_twice t1 t2 s : set_trace t2 (set_trace t1 s) = set_trace t2 s.
Proof. by destruct s. Qed.

Lemma set_trace_same s : set_trace (trace s) s = s.
Proof. by destruct s. Qed.

Lemma frame_emits l s : Forall P l -> I s -> I (set_trace (trace s ++ l) s).
Proof.
  intros Hl. revert s. induction Hl as [|ev l Hev _ IH]; intros s Hs.
  - by rewrite app_nil_r, set_trace_same.
  - specialize (IH _ (I_emit ev s Hev Hs)). cbn [trace set_trace] in IH.
    by rewrite set_trace_twice, <- app_assoc in IH.
Qed.

Lemma set_scriptsCache_twice c1 c2 s :
  set_scriptsCache c2 (set_scriptsCache c1 s) = set_scriptsCache c2 s.
Proof. by destruct s. Qed.

Lemma set_scriptsCache_same s : set_scriptsCache (_scriptsCache s) s = s.
Proof. by destruct s. Qed.

Lemma frame_fill_cache writes s :
  Forall (fun kv : string * string => exists a, kv.1 = script_key a) writes ->
  I s -> I (set_scriptsCache (fill_cache writes (_scriptsCache s)) s).
Proof.
  intros Hw. revert s. induction Hw as [|[k v] writes (a & Hk) _ IH]; intros s Hs.
  - unfold fill_cache. cbn [foldl]. by rewrite set_scriptsCache_same.
  - cbn [fst snd] in Hk. subst k.
    specialize (IH _ (I_script a v s Hs)).
    cbn [_scriptsCache set_scriptsCache] in IH.
    by rewrite set_scriptsCache_twice in IH.
Qed.

Lemma frame_writes cache0 loc files :
  Forall (fun kv : string * string => exists a, kv.1 = script_key a)
    (List.concat (map mapped_writes (map (start_getActionDefinition env cache0 loc) files))).
Proof.
  induction files as [|file files IH]; [constructor|].
  cbn [map List.concat]. apply Forall_app. split; [|done].
  unfold start_getActionDefinition.
  destruct (cache0 !! _); [constructor|].
  destruct (readFileAsString _ _ _); repeat constructor. by eexists.
Qed.

Lemma frame_reads cache0 loc files :
  Forall P (List.concat (map mapped_reads (map (start_getActionDefinition env cache0 loc) files))).
Proof.
  induction files as [|file files IH]; [constructor|].
  cbn [map List.concat]. apply Forall_app. split; [|done].
  unfold start_getActionDefinition.
  destruct (cache0 !! _); [constructor|].
  destruct (readFileAsString _ _ _); repeat constructor; apply P_read.
Qed.

Lemma frame_getActionScript a : respects I (getActionScript env a).
Proof.
  unfold getActionScript.
  apply respects_bind; [eauto with respects|]. intros cache.
  destruct (cache !! name a); [eauto with respects|].
  apply respects_bind; [apply frame_emit, P_read|]. intros _. frame_body.
Qed.

Lemma frame_Promise_map files loc :
  respects I (Promise_map_getActionDefinition env files loc).
Proof.
  unfold Promise_map_getActionDefinition.
  apply respects_bind; [eauto with respects|]. intros cache0.
  apply respects_bind.
  { apply respects_modify. intros s Hs. by apply frame_emits; [apply frame_reads|]. }
  intros _. apply respects_bind; [|intros _; eauto with respects].
  apply respects_modify. intros s Hs. by apply frame_fill_cache; [apply frame_writes|].
Qed.

Lemma frame_listGlobalActions : respects I (listGlobalActions env).
Proof.
  unfold listGlobalActions.
  apply respects_bind; [eauto with respects|]. intros [cached|]; [eauto with respects|].
  apply respects_bind; [apply frame_emit, P_listing|]. intros _.
  apply respects_bind; [eauto with respects|]. intros files.
  apply respects_bind; [apply frame_Promise_map|]. intros actions. frame_body.
Qed.

Lemma frame_listLocalActions : respects I (listLocalActions env).
Proof.
  unfold listLocalActions.
  apply respects_bind; [eauto with respects|]. intros [cached|]; [eauto with respects|].
  apply respects_bind; [apply frame_emit, P_listing|]. intros _.
  apply respects_bind; [eauto with respects|]. intros files.
  apply respects_bind; [apply frame_Promise_map|]. intros actions. frame_body.
Qed.

Lemma frame_listActions : respects I (listActions env).
Proof.
  unfold listActions.
  apply respects_bind; [apply frame_listGlobalActions|]. intros g.
  apply respects_bind; [apply frame_listLocalActions|]. intros l. frame_body.
Qed.

Lemma frame_isTrustedAction actionName : respects I (isTrustedAction env actionName).
Proof.
  unfold isTrustedAction, listTrustedActions.
  apply respects_bind; [|intros ?; frame_body].
  apply respects_bind; [apply frame_listGlobalActions|]. intros g. frame_body.
Qed.

Lemma frame_hasAction actionName : respects I (hasAction env actionName).
Proof.
  unfold hasAction.
  apply respects_bind; [apply frame_listActions|]. intros actions. frame_body.
Qed.

Lemma frame_findAction actionName : respects I (findAction env actionName).
Proof.
  unfold findAction.
  apply respects_bind; [apply frame_listActions|]. intros actions. frame_body.
Qed.

Lemma frame_getActionDetails actionName : respects I (getActionDetails env actionName).
Proof.
  unfold getActionDetails.
  apply respects_bind; [apply frame_findAction|]. intros a.
  apply respects_bind; [apply frame_getActionScript|]. intros c. frame_body.
Qed.

Section RequireCheck.

Hypothesis I_valid : forall v s, I s -> I (set_validScripts v s).
Hypothesis P_require : forall c f p, P (EvRequireFromString c f p).
Hypothesis P_warn : forall msg, P (EvLogWarn msg).

Lemma frame_load_required recurse file parentScript :
  (forall f, respects I (recurse f)) ->
  respects I (load_required env recurse file parentScript).
Proof.
  intros Hrec. unfold load_required.
  apply respects_bind; [apply Hrec|]. intros _.
  apply respects_bind; [apply frame_getActionDetails|]. intros d.
  apply respects_bind; [apply frame_emit, P_require|]. intros _.
  apply respects_bind; [eauto with respects|]. intros [].
  - apply frame_emit, P_warn.
  - eauto with respects.
Qed.

Lemma frame_check_files recurse actionName parentScript lookups files :
  (forall f, respects I (recurse f)) ->
  respects I (check_files env recurse actionName parentScript lookups files).
Proof.
  intros Hrec. induction files as [|file files IH]; cbn [check_files].
  - frame_body.
  - destruct (prepareRequireTester env parentScript lookups file); [done|].
    apply respects_bind.
    + apply respects_try_catch.
      * apply respects_bind; [by apply frame_load_required|]. intros _. frame_body.
      * intros err. apply respects_bind; [apply frame_emit, P_error|]. intros _.
        frame_body.
    + intros []; [frame_body | done].
Qed.

Lemma frame_checkActionRequires fuel actionName :
  respects I (checkActionRequires env fuel actionName).
Proof.
  revert actionName. induction fuel as [|fuel IH]; intros actionName.
  - by intros s s' _ H.
  - cbn [checkActionRequires].
    apply respects_bind; [eauto with respects|]. intros valid.
    destruct (validScripts_truthy valid actionName); [eauto with respects|].
    apply respects_bind; [apply frame_getActionDetails|]. intros d.
    by apply frame_check_files.
Qed.

End RequireCheck.

Section Run.

(** Either the require check is switched off, or the property is kept by
    what the check does. *)
Hypothesis checked :
  BP_EXPERIMENTAL_REQUIRE_BPFS env = false \/
  ((forall v s, I s -> I (set_validScripts v s)) /\
   (forall c f p, P (EvRequireFromString c f p)) /\
   (forall msg, P (EvLogWarn msg))).

Lemma frame_loadLocalAction fuel actionName :
  respects I (loadLocalAction env fuel actionName).
Proof.
  unfold loadLocalAction.
  apply respects_bind.
  - destruct (BP_EXPERIMENTAL_REQUIRE_BPFS env) eqn:E; [|eauto with respects].
    destruct checked as [|(? & ? & ?)]; [done|].
    apply respects_bind; [by apply frame_checkActionRequires|]. intros _. frame_body.
  - intros _. apply respects_bind; [apply frame_getActionDetails|]. intros d. frame_body.
Qed.

Context (ref : EventRef).

Hypothesis I_events : forall e s, I s -> I (set_events (<[ref := e]> (events s)) s).
Hypothesis P_without_vm : forall c a r, P (EvRunWithoutVm c a r).
Hypothesis P_in_vm : forall o c d, P (EvRunInVm o c d).

Lemma frame_run_on_event run : respects I (run_on_event ref run).
Proof.
  unfold run_on_event.
  apply respects_bind; [eauto with respects|]. intros evs. frame_body.
Qed.

Lemma frame_runTrustedCode fuel actionName actionArgs :
  respects I (runTrustedCode env fuel actionName actionArgs ref).
Proof.
  unfold runTrustedCode.
  apply respects_bind; [apply frame_loadLocalAction|]. intros [[c r] d].
  apply respects_bind; [unfold await_createForAction; frame_body|]. intros _.
  unfold runWithoutVm.
  apply respects_bind; [apply frame_emit, P_without_vm|]. intros _.
  apply frame_run_on_event.
Qed.

Lemma frame_runLegacyAction fuel actionName actionArgs :
  respects I (runLegacyAction env fuel actionName actionArgs ref).
Proof.
  unfold runLegacyAction.
  apply respects_bind; [apply frame_loadLocalAction|]. intros [[c r] d].
  apply respects_bind; [unfold await_createForAction; frame_body|]. intros _.
  unfold runInVm.
  apply respects_bind; [apply frame_emit, P_in_vm|]. intros _.
  apply frame_run_on_event.
Qed.

Lemma frame_runAction_in_process fuel props :
  actionServer props = None -> incomingEvent props = ref ->
  respects I (runAction env fuel props).
Proof.
  intros Hserver Href. unfold runAction, read_property.
  apply respects_bind; [unfold assert_licensed; frame_body|]. intros _.
  apply respects_try_catch.
  - apply respects_bind; [|intros ?; frame_body].
    unfold runAction_try. rewrite Hserver, Href.
    apply respects_bind; [apply frame_isTrustedAction|]. intros trusted.
    apply respects_bind; [|intros ?; frame_body].
    destruct trusted; [apply frame_runTrustedCode | apply frame_runLegacyAction].
  - intros err. apply respects_bind; [apply frame_emit, P_error|]. intros _.
    frame_body.
Qed.

Hypothesis I_memo : forall m s, I s -> I (set_botsWorkspaceIdsCache m s).
Hypothesis I_clock : forall c s, I s -> I (set_clock c s).
Hypothesis I_alloc : forall e s, I s -> I (set_events (events s ++ [e]) s).
Hypothesis P_workspace : forall b, P (EvGetBotWorkspaceId b).
Hypothesis P_post : forall req, P (EvHttpPost req).
Hypothesis P_task : forall t, P (EvCreateTask t).

Lemma frame_getWorkspaceIdForBot botId : respects I (getWorkspaceIdForBot env botId).
Proof.
  unfold getWorkspaceIdForBot.
  apply respects_bind; [eauto with respects|]. intros memo.
  destruct (memo !! botId); [eauto with respects|].
  apply respects_bind; [apply frame_emit, P_workspace|]. intros _. frame_body.
Qed.

Lemma frame_alloc_event e : respects I (alloc_event e).
Proof.
  intros s s' Hs H. unfold alloc_event in H. run. injection H as <-.
  by apply I_alloc.
Qed.

Lemma frame_runInActionServer props server :
  respects I (runInActionServer env props server).
Proof.
  unfold runInActionServer, read_property.
  apply respects_bind; [eauto with respects|]. intros evs.
  apply respects_bind; [apply frame_getWorkspaceIdForBot|]. intros workspaceId.
  apply respects_bind; [eauto with respects|]. intros token.
  apply respects_bind; [unfold Date_now; eauto with respects|]. intros startedAt.
  apply respects_bind.
  { apply respects_try_catch.
    - unfold await_axios.
      apply respects_bind; [apply frame_emit, P_post|]. intros _. frame_body.
    - intros e. apply respects_bind; [destruct e; eauto with respects|].
      intros isAxios. apply respects_bind; [|intros _; frame_body].
      destruct isAxios; [|eauto with respects].
      apply respects_bind; [unfold Date_now; eauto with respects|]. intros endedAt.
      apply respects_bind; [destruct e; eauto with respects|]. intros code.
      apply frame_emit, P_task. }
  intros response.
  apply respects_bind; [unfold Date_now; eauto with respects|]. intros endedAt.
  apply respects_bind; [apply frame_emit, P_task|]. intros _.
  destruct (response_incomingEvent response); [apply frame_alloc_event|].
  eauto with respects.
Qed.

Lemma frame_runAction_remote fuel props server :
  actionServer props = Some server -> respects I (runAction env fuel props).
Proof.
  intros Hserver. unfold runAction, read_property.
  apply respects_bind; [unfold assert_licensed; frame_body|]. intros _.
  apply respects_try_catch.
  - apply respects_bind; [|intros ?; frame_body].
    unfold runAction_try. rewrite Hserver. apply frame_runInActionServer.
  - intros err. apply respects_bind; [apply frame_emit, P_error|]. intros _.
    frame_body.
Qed.

End Run.

End Frame.

(** X14: what a run in this process leaves alone.  When no action server
    is given, [runAction], however it ends, records no audit task, keeps
    the workspace memo and the debounce state, allocates no event object
    and writes to no event object but the one it was given. *)
Theorem runAction_in_process_frame env fuel props s s' :
  actionServer props = None ->
  final_state (runAction env fuel props s) = Some s' ->
  _botsWorkspaceIdsCache s' = _botsWorkspaceIdsCache s /\
  clearDebounce s' = clearDebounce s /\
  tasks_of (trace s') = tasks_of (trace s) /\
  length (events s') = length (events s) /\
  forall r, r <> incomingEvent props -> events s' !! r = events s !! r.
Proof.
  intros Hserver Hend.
  pose (Inv := fun s' : State =>
    _botsWorkspaceIdsCache s' = _botsWorkspaceIdsCache s /\
    clearDebounce s' = clearDebounce s /\
    tasks_of (trace s') = tasks_of (trace s) /\
    length (events s') = length (events s) /\
    forall r, r <> incomingEvent props -> events s' !! r = events s !! r).
  pose (Eff := fun ev : Effect => match ev with EvCreateTask _ => False | _ => True end).
  assert (respects Inv (runAction env fuel props)) as H.
  { apply (frame_runAction_in_process env Inv Eff) with (ref := incomingEvent props);
      unfold Inv, Eff.
    - intros ev s0 Hev (? & ? & Ht & ? & ?). repeat split; try done.
      cbn [trace set_trace]. rewrite tasks_of_app, Ht.
      destruct ev; try done; simpl; by rewrite app_nil_r.
    - intros a script s0 H. exact H.
    - intros c s0 H. exact H.
    - intros c s0 H. exact H.
    - done.
    - done.
    - done.
    - right. split; [intros v s0 H; exact H | done].
    - intros e s0 (? & ? & ? & Hlen & Hev). repeat split; try done.
      + cbn [events set_events]. by rewrite length_insert.
      + intros r Hr. cbn [events set_events].
        rewrite list_lookup_insert_ne; [by apply Hev | done].
    - done.
    - done.
    - done.
    - done. }
  apply (H s s'); [|done]. by repeat split.
Qed.

Lemma runAction_in_process_frame_witness :
  exists s',
    runAction (make_env shadow_world) 3 (run_props "greet" None) start = Ret tt s' /\
    length (events s') = 1%nat /\ tasks_of (trace s') = [].
Proof.
  destruct (runAction (make_env shadow_world) 3 (run_props "greet" None) start)
    as [[] s'| |] eqn:E; try (by vm_compute in E).
  exists s'. split; [done|].
  pose proof (runAction_in_process_frame (make_env shadow_world) 3
                (run_props "greet" None) start s' eq_refl) as H.
  rewrite E in H. by destruct (H eq_refl) as (_ & _ & ? & ? & _).
Defined.

(** X15: what a delegated run leaves alone.  When an action server is
    given, [runAction], however it ends, neither lists nor reads the
    content store, runs and requires no script, and keeps the two
    catalogs, the script cache, the set of valid scripts and the debounce
    state: it does not even look whether the action exists.  All it adds to
    the trace are the workspace lookup, the request, the audit task and
    the error log line. *)
Theorem runAction_remote_frame env fuel props server s s' :
  actionServer props = Some server ->
  final_state (runAction env fuel props s) = Some s' ->
  _globalActionsCache s' = _globalActionsCache s /\
  _localActionsCache s' = _localActionsCache s /\
  _scriptsCache s' = _scriptsCache s /\
  _validScripts s' = _validScripts s /\
  clearDebounce s' = clearDebounce s /\
  exists new,
    trace s' = trace s ++ new /\
    Forall (fun ev => match ev with
                      | EvGetBotWorkspaceId _ | EvHttpPost _ | EvCreateTask _
                      | EvLogError _ _ => True
                      | _ => False
                      end) new.
Proof.
  intros Hserver Hend.
  pose (Eff := fun ev : Effect =>
    match ev with
    | EvGetBotWorkspaceId _ | EvHttpPost _ | EvCreateTask _ | EvLogError _ _ => True
    | _ => False
    end).
  pose (Inv := fun s' : State =>
    _globalActionsCache s' = _globalActionsCache s /\
    _localActionsCache s' = _localActionsCache s /\
    _scriptsCache s' = _scriptsCache s /\
    _validScripts s' = _validScripts s /\
    clearDebounce s' = clearDebounce s /\
    extends Eff s s').
  assert (respects Inv (runAction env fuel props)) as H.
  { apply (frame_runAction_remote env Inv Eff) with (server := server);
      unfold Inv, Eff; try done.
    intros ev s0 Hev (? & ? & ? & ? & ? & Hext). repeat split; try done.
    eapply extends_trans; [exact Hext|].
    exists [ev]. split; [done | by constructor]. }
  apply (H s s'); [|done]. repeat split; try done. apply extends_refl.
Qed.

Lemma runAction_remote_frame_witness :
  exists s',
    runAction (make_env answering_world) 3 (run_props "greet" (Some server1)) start
    = Ret tt s' /\
    _globalActionsCache s' = None /\ _scriptsCache s' = ∅.
Proof.
  destruct (runAction (make_env answering_world) 3 (run_props "greet" (Some server1)) start)
    as [[] s'| |] eqn:E; try (by vm_compute in E).
  exists s'. split; [done|].
  pose proof (runAction_remote_frame (make_env answering_world) 3
                (run_props "greet" (Some server1)) server1 start s' eq_refl) as H.
  rewrite E in H. by destruct (H eq_refl) as (? & _ & ? & _).
Defined.

(** ** Runs without the require check *)

(** X16: the require check is only entered in strict-require mode and for
    a run in this process.  When [BP_EXPERIMENTAL_REQUIRE_BPFS] is off, or
    when an action server is given, a run of [runAction] that ends has
    required no script on trial and logged no warning about empty exports,
    and [_validScripts] is as before. *)
Theorem runAction_without_require_check env fuel props s s' :
  BP_EXPERIMENTAL_REQUIRE_BPFS env = false \/ is_Some (actionServer props) ->
  final_state (runAction env fuel props s) = Some s' ->
  _validScripts s' = _validScripts s /\
  exists new,
    trace s' = trace s ++ new /\
    Forall (fun ev => match ev with
                      | EvRequireFromString _ _ _ | EvLogWarn _ => False
                      | _ => True
                      end) new.
Proof.
  intros Hoff Hend.
  pose (Eff := fun ev : Effect =>
    match ev with EvRequireFromString _ _ _ | EvLogWarn _ => False | _ => True end).
  pose (Inv := fun s' : State => _validScripts s' = _validScripts s /\ extends Eff s s').
  assert (forall ev s0, Eff ev -> Inv s0 -> Inv (set_trace (trace s0 ++ [ev]) s0)) as Hemit.
  { intros ev s0 Hev (? & Hext). split; [done|].
    eapply extends_trans; [exact Hext|]. exists [ev]. split; [done | by constructor]. }
  assert (respects Inv (runAction env fuel props)) as H.
  { destruct (actionServer props) as [server|] eqn:Hserver.
    - apply (frame_runAction_remote env Inv Eff) with (server := server);
        unfold Inv, Eff; done.
    - destruct Hoff as [Hoff | [? ?]]; [|done].
      apply (frame_runAction_in_process env Inv Eff) with (ref := incomingEvent props);
        unfold Inv, Eff; try done. by left. }
  apply (H s s'); [|done]. split; [done | apply extends_refl].
Qed.

Lemma runAction_without_require_check_witness :
  exists s',
    final_state (runAction (make_env shadow_world) 3 (run_props "greet" None) start)
    = Some s' /\
    _validScripts s' = ∅.
Proof.
  destruct (runAction (make_env shadow_world) 3 (run_props "greet" None) start)
    as [[] s'| |] eqn:E; try (by vm_compute in E).
  exists s'. split; [done|].
  destruct (runAction_without_require_check (make_env shadow_world) 3
              (run_props "greet" None) start s') as (Hv & _).
  - left. reflexivity.
  - by rewrite E.
  - exact Hv.
Defined.

(** ** Running an action that does not exist *)

(** X17: a name the catalog does not hold.  When no global and no local
    action bears the name, a licensed run in this process throws an
    [ActionExecutionError] that carries the message "Action ... not found"
    and the name; nothing was executed or required, and the only trace the
    run leaves beyond the listing of the catalog is the error log line. *)
Theorem runAction_unknown_action env fuel props s actions s1 :
  ASSERT_LICENSED env = None ->
  actionServer props = None ->
  listActions env s = Ret actions s1 ->
  (forall a, a ∈ actions -> name a <> actionName props) ->
  runAction env (S fuel) props s
  = Throw
      (ActionExecutionError
         ("Action " +:+ dquote +:+ actionName props +:+ dquote +:+ " not found")
         (actionName props)
         (Error_stack env
            ("Action " +:+ dquote +:+ actionName props +:+ dquote +:+ " not found")))
      (set_trace
         (trace s1
          ++ [EvLogError ("An error occurred while executing the action " +:+ dquote
                          +:+ actionName props)
                (new_Error env
                   ("Action " +:+ dquote +:+ actionName props +:+ dquote +:+ " not found"))])
         s1).
Proof.
  intros Hlic Hserver Hlist Hno.
  set (n := actionName props) in *.
  set (notfound := new_Error env ("Action " +:+ dquote +:+ n +:+ dquote +:+ " not found")).
  (* the two listings *)
  pose proof (listGlobalActions_spec env s) as HG.
  unfold listActions in Hlist. unfold bind at 1 in Hlist.
  destruct (listGlobalActions env s) as [g s0 | |] eqn:EG; [|done..].
  destruct HG as (Hcache & _).
  unfold bind in Hlist.
  destruct (listLocalActions env s0) as [l s1' | |] eqn:EL; [|done..].
  cbn [ret] in Hlist. injection Hlist as <- <-.
  (* the name is not trusted *)
  assert (isTrustedAction env n s = Ret false s0) as Htrust.
  { unfold isTrustedAction, listTrustedActions, bind. rewrite EG. cbn [ret]. f_equal.
    apply Bool.not_true_is_false. intros Ht.
    apply trusted_names_spec in Ht as (_ & a & Ha & Hn).
    apply (Hno a); [|done]. apply elem_of_app. by left. }
  (* the details cannot be loaded *)
  assert (listActions env s0 = Ret (g ++ l) s1') as Hlist0.
  { unfold listActions, bind.
    assert (listGlobalActions env s0 = Ret g s0) as ->
      by (unfold listGlobalActions, bind, gets; by rewrite Hcache).
    by rewrite EL. }
  assert (getActionDetails env n s0 = Throw notfound s1') as Hdetails.
  { unfold getActionDetails. unfold bind at 1.
    by rewrite (findAction_not_found env n (g ++ l) s0 s1' Hlist0 Hno). }
  assert (loadLocalAction env (S fuel) n s0 = Throw notfound s1') as Hload.
  { unfold loadLocalAction. unfold bind at 1.
    destruct (BP_EXPERIMENTAL_REQUIRE_BPFS env).
    - unfold bind at 1. rewrite checkActionRequires_unfold.
      destruct (validScripts_truthy (_validScripts s0) n).
      + cbn [ret]. unfold bind at 1. by rewrite Hdetails.
      + by rewrite Hdetails.
    - cbn [ret]. unfold bind at 1. by rewrite Hdetails. }
  assert (runAction_try env (S fuel) props s = Throw notfound s1') as Htry.
  { unfold runAction_try. rewrite Hserver. unfold bind at 1. fold n. rewrite Htrust.
    unfold bind at 1. unfold runLegacyAction. unfold bind at 1. by rewrite Hload. }
  unfold runAction, assert_licensed. rewrite Hlic. unfold bind at 1. cbn [ret].
  unfold try_catch. unfold bind at 1. by rewrite Htry.
Qed.

Lemma runAction_unknown_action_witness :
  exists s',
    runAction (make_env escaping_world) 1 (run_props "nope" None) start
    = Throw (ActionExecutionError
               ("Action " +:+ dquote +:+ "nope" +:+ dquote +:+ " not found") "nope"
               ("Error: Action " +:+ dquote +:+ "nope" +:+ dquote +:+ " not found")) s'.
Proof.
  destruct (listActions (make_env escaping_world) start) as [actions s1| |] eqn:E;
    try (by vm_compute in E).
  eexists.
  apply (runAction_unknown_action (make_env escaping_world) 0 (run_props "nope" None)
           start actions s1 eq_refl eq_refl E).
  vm_compute in E. injection E as <- _. intros a Ha.
  apply list_elem_of_singleton in Ha as ->. done.
Defined.

(** ** Remote delegation *)



(** X19: nothing leaves the process before the token is signed.  When the
    workspace of the bot cannot be found, or the token cannot be signed,
    [runInActionServer] throws that very error; no request has been sent
    and no audit task has been recorded. *)
Theorem runInActionServer_unsigned env props server s (e : Thrown) s1 :
  getWorkspaceIdForBot env (IO.botId (events s !!! incomingEvent props)) s = Throw e s1 \/
  (exists workspaceId,
      getWorkspaceIdForBot env (IO.botId (events s !!! incomingEvent props)) s
      = Ret workspaceId s1 /\
      jsonwebtoken_sign env (IO.botId (events s !!! incomingEvent props)) workspaceId
      = Rejected e) ->
  runInActionServer env props server s = Throw e s1 /\
  posts (trace s1) = posts (trace s) /\
  tasks_of (trace s1) = tasks_of (trace s).
Proof.
  intros H.
  pose proof (getWorkspaceIdForBot_spec env
                (IO.botId (events s !!! incomingEvent props)) s) as Hspec.
  assert (trace s1 = trace s \/
          trace s1 = trace s ++ [EvGetBotWorkspaceId
                                   (IO.botId (events s !!! incomingEvent props))]) as Etr.
  { destruct H as [H | (w & H & _)]; rewrite H in Hspec; by destruct Hspec as (_ & _ & ?). }
  split; [|split].
  - unfold runInActionServer. run.
    destruct H as [-> | (w & -> & Hsign)]; [done|]. simpl. by rewrite Hsign.
  - destruct Etr as [-> | ->]; [done|]. rewrite posts_app. simpl. apply app_nil_r.
  - destruct Etr as [-> | ->]; [done|]. rewrite tasks_of_app. simpl. apply app_nil_r.
Qed.

Lemma runInActionServer_unsigned_witness :
  exists s1,
    runInActionServer (with_workspace_error workspace_error (make_env answering_world))
      (run_props "greet" (Some server1)) server1 start
    = Throw workspace_error s1 /\
    posts (trace s1) = [].
Proof.
  destruct (getWorkspaceIdForBot
              (with_workspace_error workspace_error (make_env answering_world))
              (IO.botId (events start !!! incomingEvent (run_props "greet" (Some server1))))
              start) as [w s1| e s1|] eqn:E; try (by vm_compute in E).
  assert (e = workspace_error) as -> by (vm_compute in E; by inversion E).
  exists s1.
  destruct (runInActionServer_unsigned
              (with_workspace_error workspace_error (make_env answering_world))
              (run_props "greet" (Some server1)) server1 start workspace_error s1
              (or_introl E)) as (Hrun & Hposts & _).
  split; [exact Hrun | exact Hposts].
Defined.

(** ** Bursts of invalidations *)

Lemma burst_is_suppressed evs s :
  debounce_wf (clearDebounce s) (clock s) ->
  lastCallTime (clearDebounce s) = Some (clock s) ->
  burst (clock s) evs ->
  clears (invalidations evs s) = clears s /\
  caches (invalidations evs s) = caches s.
Proof.
  revert s. induction evs as [|[t k] evs IH]; intros s Hwf Hlast Hburst; [done|].
  destruct Hburst as (Hle & Hlt & Hkey & Hrest). cbn [fst snd] in *.
  destruct (invalidation_suppressed s (clock s) t k (clock s) Hwf Hle Hkey Hlast Hlt)
    as (Hwf' & Hclock & Hlast' & Hcaches & Hclears).
  change (invalidations ((t, k) :: evs) s) with (invalidations evs (invalidation t k s)).
  assert (burst (clock (invalidation t k s)) evs) as Hrest' by (by rewrite Hclock).
  assert (lastCallTime (clearDebounce (invalidation t k s))
          = Some (clock (invalidation t k s))) as Hlast'' by (by rewrite Hclock).
  destruct (IH _ Hwf' Hlast'' Hrest') as (-> & ->). done.
Qed.

(** X20: the window of the debounce slides.  After an invalidation event
    that clears the caches, a burst of further events, each less than
    [DEBOUNCE_DELAY] after the one before, clears nothing, however long
    the burst lasts: the whole sequence clears the caches once, and what
    was memoized during the burst stays. *)
Theorem invalidation_burst_clears_once s now t key evs :
  debounce_wf (clearDebounce s) now -> now <= t ->
  actions_key key = true ->
  match lastCallTime (clearDebounce s) with
  | Some l => l + DEBOUNCE_DELAY <= t
  | None => True
  end ->
  burst t evs ->
  clears (invalidations ((t, key) :: evs) s) = S (clears s) /\
  cleared (invalidations ((t, key) :: evs) s).
Proof.
  intros Hwf Hle Hkey Hold Hburst.
  destruct (invalidation_fires s now t key Hwf Hle Hkey Hold)
    as (Hwf' & Hclock & Hlast & Hcleared & Hclears).
  change (invalidations ((t, key) :: evs) s) with (invalidations evs (invalidation t key s)).
  assert (burst (clock (invalidation t key s)) evs) as Hburst' by (by rewrite Hclock).
  assert (lastCallTime (clearDebounce (invalidation t key s))
          = Some (clock (invalidation t key s))) as Hlast' by (by rewrite Hclock).
  destruct (burst_is_suppressed evs _ Hwf' Hlast' Hburst') as (Hc & Hcaches).
  split; [by rewrite Hc, Hclears|]. unfold cleared. by rewrite Hcaches.
Qed.

Lemma invalidation_burst_clears_once_witness :
  clears (invalidations
            [(0, "data/global/actions/a.js"); (1900, "data/global/actions/a.js");
             (3800, "data/global/actions/a.js"); (5700, "data/global/actions/a.js")]
            (new_ScopedActionService [] 0)) = 1%nat.
Proof.
  apply (invalidation_burst_clears_once (new_ScopedActionService [] 0) 0 0
           "data/global/actions/a.js"
           [(1900, "data/global/actions/a.js"); (3800, "data/global/actions/a.js");
            (5700, "data/global/actions/a.js")]).
  - exact Logic.I.
  - lia.
  - reflexivity.
  - exact Logic.I.
  - cbn [burst fst snd]. unfold DEBOUNCE_DELAY. repeat split; try lia; reflexivity.
Defined.

(** X21: spaced events all clear.  Invalidation events for action files
    that come at least [DEBOUNCE_DELAY] after the one before each clear
    the caches. *)
Theorem invalidation_spaced_all_clear evs s :
  debounce_wf (clearDebounce s) (clock s) ->
  lastCallTime (clearDebounce s) = Some (clock s) ->
  spaced (clock s) evs ->
  clears (invalidations evs s) = (clears s + length evs)%nat /\
  (evs <> [] -> cleared (invalidations evs s)).
Proof.
  revert s. induction evs as [|[t k] evs IH]; intros s Hwf Hlast Hspaced.
  { split; [simpl; lia | done]. }
  destruct Hspaced as (Hle & Hkey & Hrest). cbn [fst snd] in *.
  assert (clock s <= t) as Hnow by (unfold DEBOUNCE_DELAY in Hle; lia).
  destruct (invalidation_fires s (clock s) t k Hwf Hnow Hkey) as
    (Hwf' & Hclock & Hlast' & Hcleared & Hclears).
  { by rewrite Hlast. }
  change (invalidations ((t, k) :: evs) s) with (invalidations evs (invalidation t k s)).
  assert (spaced (clock (invalidation t k s)) evs) as Hrest' by (by rewrite Hclock).
  assert (lastCallTime (clearDebounce (invalidation t k s))
          = Some (clock (invalidation t k s))) as Hlast'' by (by rewrite Hclock).
  destruct (IH _ Hwf' Hlast'' Hrest') as (Hn & Hc).
  split; [rewrite Hn, Hclears; simpl; lia|].
  intros _. destruct evs as [|ev evs]; [exact Hcleared | by apply Hc].
Qed.

Lemma invalidation_spaced_all_clear_witness :
  clears (invalidations
            [(2000, "data/global/actions/a.js"); (4000, "data/bots/b/actions/c.js")]
            (invalidation 0 "data/global/actions/a.js" (new_ScopedActionService [] 0)))
  = 3%nat.
Proof.
  apply (invalidation_spaced_all_clear
           [(2000, "data/global/actions/a.js"); (4000, "data/bots/b/actions/c.js")]
           (invalidation 0 "data/global/actions/a.js" (new_ScopedActionService [] 0))).
  - vm_compute. repeat split; discriminate.
  - reflexivity.
  - vm_compute. repeat split; discriminate.
Defined.

(** X22: the key filter of the invalidation listener.  The listener
    reacts to every key that contains [/actions] in any letter case, at
    any place: it treats the key as it treats the bare [/actions]. *)
Theorem listener_key_any_case pre mid post s :
  Js.toLowerCase mid = "/actions" ->
  _listenForCacheInvalidation (pre +:+ mid +:+ post) s
  = _listenForCacheInvalidation "/actions" s.
Proof.
  intros Hmid. unfold _listenForCacheInvalidation.
  rewrite !toLowerCase_app, Hmid, includes_app.
  reflexivity.
Qed.

Lemma listener_key_any_case_witness :
  _listenForCacheInvalidation ("object::data/bots/b" +:+ "/Actions" +:+ "-old/x.js")
    (new_ScopedActionService [] 0)
  = _listenForCacheInvalidation "/actions" (new_ScopedActionService [] 0).
Proof.
  apply (listener_key_any_case "object::data/bots/b" "/Actions" "-old/x.js"). reflexivity.
Defined.

(** ** What a run in this process does to the event *)

Lemma isTrustedAction_keeps_events env actionName s s' :
  final_state (isTrustedAction env actionName s) = Some s' -> events s' = events s.
Proof.
  intros H.
  apply (frame_isTrustedAction env (fun s0 => events s0 = events s) (fun _ => True))
    with (s := s) (actionName := actionName); try done.
Qed.

Lemma loadLocalAction_keeps_events env fuel actionName s s' :
  final_state (loadLocalAction env fuel actionName s) = Some s' -> events s' = events s.
Proof.
  intros H.
  apply (frame_loadLocalAction env (fun s0 => events s0 = events s) (fun _ => True))
    with (s := s) (fuel := fuel) (actionName := actionName); try done.
  by right.
Qed.

(** X23: what a successful run in this process does to the event.  When
    [runAction] returns and no action server was given, exactly one script
    has run, on the event object of the caller as it was at the call; the
    script did not throw, and the object now is what the script left of
    it.  The script ran unsandboxed or in the sandbox with the 5000 ms
    timeout. *)
Theorem runAction_in_process_event env fuel props s s' :
  actionServer props = None ->
  runAction env fuel props s = Ret tt s' ->
  exists code req outcome,
    (outcome
     = Function_call env code
         {| arg_event := incomingEvent props; arg_args := actionArgs props |} req
         (events s !!! incomingEvent props) \/
     exists vm d,
       timeout vm = 5000 /\
       sandbox vm = {| arg_event := incomingEvent props; arg_args := actionArgs props |} /\
       outcome = VmRunner_runInVm env vm code d (events s !!! incomingEvent props)) /\
    raised outcome = None /\
    events s' = <[incomingEvent props := event_after outcome]> (events s).
Proof.
  intros Hserver H. unfold runAction, assert_licensed, read_property in H.
  destruct (ASSERT_LICENSED env); [done|].
  unfold bind at 1 in H. cbn [ret] in H. unfold try_catch in H.
  unfold bind at 1 in H. unfold runAction_try in H. rewrite Hserver in H.
  unfold bind at 1 in H.
  pose proof (isTrustedAction_keeps_events env (actionName props) s) as Ht.
  destruct (isTrustedAction env (actionName props) s) as [trusted s0 | e s0 |];
    [| by (destruct e; run) | done].
  specialize (Ht s0 eq_refl).
  unfold bind at 1 in H.
  destruct trusted.
  - unfold runTrustedCode in H. unfold bind at 1 in H.
    pose proof (loadLocalAction_keeps_events env fuel (actionName props) s0) as Hl.
    destruct (loadLocalAction env fuel (actionName props) s0)
      as [[[code req] d] s1 | e s1 |]; [| by (destruct e; run) | done].
    specialize (Hl s1 eq_refl).
    unfold await_createForAction, runWithoutVm, run_on_event in H.
    destruct (createForAction env); [by run|].
    run. rewrite Hl, Ht in H.
    exists code, req. eexists. split; [left; reflexivity|].
    destruct (raised _) as [x|] eqn:Er; simpl in H; [by destruct x|].
    injection H as <-. split; [done|]. simpl. by rewrite ?Hl, ?Ht.
  - unfold runLegacyAction in H. unfold bind at 1 in H.
    pose proof (loadLocalAction_keeps_events env fuel (actionName props) s0) as Hl.
    destruct (loadLocalAction env fuel (actionName props) s0)
      as [[[code req] d] s1 | e s1 |]; [| by (destruct e; run) | done].
    specialize (Hl s1 eq_refl).
    unfold await_createForAction, runInVm, run_on_event in H.
    destruct (createForAction env); [by run|].
    run. rewrite Hl, Ht in H.
    exists code, req. eexists. split.
    { right.
      exists {| wrapper := "none";
                sandbox := {| arg_event := incomingEvent props;
                              arg_args := actionArgs props |};
                require_external := true; require_mock := req; timeout := 5000 |}, d.
      split; [reflexivity|]. split; reflexivity. }
    destruct (raised _) as [x|] eqn:Er; simpl in H; [by destruct x|].
    injection H as <-. split; [done|]. simpl. by rewrite ?Hl, ?Ht.
Qed.

Lemma runAction_in_process_event_witness :
  exists s',
    runAction (make_env shadow_world) 3 (run_props "greet" None) start = Ret tt s' /\
    length (events s') = 1%nat.
Proof.
  destruct (runAction (make_env shadow_world) 3 (run_props "greet" None) start)
    as [[] s'| |] eqn:E; try (by vm_compute in E).
  exists s'. split; [done|].
  destruct (runAction_in_process_event (make_env shadow_world) 3 (run_props "greet" None)
              start s' eq_refl E) as (code & req & outcome & _ & _ & ->).
  by rewrite length_insert.
Defined.

(** ** The keys of the script cache *)

Lemma script_key_underscore a : Js.includes "_" (script_key a) = true.
Proof. unfold script_key. apply includes_app. Qed.

Lemma composite_keys_insert a script s :
  composite_keys s ->
  composite_keys (set_scriptsCache (<[script_key a := script]> (_scriptsCache s)) s).
Proof.
  intros H k. cbn [_scriptsCache set_scriptsCache].
  destruct (decide (k = script_key a)) as [->|Hne]; [by exists a|].
  rewrite lookup_insert_ne by done. apply H.
Qed.

Lemma composite_keys_runAction env fuel props :
  respects composite_keys (runAction env fuel props).
Proof.
  destruct (actionServer props) as [server|] eqn:Hserver.
  - apply (frame_runAction_remote env composite_keys (fun _ => True))
      with (server := server); done.
  - apply (frame_runAction_in_process env composite_keys (fun _ => True))
      with (ref := incomingEvent props); try done.
    + intros a script s. apply composite_keys_insert.
    + by right.
Qed.

(** X24: the script cache only holds composite keys.  From a new service
    on, and again after every clear, each key of [_scriptsCache] is of the
    form [name_legacy_location]: [runAction], [hasAction], [listActions]
    and the invalidation listener keep it so.  As the cache is looked up
    by the bare name, an action whose name holds no underscore never finds
    its script there: every [getActionScript] for it reads the content
    store. *)
Theorem script_cache_holds_composite_keys env s :
  composite_keys s ->
  (forall fuel props s',
      final_state (runAction env fuel props s) = Some s' -> composite_keys s') /\
  (forall actionName s',
      final_state (hasAction env actionName s) = Some s' -> composite_keys s') /\
  (forall s', final_state (listActions env s) = Some s' -> composite_keys s') /\
  (forall t key, composite_keys (invalidation t key s)) /\
  (forall a,
      Js.includes "_" (name a) = false ->
      _scriptsCache s !! name a = None /\
      exists s',
        final_state (getActionScript env a s) = Some s' /\
        trace s' = trace s ++ [EvReadFile (script_file env a).1 (script_file env a).2]).
Proof.
  intros H. split_and!.
  - intros fuel props s' Hend. by apply (composite_keys_runAction env fuel props s s').
  - intros actionName s' Hend.
    apply (frame_hasAction env composite_keys (fun _ => True)) with (s := s)
      (actionName := actionName); try done.
    intros a script s0. apply composite_keys_insert.
  - intros s' Hend.
    apply (frame_listActions env composite_keys (fun _ => True)) with (s := s); try done.
    intros a script s0. apply composite_keys_insert.
  - intros t key k.
    unfold invalidation, _listenForCacheInvalidation, advance_clock.
    destruct (Js.includes _ _); [|apply H].
    destruct (Lodash.debounced _ _ _).1; [|apply H].
    cbn [_scriptsCache _clearCache set_trace set_botsWorkspaceIdsCache set_validScripts
           set_localActionsCache set_globalActionsCache set_scriptsCache].
    rewrite lookup_empty. by intros [? ?].
  - intros a Hname.
    assert (_scriptsCache s !! name a = None) as Hmiss.
    { destruct (_scriptsCache s !! name a) as [script|] eqn:E; [|done].
      destruct (H (name a)) as (b & Hb); [by rewrite E|].
      pose proof (script_key_underscore b) as Hu. rewrite <- Hb in Hu. congruence. }
    split; [done|].
    unfold getActionScript.
    remember (script_file env a) as f eqn:Ef.
    run. rewrite Hmiss.
    destruct (readFileAsString env f.1 f.2); simpl; by eexists.
Qed.

Lemma script_cache_holds_composite_keys_witness :
  exists s',
    final_state (runAction (make_env shadow_world) 3 (run_props "greet" None) start)
    = Some s' /\
    _scriptsCache s' !! "greet" = None.
Proof.
  destruct (runAction (make_env shadow_world) 3 (run_props "greet" None) start)
    as [[] s'| |] eqn:E; try (by vm_compute in E).
  exists s'. split; [done|].
  assert (composite_keys start) as H0.
  { intros k [? Hk]. unfold start, new_ScopedActionService in Hk.
    cbn [_scriptsCache] in Hk. by rewrite lookup_empty in Hk. }
  destruct (script_cache_holds_composite_keys (make_env shadow_world) start H0)
    as (Hrun & _).
  assert (composite_keys s') as H1 by (apply (Hrun 3%nat (run_props "greet" None)); by rewrite E).
  destruct (script_cache_holds_composite_keys (make_env shadow_world) s' H1)
    as (_ & _ & _ & _ & Hmiss).
  by destruct (Hmiss (new_definition "greet.js" local) eq_refl) as (? & _).
Defined.

(** ** Names inherited from [Object.prototype] *)

(** X25: [_validScripts] is a plain object, so a name it does not own is
    looked up on [Object.prototype].  An action named after one of the
    properties found there ([constructor], [toString], [valueOf], ...)
    passes the require check unchecked, even right after the caches were
    cleared: in strict-require mode [loadLocalAction] only loads its
    details, and no required file is tried. *)
Theorem prototype_names_pass_unchecked env fuel actionName s :
  In actionName Object_prototype_keys ->
  _validScripts s !! actionName = None ->
  checkActionRequires env (S fuel) actionName s = Ret true s /\
  loadLocalAction env (S fuel) actionName s
  = bind (getActionDetails env actionName)
      (fun d => ret (code d, prepareRequire (dirPath d) (lookups d), dirPath d)) s.
Proof.
  intros Hin Hown.
  assert (checkActionRequires env (S fuel) actionName s = Ret true s) as Hcheck.
  { rewrite checkActionRequires_unfold. unfold validScripts_truthy. rewrite Hown.
    by apply includes_str_In in Hin as ->. }
  split; [done|].
  unfold loadLocalAction. unfold bind at 1.
  destruct (BP_EXPERIMENTAL_REQUIRE_BPFS env); [|done].
  unfold bind at 1. by rewrite Hcheck.
Qed.

Lemma prototype_names_pass_unchecked_witness :
  checkActionRequires (make_env escaping_world) 1 "constructor" (_clearCache start)
  = Ret true (_clearCache start).
Proof.
  apply (prototype_names_pass_unchecked (make_env escaping_world) 0 "constructor"
           (_clearCache start)).
  - left. reflexivity.
  - reflexivity.
Defined.
